(** * The Feishu channel bridge: inbound gate, media resolution, reply rendering

    A shallow embedding of [src/policy.ts], [src/bot.ts] and
    [src/reply-dispatcher.ts], and the properties of the inbound pipeline
    proved over it; then of [src/typing.ts], [src/directory.ts],
    [src/accounts.ts] and of parts of [src/channel.ts] and
    [src/monitor.ts], with their properties.

    Conventions of the embedding.
    - A JavaScript string is a sequence of UTF-16 code units.  It is held
      as a [string] of bytes, its UTF-8 form: a character of one, two or
      three bytes is one code unit, a character of four bytes is two (a
      surrogate pair), and a surrogate that stands alone is held as its
      three bytes.  [code_units] reads the units back.
    - White space is the [WhiteSpace] and [LineTerminator] of ECMA-262, the
      Unicode space separators included.  [toLowerCase] folds A-Z itself
      on a string of ASCII characters and asks the engine for every other
      string.
    - A value produced by [JSON.parse] is a [JSON] tree; numbers are the
      integers.  A safe integer prints in decimal; the engine is asked how
      any other number prints.
    - [undefined] and an absent optional field are [None].
    - A JavaScript exception is [Throw]; a [try]/[catch] is [try_catch].
    - The host runtime and the platform SDK that the sources call but do
      not define are the fields of [Host], the built-ins of the JavaScript
      engine that are not modelled here the fields of [Engine]; every
      collaborator of [Host] may fail.  A call leaves an [Effect] in the
      trace.
    - One inbound event is handled sequentially, from its first statement
      to its last. *)

From Stdlib Require Import ZArith String Ascii List Bool Lia.
From Stdlib Require Import Numbers.DecimalString Numbers.DecimalPos.
From stdpp Require Import gmap strings list fin_maps.

Open Scope string_scope.
Open Scope list_scope.
Open Scope Z_scope.

Set Default Proof Using "Type".
Set Warnings "-register-all".

(* ===================================================================== *)
(** * JavaScript values and string primitives                             *)
(* ===================================================================== *)

Module JS.

(** ** Strings *)

(** [s] without its prefix [p], when it has that prefix. *)
Fixpoint strip_prefix (p s : string) : option string :=
  match p, s with
  | EmptyString, _ => Some s
  | String a p', String b s' => if Ascii.eqb a b then strip_prefix p' s' else None
  | String _ _, EmptyString => None
  end.

(** [s] without the first of [tokens] it begins with. *)
Fixpoint strip_first (tokens : list string) (s : string) : option string :=
  match tokens with
  | [] => None
  | t :: rest =>
      match strip_prefix t s with
      | Some r => Some r
      | None => strip_first rest s
      end
  end.

(** Every byte of [s] is in the class [p]. *)
Fixpoint every (p : ascii -> bool) (s : string) : bool :=
  match s with
  | EmptyString => true
  | String c r => p c && every p r
  end.

Definition is_empty (s : string) : bool :=
  match s with EmptyString => true | String _ _ => false end.

(** *** Characters and code units *)

(** The bytes of the character with code point [cp]. *)
Definition utf8 (cp : N) : string :=
  (if cp <? 0x80 then String (ascii_of_N cp) ""
   else if cp <? 0x800 then
     String (ascii_of_N (0xC0 + cp / 0x40)) (String (ascii_of_N (0x80 + cp mod 0x40)) "")
   else if cp <? 0x10000 then
     String (ascii_of_N (0xE0 + cp / 0x1000))
       (String (ascii_of_N (0x80 + (cp / 0x40) mod 0x40))
          (String (ascii_of_N (0x80 + cp mod 0x40)) ""))
   else
     String (ascii_of_N (0xF0 + cp / 0x40000))
       (String (ascii_of_N (0x80 + (cp / 0x1000) mod 0x40))
          (String (ascii_of_N (0x80 + (cp / 0x40) mod 0x40))
             (String (ascii_of_N (0x80 + cp mod 0x40)) ""))))%N.

(** A byte below 128: a character of its own. *)
Definition is_ascii (c : ascii) : bool :=
  match c with Ascii _ _ _ _ _ _ _ false => true | _ => false end.

(** A byte [10xxxxxx]: it continues a character. *)
Definition is_continuation (c : ascii) : bool :=
  match c with Ascii _ _ _ _ _ _ false true => true | _ => false end.

(** The bytes the leading byte [c] announces: [110xxxxx] two, [1110xxxx]
    three, [11110xxx] four. *)
Definition announced (c : ascii) : nat :=
  match c with
  | Ascii _ _ _ _ _ false true true => 2
  | Ascii _ _ _ _ false true true true => 3
  | Ascii _ _ _ false true true true true => 4
  | _ => 1
  end.

(** The low [k] bits of a byte, [k] at most six, as a number. *)
Definition low_bits (k : nat) (c : ascii) : N :=
  match c with
  | Ascii b0 b1 b2 b3 b4 b5 _ _ =>
      fold_right (fun b n => (N.b2n b + 2 * n)%N) 0%N (take k [b0; b1; b2; b3; b4; b5])
  end.

(** The plane of a character of four bytes, from the two bytes that hold
    it, and the six bits below the plane. *)
Definition plane (c c1 : ascii) : N := (low_bits 3 c * 4 + low_bits 6 c1 / 16)%N.

Definition below_plane (c1 c2 : ascii) : N :=
  (low_bits 4 c1 * 4 + low_bits 6 c2 / 16)%N.

(** The bytes of the character [s] begins with: those its leading byte
    announces when continuation bytes follow it in that number, and four
    bytes hold a character of the planes 1 to 16; else one. *)
Definition width (s : string) : nat :=
  match s with
  | String c (String c1 r1) =>
      match announced c, r1 with
      | 2%nat, _ => if is_continuation c1 then 2 else 1
      | 3%nat, String c2 _ => if is_continuation c1 && is_continuation c2 then 3 else 1
      | 4%nat, String c2 (String c3 _) =>
          if is_continuation c1 && is_continuation c2 && is_continuation c3
             && (0 <? plane c c1)%N && (plane c c1 <=? 16)%N
          then 4 else 1
      | _, _ => 1
      end
  | _ => 1
  end%nat.

(** The code units of the character [s] begins with: the code point, or
    the two surrogates of a character of four bytes. *)
Definition head_units (s : string) : list N :=
  match width s, s with
  | 2%nat, String c (String c1 _) => [low_bits 5 c * 64 + low_bits 6 c1]
  | 3%nat, String c (String c1 (String c2 _)) =>
      [low_bits 4 c * 4096 + low_bits 6 c1 * 64 + low_bits 6 c2]
  | 4%nat, String c (String c1 (String c2 (String c3 _))) =>
      [0xD800 + (plane c c1 - 1) * 64 + below_plane c1 c2;
       0xDC00 + low_bits 4 c2 * 64 + low_bits 6 c3]
  | _, String c _ => [N_of_ascii c]
  | _, EmptyString => []
  end%N.

(** The code units of [s], once [inside] bytes of the character at hand
    are passed. *)
Fixpoint code_units_from (inside : nat) (s : string) : list N :=
  match s with
  | EmptyString => []
  | String c r =>
      match inside with
      | S k => code_units_from k r
      | O => head_units s ++ code_units_from (width s - 1) r
      end
  end.

Definition code_units (s : string) : list N := code_units_from 0 s.

(** [s.length] *)
Definition length_utf16 (s : string) : nat := length (code_units s).

(** The code units of a character of [w] bytes. *)
Definition units (w : nat) : nat := if (w =? 4)%nat then 2%nat else 1%nat.

(** The high surrogate of the character of four bytes [s] begins with, in
    its three bytes [11101101 1010uuuu 10xxxxxx]. *)
Definition high_surrogate (s : string) : string :=
  match s with
  | String c (String c1 (String c2 _)) =>
      let u := (plane c c1 - 1)%N in
      let x := below_plane c1 c2 in
      String "237"
        (String (Ascii (N.testbit u 0) (N.testbit u 1) (N.testbit u 2) (N.testbit u 3)
                   false true false true)
           (String (Ascii (N.testbit x 0) (N.testbit x 1) (N.testbit x 2) (N.testbit x 3)
                      (N.testbit x 4) (N.testbit x 5) false true) ""))
  | _ => EmptyString
  end.

(** [s.slice(0, n)], once [inside] bytes of the character at hand are
    passed.  A character of two units does not fit one unit: its high
    surrogate is what is left of it. *)
Fixpoint slice_from (n inside : nat) (s : string) : string :=
  match s with
  | EmptyString => EmptyString
  | String c r =>
      match inside with
      | S k => String c (slice_from n k r)
      | O =>
          if (units (width s) <=? n)%nat
          then String c (slice_from (n - units (width s)) (width s - 1) r)
          else if (n =? 1)%nat then high_surrogate s
          else EmptyString
      end
  end.

(** [s.slice(0, n)] for [0 <= n]. *)
Definition slice0 (n : nat) (s : string) : string := slice_from n 0 s.

(** The characters of [s], as [for (const c of s)] goes through them: a
    surrogate pair is one character, a surrogate that stands alone is one
    too. *)
Fixpoint characters_from (fuel : nat) (s : string) : list string :=
  match fuel, s with
  | S fuel', String _ _ =>
      String.substring 0 (width s) s
      :: characters_from fuel' (String.substring (width s) (String.length s) s)
  | _, _ => []
  end.

Definition characters (s : string) : list string := characters_from (String.length s) s.

(** [q] begins [l]; [q] occurs in [l]. *)
Fixpoint begins (q l : list N) : bool :=
  match q, l with
  | [], _ => true
  | a :: q', b :: l' => (a =? b)%N && begins q' l'
  | _ :: _, [] => false
  end.

Fixpoint occurs_in (q l : list N) : bool :=
  if begins q l then true
  else
    match l with
    | [] => false
    | _ :: l' => occurs_in q l'
    end.

(** [s.includes(q)] on strings: the code units of [q] occur in those of
    [s]. *)
Definition str_includes (q s : string) : bool := occurs_in (code_units q) (code_units s).

(** *** White space

    The code points of [WhiteSpace] and of [LineTerminator] (ECMA-262,
    12.2 and 12.3): what [String.prototype.trim] strips and [\s] matches. *)
Definition WhiteSpace : list N :=
  [0x9; 0xB; 0xC; 0x20; 0xA0; 0x1680; 0x2000; 0x2001; 0x2002; 0x2003; 0x2004;
   0x2005; 0x2006; 0x2007; 0x2008; 0x2009; 0x200A; 0x202F; 0x205F; 0x3000; 0xFEFF]%N.

Definition LineTerminator : list N := [0xA; 0xD; 0x2028; 0x2029]%N.

Definition white_space : list string :=
  Eval vm_compute in map utf8 (WhiteSpace ++ LineTerminator).

Definition line_terminators : list string :=
  Eval vm_compute in map utf8 LineTerminator.

(** [s] without the white-space character it begins with. *)
Definition ws_head (s : string) : option string := strip_first white_space s.

(** [s.trimStart()]; [fuel] bounds the characters to strip. *)
Fixpoint trimStart_from (fuel : nat) (s : string) : string :=
  match fuel with
  | O => s
  | S fuel' =>
      match ws_head s with
      | Some r => trimStart_from fuel' r
      | None => s
      end
  end.

Definition trimStart (s : string) : string := trimStart_from (String.length s) s.

(** [s] is one white-space character. *)
Definition is_white (s : string) : bool := existsb (String.eqb s) white_space.

(** [s.trimEnd()]: from the right, what is left is dropped as long as it
    is one white-space character. *)
Fixpoint trimEnd (s : string) : string :=
  match s with
  | EmptyString => EmptyString
  | String c r =>
      let kept := String c (trimEnd r) in
      if is_white kept then EmptyString else kept
  end.

(** [s.trim()] *)
Definition trim (s : string) : string := trimEnd (trimStart s).

(** [s.replace(/\s+/g, " ")]: every maximal run of white space becomes one
    space; [fuel] bounds the steps. *)
Fixpoint collapse_from (fuel : nat) (s : string) : string :=
  match fuel with
  | O => s
  | S fuel' =>
      match ws_head s with
      | Some r => String " " (collapse_from fuel' (trimStart r))
      | None =>
          match s with
          | EmptyString => EmptyString
          | String c r => String c (collapse_from fuel' r)
          end
      end
  end.

Definition collapse_ws (s : string) : string := collapse_from (String.length s) s.

(** No line terminator begins anywhere in [s]. *)
Fixpoint line_free (s : string) : bool :=
  match s with
  | EmptyString => true
  | String _ r =>
      match strip_first line_terminators s with
      | Some _ => false
      | None => line_free r
      end
  end.

(** *** Case *)

Definition lower_ascii (c : ascii) : ascii :=
  let n := nat_of_ascii c in
  if (Nat.leb 65 n && Nat.leb n 90)%bool then ascii_of_nat (n + 32) else c.

(** The letters A to Z of [s] in lower case, every other byte as it is. *)
Fixpoint lower_letters (s : string) : string :=
  match s with
  | EmptyString => EmptyString
  | String c r => String (lower_ascii c) (lower_letters r)
  end.

(** *** Truthiness *)

(** [arr.includes(x)] on an array of strings. *)
Definition includes (l : list string) (x : string) : bool :=
  bool_decide (x ∈ l).

(** A string is truthy when it is not empty. *)
Definition truthy_str (s : string) : bool := negb (is_empty s).

(** [a || b] on strings. *)
Definition or_str (a b : string) : string := if truthy_str a then a else b.

(** [a || b] where [a] may be undefined and [b] is a string. *)
Definition or_undef (a : option string) (b : string) : string :=
  match a with
  | Some s => or_str s b
  | None => b
  end.

(** ** Numbers *)

(** [Number.isSafeInteger(z)] *)
Definition is_safe_integer (z : Z) : bool := Z.abs z <? 2 ^ 53.

(** The decimal numeral of an integer. *)
Definition decimal (z : Z) : string := NilZero.string_of_int (Z.to_int z).

(** ** JSON values *)

Inductive JSON : Type :=
| JNull
| JBool (b : bool)
| JNum (z : Z)
| JStr (s : string)
| JArr (items : list JSON)
| JObj (fields : list (string * JSON)).

(** [ToBoolean] on a parsed value. *)
Definition truthy (v : JSON) : bool :=
  match v with
  | JNull => false
  | JBool b => b
  | JNum z => negb (z =? 0)
  | JStr s => truthy_str s
  | JArr _ | JObj _ => true
  end.

(** [ToBoolean] on a value that may be [undefined]. *)
Definition truthy_opt (v : option JSON) : bool :=
  match v with
  | Some j => truthy j
  | None => false
  end.

(** [a || b] on values that may be undefined: the first truthy operand,
    else the last operand. *)
Definition or_val (a : option JSON) (b : JSON) : JSON :=
  match a with
  | Some j => if truthy j then j else b
  | None => b
  end.

(** Own property of an object, first binding of the name. *)
Fixpoint assoc (k : string) (fields : list (string * JSON)) : option JSON :=
  match fields with
  | [] => None
  | (k', v) :: rest => if String.eqb k k' then Some v else assoc k rest
  end.

(** ** Completions *)

Inductive JsError : Type :=
| SyntaxError
| TypeError
| HostError (who : string).

Inductive Completion (A : Type) : Type :=
| Normal (a : A)
| Throw (e : JsError).
Arguments Normal {A} a.
Arguments Throw {A} e.

Definition bindC {A B} (c : Completion A) (k : A -> Completion B) : Completion B :=
  match c with
  | Normal a => k a
  | Throw e => Throw e
  end.

(** [try { c } catch { h }] for code without effects. *)
Definition catchC {A} (c : Completion A) (h : JsError -> A) : A :=
  match c with
  | Normal a => a
  | Throw e => h e
  end.

(** [v.name] for one of the payload's field names: [null] has no
    properties and throws, an object answers with its own property, any
    other value with [undefined]. *)
Definition get (name : string) (v : JSON) : Completion (option JSON) :=
  match v with
  | JNull => Throw TypeError
  | JObj fields => Normal (assoc name fields)
  | _ => Normal None
  end.

(** ** The JavaScript engine

    The built-ins that are taken as the engine has them. *)
Record Engine : Type := {
  (** [JSON.parse(text)] *)
  JSON_parse : string -> Completion JSON;
  (** [new RegExp(source, "g")], which throws when the source is no
      pattern; the pattern is held as what [subject.replace(pattern, "")]
      makes of a subject. *)
  RegExp_g : string -> Completion (string -> string);
  (** [s.toLowerCase()], asked for strings with a character outside
      ASCII. *)
  fold_case : string -> string;
  (** [String(n)], asked for numbers that are no safe integers. *)
  print_number : Z -> string
}.

Section WithEngine.

Context (E : Engine).

(** [subject.replace(new RegExp(source, "g"), "")] *)
Definition RegExp_replace_g (source subject : string) : Completion string :=
  bindC (RegExp_g E source) (fun replace => Normal (replace subject)).

(** [s.toLowerCase()] *)
Definition toLowerCase (s : string) : string :=
  if every is_ascii s then lower_letters s else fold_case E s.

(** [String(n)] on a number. *)
Definition String_of_number (z : Z) : string :=
  if is_safe_integer z then decimal z else print_number E z.

(** [ToString], as string concatenation and template literals apply it.
    An array is joined with commas, [null] elements printing as nothing. *)
Fixpoint ToString (v : JSON) : string :=
  match v with
  | JNull => "null"
  | JBool true => "true"
  | JBool false => "false"
  | JNum z => String_of_number z
  | JStr s => s
  | JArr items =>
      String.concat ","
        (map (fun x => match x with JNull => "" | _ => ToString x end) items)
  | JObj _ => "[object Object]"
  end.

End WithEngine.

End JS.
Export JS.

Notation "'let!' x ':=' c 'in' k" := (bindC c (fun x => k))
  (at level 10, x pattern, c at level 100, k at level 200).

(* ===================================================================== *)
(** * Regular expressions, as [RegExp.prototype.test] decides them        *)
(* ===================================================================== *)

Module RegExp.

(** The operators the two patterns of [shouldUseCard] are written with.
    A character class is its membership test; [Run] is a run of
    characters, given by the test of the run. *)
Inductive re : Type :=
| Void
| Eps
| Cls (p : ascii -> bool)
| Run (p : string -> bool)
| Cat (r1 r2 : re)
| Alt (r1 r2 : re)
| Star (r : re).

Fixpoint nullable (r : re) : bool :=
  match r with
  | Void => false
  | Eps => true
  | Cls _ => false
  | Run p => p ""
  | Cat r1 r2 => nullable r1 && nullable r2
  | Alt r1 r2 => nullable r1 || nullable r2
  | Star _ => true
  end.

(** What is left of [r] once it has read [c]. *)
Fixpoint deriv (c : ascii) (r : re) : re :=
  match r with
  | Void => Void
  | Eps => Void
  | Cls p => if p c then Eps else Void
  | Run p => Run (fun s => p (String c s))
  | Cat r1 r2 =>
      if nullable r1 then Alt (Cat (deriv c r1) r2) (deriv c r2)
      else Cat (deriv c r1) r2
  | Alt r1 r2 => Alt (deriv c r1) (deriv c r2)
  | Star r1 => Cat (deriv c r1) (Star r1)
  end.

(** [r] matches the whole of [s]. *)
Fixpoint matches (r : re) (s : string) : bool :=
  match s with
  | EmptyString => nullable r
  | String c s' => matches (deriv c r) s'
  end.

(** [x+] *)
Definition Plus (r : re) : re := Cat r (Star r).

(** A literal character and a literal string. *)
Definition chr (c : ascii) : re := Cls (Ascii.eqb c).

Fixpoint lit (s : string) : re :=
  match s with
  | EmptyString => Eps
  | String c s' => Cat (chr c) (lit s')
  end.

(** [[\s\S]]: every character, byte by byte. *)
Definition any_char : ascii -> bool := fun _ => true.

(** [.+] without the [s] flag: one character or more, none of them a line
    terminator. *)
Definition dots : string -> bool := fun s => negb (is_empty s) && line_free s.

(** [[\r\n]] *)
Definition cr_lf : ascii -> bool :=
  fun c => Ascii.eqb c "013" || Ascii.eqb c "010".

(** [[-:| ]] *)
Definition sep_char : ascii -> bool :=
  fun c => Ascii.eqb c "-" || Ascii.eqb c ":" || Ascii.eqb c "|" || Ascii.eqb c " ".

(** [re.test(s)]: the pattern is not anchored, a match may begin and end
    anywhere in [s]. *)
Definition test (r : re) (s : string) : bool :=
  matches (Cat (Star (Cls (fun _ => true))) (Cat r (Star (Cls (fun _ => true))))) s.

(** The strings a pattern denotes. *)
Inductive lang : re -> string -> Prop :=
| lang_eps : lang Eps ""
| lang_cls p c : p c = true -> lang (Cls p) (String c "")
| lang_run p s : p s = true -> lang (Run p) s
| lang_cat r1 r2 s1 s2 : lang r1 s1 -> lang r2 s2 -> lang (Cat r1 r2) (s1 +:+ s2)
| lang_alt_l r1 r2 s : lang r1 s -> lang (Alt r1 r2) s
| lang_alt_r r1 r2 s : lang r2 s -> lang (Alt r1 r2) s
| lang_star_nil r : lang (Star r) ""
| lang_star_cons r s1 s2 : lang r s1 -> lang (Star r) s2 -> lang (Star r) (s1 +:+ s2).

End RegExp.

(* ===================================================================== *)
(** * src/policy.ts                                                       *)
(* ===================================================================== *)

Inductive GroupPolicy : Type := GroupOpen | GroupAllowlist | GroupDisabled.
Inductive DmPolicy : Type := DmOpen | DmPairing | DmAllowlist.
Inductive RenderMode : Type := RenderAuto | RenderRaw | RenderCard.

#[global] Instance GroupPolicy_eq_dec : EqDecision GroupPolicy.
Proof. solve_decision. Defined.

#[global] Instance DmPolicy_eq_dec : EqDecision DmPolicy.
Proof. solve_decision. Defined.

(** An allow-list entry, [string | number]. *)
Inductive AllowEntry : Type :=
| EntryStr (s : string)
| EntryNum (n : Z).

(** [FeishuGroupConfig]: the fields the gate reads. *)
Record FeishuGroupConfig : Type := {
  group_requireMention : option bool;
  group_allowFrom : option (list AllowEntry)
}.

(** [FeishuConfig]: the fields the pipeline reads.  [groups] is the object
    in the order [Object.keys] lists it. *)
Record FeishuConfig : Type := {
  dmPolicy : option DmPolicy;
  allowFrom : option (list AllowEntry);
  groupPolicy : option GroupPolicy;
  groupAllowFrom : option (list AllowEntry);
  groups : option (list (string * FeishuGroupConfig));
  requireMention : option bool;
  historyLimit : option Z;
  mediaMaxMb : option Z;
  renderMode : option RenderMode
}.

Inductive MatchSource : Type := Wildcard | ById | ByName.

Record FeishuAllowlistMatch : Type := {
  allowed : bool;
  matchKey : option string;
  matchSource : option MatchSource
}.

Module Policy.

Definition not_allowed : FeishuAllowlistMatch :=
  {| allowed := false; matchKey := None; matchSource := None |}.

(** The names every object inherits from [Object.prototype]. *)
Definition Object_prototype : list string :=
  ["constructor"; "__defineGetter__"; "__defineSetter__"; "hasOwnProperty";
   "__lookupGetter__"; "__lookupSetter__"; "isPrototypeOf"; "propertyIsEnumerable";
   "toString"; "valueOf"; "__proto__"; "toLocaleString"].

(** What an object answers under an inherited name: a function, or the
    prototype itself; truthy, and with none of the settings of a group. *)
Definition inherited_member : FeishuGroupConfig :=
  {| group_requireMention := None; group_allowFrom := None |}.

(** The own property [key] of the configured groups. *)
Fixpoint own_group (key : string) (groups : list (string * FeishuGroupConfig))
    : option FeishuGroupConfig :=
  match groups with
  | [] => None
  | (k, g) :: rest => if String.eqb key k then Some g else own_group key rest
  end.

(** [groups[key]] on the configured groups: the own property, else what
    the object inherits under that name. *)
Definition groups_get (key : string) (groups : list (string * FeishuGroupConfig))
    : option FeishuGroupConfig :=
  match own_group key groups with
  | Some g => Some g
  | None => if includes Object_prototype key then Some inherited_member else None
  end.

(** The result is the record [{ requireMention }]; its one field is
    returned. *)
Definition resolveFeishuReplyPolicy
    (isDirectMessage : bool) (globalConfig : option FeishuConfig)
    (groupConfig : option FeishuGroupConfig) : bool :=
  if isDirectMessage then false
  else
    match groupConfig ≫= group_requireMention with
    | Some b => b
    | None =>
        match globalConfig ≫= requireMention with
        | Some b => b
        | None => true
        end
    end.

Section WithEngine.

Context (E : Engine).

(** [String(entry)] *)
Definition String_ (entry : AllowEntry) : string :=
  match entry with
  | EntryStr s => s
  | EntryNum n => String_of_number E n
  end.

(** [String(entry).trim().toLowerCase()] *)
Definition normalizeEntry (entry : AllowEntry) : string :=
  toLowerCase E (trim (String_ entry)).

Definition resolveFeishuAllowlistMatch
    (allowFrom : list AllowEntry) (senderId : string) (senderName : option string)
    : FeishuAllowlistMatch :=
  let allowFrom := List.filter truthy_str (map normalizeEntry allowFrom) in
  if (length allowFrom =? 0)%nat then not_allowed
  else if includes allowFrom "*" then
    {| allowed := true; matchKey := Some "*"; matchSource := Some Wildcard |}
  else
    let senderId := toLowerCase E senderId in
    if includes allowFrom senderId then
      {| allowed := true; matchKey := Some senderId; matchSource := Some ById |}
    else
      let senderName := option_map (toLowerCase E) senderName in
      match senderName with
      | Some senderName =>
          if truthy_str senderName && includes allowFrom senderName then
            {| allowed := true; matchKey := Some senderName; matchSource := Some ByName |}
          else not_allowed
      | None => not_allowed
      end.

Definition resolveFeishuGroupConfig (cfg : option FeishuConfig) (groupId : option string)
    : option FeishuGroupConfig :=
  let groups := default [] (cfg ≫= groups) in
  match option_map trim groupId with
  | None => None
  | Some groupId =>
      if negb (truthy_str groupId) then None
      else
        match groups_get groupId groups with
        | Some direct => Some direct
        | None =>
            let lowered := toLowerCase E groupId in
            match List.find (fun key => String.eqb (toLowerCase E key) lowered)
                    (map fst groups) with
            | Some matchKey =>
                if truthy_str matchKey then groups_get matchKey groups else None
            | None => None
            end
        end
  end.

Definition isFeishuGroupAllowed
    (groupPolicy : GroupPolicy) (allowFrom : list AllowEntry)
    (senderId : string) (senderName : option string) : bool :=
  match groupPolicy with
  | GroupDisabled => false
  | GroupOpen => true
  | GroupAllowlist => allowed (resolveFeishuAllowlistMatch allowFrom senderId senderName)
  end.

End WithEngine.

End Policy.
Export Policy.

(* ===================================================================== *)
(** * The host: runtime and platform SDK                                  *)
(* ===================================================================== *)

Definition Buffer : Type := string.
Definition LF : string := String "010" "".

(** ** Events, as the transport hands them over ([FeishuMessageEvent]) *)

Inductive ChatType : Type := P2p | Group.

#[global] Instance ChatType_eq_dec : EqDecision ChatType.
Proof. solve_decision. Defined.

Record UserIds : Type := {
  open_id : option string;
  user_id : option string;
  union_id : option string
}.

Record Mention : Type := {
  mention_key : string;
  mention_id : UserIds;
  mention_name : string;
  mention_tenant_key : option string
}.

Record Sender : Type := {
  sender_id : UserIds;
  sender_type : option string;
  tenant_key : option string
}.

Record Message : Type := {
  message_id : string;
  root_id : option string;
  parent_id : option string;
  chat_id : string;
  chat_type : ChatType;
  message_type : string;
  content : string;
  mentions : option (list Mention)
}.

Record FeishuMessageEvent : Type := {
  sender : Sender;
  message : Message
}.

(** [FeishuMessageContext].  [types.ts] is not among the sources; these are
    the fields [bot.ts] writes and reads.  [senderName] is read by the
    handler and written nowhere. *)
Record FeishuMessageContext : Type := {
  chatId : string;
  messageId : string;
  senderId : string;
  senderOpenId : string;
  senderName : option string;
  chatType : ChatType;
  mentionedBot : bool;
  rootId : option string;
  parentId : option string;
  ctx_content : JSON;
  ctx_contentType : string
}.

(** ** What the collaborators exchange with the pipeline *)

Record ClawdbotConfig : Type := {
  channels_feishu : option FeishuConfig;
  messages_groupChat_historyLimit : option Z
}.

Record HistoryEntry : Type := {
  entry_sender : string;
  entry_body : JSON;
  entry_timestamp : Z;
  entry_messageId : string
}.

(** [Map<string, HistoryEntry[]>] *)
Abbreviation Histories := (gmap string (list HistoryEntry)).

Record DownloadMessageResourceResult : Type := {
  dl_buffer : Buffer;
  dl_contentType : option string;
  dl_fileName : option string
}.

Record SavedMedia : Type := {
  saved_path : string;
  saved_contentType : option string
}.

Record FeishuMediaInfo : Type := {
  path : string;
  contentType : option string;
  placeholder : string
}.

Record RoutePeer : Type := { peer_kind : string; peer_id : string }.

Record ResolvedAgentRoute : Type := {
  sessionKey : string;
  accountId : string;
  agentId : string
}.

Definition EnvelopeFormatOptions : Type := string.

Record AgentEnvelope : Type := {
  env_channel : string;
  env_from : string;
  env_timestamp : Z;
  env_envelope : EnvelopeFormatOptions;
  env_body : string
}.

Record MediaPayload : Type := {
  MediaPath : option string;
  MediaType : option string;
  MediaUrl : option string;
  MediaPaths : option (list string);
  MediaUrls : option (list string);
  MediaTypes : option (list string)
}.

Record InboundContext : Type := {
  Body : string;
  RawBody : string;
  CommandBody : string;
  From : string;
  To : string;
  SessionKey : string;
  AccountId : string;
  ChatType_ : string;
  GroupSubject : option string;
  SenderName : string;
  SenderId : string;
  Provider : string;
  Surface : string;
  MessageSid : string;
  Timestamp : Z;
  WasMentioned : bool;
  CommandAuthorized : bool;
  OriginatingChannel : string;
  OriginatingTo : string;
  Media : MediaPayload
}.

Record DispatchResult : Type := { queuedFinal : bool; counts_final : Z }.

(** The handle [createFeishuReplyDispatcher] returns: what its [deliver]
    closure has captured. *)
Record ReplyDispatcher : Type := {
  disp_chatId : string;
  disp_replyToMessageId : option string;
  textChunkLimit : Z;
  chunkMode : string;
  tableMode : string
}.

Record ReplyPayload : Type := { payload_text : option string }.

(** ** The runtime and the SDK

    [getFeishuRuntime()] answers with the runtime [runtime.ts] holds; that
    file is not among the sources and the runtime is taken as installed.
    Every collaborator also receives [cfg], the same in every call of a
    run. *)
Record Host : Type := {
  DEFAULT_GROUP_HISTORY_LIMIT : Z;
  (** [Date.now()]; the clock reads the same throughout a run. *)
  Date_now : Z;
  downloadMessageResourceFeishu :
    string -> JSON -> string -> Completion DownloadMessageResourceResult;
  detectMime : Buffer -> Completion (option string);
  saveMediaBuffer :
    Buffer -> option string -> string -> Z -> option JSON -> Completion SavedMedia;
  getMessageFeishu : string -> Completion (option (option string));
  resolveAgentRoute : RoutePeer -> Completion ResolvedAgentRoute;
  enqueueSystemEvent : string -> string -> string -> Completion unit;
  resolveEnvelopeFormatOptions : Completion EnvelopeFormatOptions;
  formatAgentEnvelope : AgentEnvelope -> Completion string;
  buildPendingHistoryContextFromMap :
    Histories -> string -> Z -> string -> (HistoryEntry -> Completion string) ->
    Completion string;
  finalizeInboundContext : InboundContext -> Completion InboundContext;
  resolveTextChunkLimit : Z -> Completion Z;
  resolveChunkMode : Completion string;
  resolveMarkdownTableMode : Completion string;
  createReplyDispatcherWithTyping : string -> option string -> Completion unit;
  dispatchReplyFromConfig : InboundContext -> ReplyDispatcher -> Completion DispatchResult;
  markDispatchIdle : Completion unit;
  chunkTextWithMode : string -> Z -> string -> Completion (list string);
  convertMarkdownTables : string -> string -> Completion string;
  sendMarkdownCardFeishu : string -> string -> option string -> Completion unit;
  sendMessageFeishu : string -> string -> option string -> Completion unit
}.

(** ** The per-conversation history of the SDK *)

(** Modelled from the spec: [recordPendingHistoryEntryIfEnabled] belongs to
    the plugin SDK, which is outside the sources.  It appends; beyond the
    limit the oldest entries go first; with limit 0 it does nothing. *)
Definition recordPendingHistoryEntryIfEnabled
    (historyMap : Histories) (historyKey : string) (limit : Z) (entry : HistoryEntry)
    : Histories :=
  if limit <=? 0 then historyMap
  else
    let history := default [] (historyMap !! historyKey) ++ [entry] in
    <[historyKey := drop (length history - Z.to_nat limit) history]> historyMap.

(** Modelled from the spec: [clearHistoryEntriesIfEnabled] belongs to the
    plugin SDK, which is outside the sources.  It empties the buffer of the
    conversation; with limit 0 buffering is disabled and it does nothing. *)
Definition clearHistoryEntriesIfEnabled
    (historyMap : Histories) (historyKey : string) (limit : Z) : Histories :=
  if limit <=? 0 then historyMap
  else <[historyKey := []]> historyMap.

(** ** Effects *)

Inductive LogLine : Type :=
| LogReceived (senderOpenId chatId : string) (chatType : ChatType)
| LogNotInGroupAllowlist (senderOpenId : string)
| LogNoMentionRecording (chatId : string)
| LogNotInDmAllowlist (senderOpenId : string)
| LogPostImages (n : nat)
| LogEmbeddedImageSaved (imageKey : JSON) (path : string)
| LogEmbeddedImageFailed (imageKey : JSON) (err : JsError)
| LogMediaSaved (messageType path : string)
| LogMediaFailed (messageType : string) (err : JsError)
| LogQuotedFetched (quotedContent : option string)
| LogQuotedFailed (err : JsError)
| LogDispatching (sessionKey : string)
| LogDispatchComplete (queuedFinal : bool) (replies : Z)
| LogDeliverCalled (text : option string)
| LogDeliverEmpty
| LogDeliverCards (chunks : nat) (chatId : string)
| LogDeliverTexts (chunks : nat) (chatId : string).

Inductive HostCall : Type :=
| EnqueueSystemEvent (text sessionKey contextKey : string)
| DownloadMessageResource (messageId : string) (fileKey : JSON) (type : string)
| SaveMediaBuffer (buffer : Buffer) (contentType : option string) (maxBytes : Z)
    (fileName : option JSON)
| GetMessage (messageId : string)
| RecordPendingHistoryEntry (historyKey : string) (limit : Z) (entry : HistoryEntry)
| ClearHistoryEntries (historyKey : string) (limit : Z)
| DispatchReply (ctx : InboundContext)
| MarkDispatchIdle
| SendMarkdownCard (to text : string) (replyToMessageId : option string)
| SendMessage (to text : string) (replyToMessageId : option string).

(** [Called c ok]: the collaborator was called and returned ([ok]) or
    threw. *)
Inductive Effect : Type :=
| Log (line : LogLine)
| LogFailedToDispatch (err : JsError)
| Called (c : HostCall) (ok : bool).

(** ** The state a handler run works on, and its monad *)

Record State : Type := {
  chatHistories : option Histories;
  trace : list Effect
}.

Definition M (A : Type) : Type := State -> Completion A * State.

Definition ret {A} (a : A) : M A := fun st => (Normal a, st).

Definition bind {A B} (m : M A) (k : A -> M B) : M B :=
  fun st =>
    match m st with
    | (Normal a, st') => k a st'
    | (Throw e, st') => (Throw e, st')
    end.

Definition lift {A} (c : Completion A) : M A := fun st => (c, st).

(** [try { m } catch (err) { h err }]: what [m] did before it threw
    stays done. *)
Definition try_catch {A} (m : M A) (h : JsError -> M A) : M A :=
  fun st =>
    match m st with
    | (Normal a, st') => (Normal a, st')
    | (Throw e, st') => h e st'
    end.

Definition emit (e : Effect) : M unit :=
  fun st => (Normal tt, {| chatHistories := chatHistories st; trace := trace st ++ [e] |}).

Definition log (line : LogLine) : M unit := emit (Log line).

Definition is_normal {A} (c : Completion A) : bool :=
  match c with Normal _ => true | Throw _ => false end.

(** A call that the outside world sees. *)
Definition call {A} (c : HostCall) (r : Completion A) : M A :=
  bind (emit (Called c (is_normal r))) (fun _ => lift r).

(** The reference to the shared history map, [undefined] when the caller
    passed none. *)
Definition read_histories : M (option Histories) :=
  fun st => (Normal (chatHistories st), st).

(** A call of the SDK on the shared history map, made only when the caller
    passed a map: [if (chatHistories) { ... }].  The map is updated in
    place; these calls do not throw. *)
Definition history_call (c : HostCall) (f : Histories -> Histories) : M unit :=
  fun st =>
    match chatHistories st with
    | Some historyMap =>
        (Normal tt,
         {| chatHistories := Some (f historyMap); trace := trace st ++ [Called c true] |})
    | None => (Normal tt, st)
    end.

Notation "x <- c ;; k" := (bind c (fun x => k))
  (at level 100, c at next level, right associativity).
Notation "c ;; k" := (bind c (fun _ => k))
  (at level 100, right associativity).

(* ===================================================================== *)
(** * src/reply-dispatcher.ts                                             *)
(* ===================================================================== *)

Definition DQUOTE : string := String "034" "".
Definition FENCE : string := "```".

(** [/```[\s\S]*?```/]; a lazy star denotes what a greedy one does. *)
Definition fence_pattern : RegExp.re :=
  RegExp.Cat (RegExp.lit FENCE)
    (RegExp.Cat (RegExp.Star (RegExp.Cls RegExp.any_char)) (RegExp.lit FENCE)).

(** [/\|.+\|[\r\n]+\|[-:| ]+\|/] *)
Definition table_pattern : RegExp.re :=
  RegExp.Cat (RegExp.chr "|")
    (RegExp.Cat (RegExp.Run RegExp.dots)
       (RegExp.Cat (RegExp.chr "|")
          (RegExp.Cat (RegExp.Plus (RegExp.Cls RegExp.cr_lf))
             (RegExp.Cat (RegExp.chr "|")
                (RegExp.Cat (RegExp.Plus (RegExp.Cls RegExp.sep_char))
                   (RegExp.chr "|")))))).

Definition shouldUseCard (text : string) : bool :=
  if RegExp.test fence_pattern text then true
  else if RegExp.test table_pattern text then true
  else false.

Section ReplyDispatcher.

Context (H : Host).

(** [for (const x of xs) { await body(x) }] *)
Fixpoint for_each {A} (xs : list A) (body : A -> M unit) : M unit :=
  match xs with
  | [] => ret tt
  | x :: rest => body x;; for_each rest body
  end.

(** The construction of the dispatcher: the settings its [deliver]
    closure captures.  The typing callbacks are built by the SDK and run
    by it. *)
Definition createFeishuReplyDispatcher
    (agentId chatId : string) (replyToMessageId : option string) : M ReplyDispatcher :=
  textChunkLimit <- lift (resolveTextChunkLimit H 4000);;
  chunkMode <- lift (resolveChunkMode H);;
  tableMode <- lift (resolveMarkdownTableMode H);;
  lift (createReplyDispatcherWithTyping H chatId replyToMessageId);;
  ret {| disp_chatId := chatId;
         disp_replyToMessageId := replyToMessageId;
         textChunkLimit := textChunkLimit;
         chunkMode := chunkMode;
         tableMode := tableMode |}.

(** The [deliver] callback of the dispatcher. *)
Definition deliver (cfg : ClawdbotConfig) (d : ReplyDispatcher) (payload : ReplyPayload)
    : M unit :=
  log (LogDeliverCalled (slice0 100 <$> payload_text payload));;
  let text := default "" (payload_text payload) in
  if negb (truthy_str (trim text)) then log LogDeliverEmpty
  else
    let feishuCfg := channels_feishu cfg in
    let renderMode := default RenderAuto (feishuCfg ≫= renderMode) in
    let useCard :=
      match renderMode with
      | RenderCard => true
      | RenderAuto => shouldUseCard text
      | RenderRaw => false
      end in
    if useCard then
      chunks <- lift (chunkTextWithMode H text (textChunkLimit d) (chunkMode d));;
      log (LogDeliverCards (length chunks) (disp_chatId d));;
      for_each chunks (fun chunk =>
        call (SendMarkdownCard (disp_chatId d) chunk (disp_replyToMessageId d))
          (sendMarkdownCardFeishu H (disp_chatId d) chunk (disp_replyToMessageId d)))
    else
      converted <- lift (convertMarkdownTables H text (tableMode d));;
      chunks <- lift (chunkTextWithMode H converted (textChunkLimit d) (chunkMode d));;
      log (LogDeliverTexts (length chunks) (disp_chatId d));;
      for_each chunks (fun chunk =>
        call (SendMessage (disp_chatId d) chunk (disp_replyToMessageId d))
          (sendMessageFeishu H (disp_chatId d) chunk (disp_replyToMessageId d))).

End ReplyDispatcher.

(* ===================================================================== *)
(** * src/bot.ts                                                          *)
(* ===================================================================== *)

Record PostContent : Type := {
  textContent : string;
  imageKeys : list JSON
}.

Record MediaKeys : Type := {
  imageKey : option JSON;
  fileKey : option JSON;
  fileName : option JSON
}.

Definition rich_text_fallback : string := "[富文本消息]".

Section Bot.

Context (E : Engine) (H : Host).

(** ** Parsing *)

(** [for (const x of v)] on a truthy parsed value: an array gives its
    items, a string its characters, nothing else can be iterated. *)
Definition iterate (v : JSON) : Completion (list JSON) :=
  match v with
  | JArr items => Normal items
  | JStr s => Normal (map JStr (characters s))
  | _ => Throw TypeError
  end.

(** The body of the inner loop of [parsePostContent], on one element. *)
Definition post_element (acc : string * list JSON) (element : JSON)
    : Completion (string * list JSON) :=
  let '(textContent, imageKeys) := acc in
  let! tag := get "tag" element in
  match tag with
  | Some (JStr "text") =>
      let! text := get "text" element in
      Normal (textContent +:+ ToString E (or_val text (JStr "")), imageKeys)
  | Some (JStr "a") =>
      let! text := get "text" element in
      let! href := get "href" element in
      Normal (textContent +:+ ToString E (or_val text (or_val href (JStr ""))), imageKeys)
  | Some (JStr "at") =>
      let! user_name := get "user_name" element in
      let! user_id := get "user_id" element in
      Normal (textContent +:+ "@" +:+ ToString E (or_val user_name (or_val user_id (JStr ""))),
              imageKeys)
  | Some (JStr "img") =>
      let! image_key := get "image_key" element in
      if truthy_opt image_key
      then Normal (textContent, imageKeys ++ option_list image_key)
      else Normal acc
  | _ => Normal acc
  end.

Fixpoint post_elements (acc : string * list JSON) (elements : list JSON)
    : Completion (string * list JSON) :=
  match elements with
  | [] => Normal acc
  | element :: rest =>
      let! acc' := post_element acc element in
      post_elements acc' rest
  end.

(** The body of the outer loop, on one paragraph. *)
Definition post_paragraph (acc : string * list JSON) (paragraph : JSON)
    : Completion (string * list JSON) :=
  match paragraph with
  | JArr elements =>
      let! acc' := post_elements acc elements in
      Normal (fst acc' +:+ LF, snd acc')
  | _ => Normal acc
  end.

Fixpoint post_paragraphs (acc : string * list JSON) (paragraphs : list JSON)
    : Completion (string * list JSON) :=
  match paragraphs with
  | [] => Normal acc
  | paragraph :: rest =>
      let! acc' := post_paragraph acc paragraph in
      post_paragraphs acc' rest
  end.

Definition parsePostContent (content : string) : PostContent :=
  catchC
    (let! parsed := JSON_parse E content in
     let! title_field := get "title" parsed in
     let title := or_val title_field (JStr "") in
     let! content_field := get "content" parsed in
     let contentBlocks := or_val content_field (JArr []) in
     let textContent := if truthy title then ToString E title +:+ LF +:+ LF else "" in
     let! paragraphs := iterate contentBlocks in
     let! acc := post_paragraphs (textContent, []) paragraphs in
     Normal {| textContent := or_str (trim (fst acc)) rich_text_fallback;
               imageKeys := snd acc |})
    (fun _ => {| textContent := rich_text_fallback; imageKeys := [] |}).

Definition parseMessageContent (content messageType : string) : JSON :=
  catchC
    (let! parsed := JSON_parse E content in
     if String.eqb messageType "text" then
       let! text := get "text" parsed in
       Normal (or_val text (JStr ""))
     else if String.eqb messageType "post" then
       Normal (JStr (textContent (parsePostContent content)))
     else Normal (JStr content))
    (fun _ => JStr content).

Definition checkBotMentioned (event : FeishuMessageEvent) (botOpenId : option string)
    : bool :=
  let mentions := default [] (mentions (message event)) in
  if (length mentions =? 0)%nat then false
  else
    match botOpenId with
    | None => (0 <? length mentions)%nat
    | Some bot =>
        if negb (truthy_str bot) then (0 <? length mentions)%nat
        else existsb (fun m => bool_decide (open_id (mention_id m) = Some bot)) mentions
    end.

(** The loop of [stripBotMention]. *)
Fixpoint strip_mentions (result : string) (mentions : list Mention) : Completion string :=
  match mentions with
  | [] => Normal result
  | mention :: rest =>
      let! replaced := RegExp_replace_g E ("@" +:+ mention_name mention +:+ "\s*") result in
      let result := trim replaced in
      let! replaced := RegExp_replace_g E (mention_key mention) result in
      let result := trim replaced in
      strip_mentions result rest
  end.

(** [text] is what [parseMessageContent] returned.  On a value that is
    no string the first turn of the loop looks up [replace], builds the
    pattern of its argument, and then finds that what it looked up is no
    function; on [null] the lookup itself throws. *)
Definition stripBotMention (text : JSON) (mentions : option (list Mention))
    : Completion JSON :=
  match mentions with
  | None | Some [] => Normal text
  | Some ((mention :: _) as mentions) =>
      match text with
      | JStr s => let! result := strip_mentions s mentions in Normal (JStr result)
      | JNull => Throw TypeError
      | _ =>
          let! _ := RegExp_g E ("@" +:+ mention_name mention +:+ "\s*") in
          Throw TypeError
      end
  end.

Definition parseMediaKeys (content messageType : string) : MediaKeys :=
  let none := {| imageKey := None; fileKey := None; fileName := None |} in
  catchC
    (let! parsed := JSON_parse E content in
     if String.eqb messageType "image" then
       let! image_key := get "image_key" parsed in
       Normal {| imageKey := image_key; fileKey := None; fileName := None |}
     else if String.eqb messageType "file" then
       let! file_key := get "file_key" parsed in
       let! file_name := get "file_name" parsed in
       Normal {| imageKey := None; fileKey := file_key; fileName := file_name |}
     else if String.eqb messageType "audio" then
       let! file_key := get "file_key" parsed in
       Normal {| imageKey := None; fileKey := file_key; fileName := None |}
     else if String.eqb messageType "video" then
       (* Video has both file_key (video) and image_key (thumbnail) *)
       let! file_key := get "file_key" parsed in
       let! image_key := get "image_key" parsed in
       Normal {| imageKey := image_key; fileKey := file_key; fileName := None |}
     else if String.eqb messageType "sticker" then
       let! file_key := get "file_key" parsed in
       Normal {| imageKey := None; fileKey := file_key; fileName := None |}
     else Normal none)
    (fun _ => none).

Definition inferPlaceholder (messageType : string) : string :=
  if String.eqb messageType "image" then "<media:image>"
  else if String.eqb messageType "file" then "<media:document>"
  else if String.eqb messageType "audio" then "<media:audio>"
  else if String.eqb messageType "video" then "<media:video>"
  else if String.eqb messageType "sticker" then "<media:sticker>"
  else "<media:document>".

Definition parseFeishuMessageEvent (event : FeishuMessageEvent) (botOpenId : option string)
    : Completion FeishuMessageContext :=
  let rawContent :=
    parseMessageContent (content (message event)) (message_type (message event)) in
  let mentionedBot := checkBotMentioned event botOpenId in
  let! content := stripBotMention rawContent (mentions (message event)) in
  let ids := sender_id (sender event) in
  let nonempty (s : option string) :=
    match s with Some x => if truthy_str x then Some x else None | None => None end in
  Normal {|
    chatId := chat_id (message event);
    messageId := message_id (message event);
    senderId :=
      match nonempty (user_id ids) with
      | Some u => u
      | None => or_undef (open_id ids) ""
      end;
    senderOpenId := or_undef (open_id ids) "";
    senderName := None;
    chatType := chat_type (message event);
    mentionedBot := mentionedBot;
    rootId := nonempty (root_id (message event));
    parentId := nonempty (parent_id (message event));
    ctx_content := content;
    ctx_contentType := message_type (message event)
  |}.

(** ** Media *)

(** One turn of the loop over the embedded images of a post. *)
Definition resolve_embedded_image
    (messageId : string) (maxBytes : Z) (out : list FeishuMediaInfo) (imageKey : JSON)
    : M (list FeishuMediaInfo) :=
  try_catch
    (result <- call (DownloadMessageResource messageId imageKey "image")
                 (downloadMessageResourceFeishu H messageId imageKey "image");;
     contentType <-
       (if truthy_str (default "" (dl_contentType result)) then ret (dl_contentType result)
        else lift (detectMime H (dl_buffer result)));;
     saved <- call (SaveMediaBuffer (dl_buffer result) contentType maxBytes None)
                (saveMediaBuffer H (dl_buffer result) contentType "inbound" maxBytes None);;
     log (LogEmbeddedImageSaved imageKey (saved_path saved));;
     ret (out ++ [{| path := saved_path saved;
                     contentType := saved_contentType saved;
                     placeholder := "<media:image>" |}]))
    (fun err => log (LogEmbeddedImageFailed imageKey err);; ret out).

Fixpoint resolve_embedded_images
    (messageId : string) (maxBytes : Z) (out : list FeishuMediaInfo) (imageKeys : list JSON)
    : M (list FeishuMediaInfo) :=
  match imageKeys with
  | [] => ret out
  | imageKey :: rest =>
      out' <- resolve_embedded_image messageId maxBytes out imageKey;;
      resolve_embedded_images messageId maxBytes out' rest
  end.

Definition mediaTypes : list string :=
  ["image"; "file"; "audio"; "video"; "sticker"; "post"].

Definition resolveFeishuMediaList
    (messageId messageType content : string) (maxBytes : Z) : M (list FeishuMediaInfo) :=
  if negb (includes mediaTypes messageType) then ret []
  else if String.eqb messageType "post" then
    let imageKeys := imageKeys (parsePostContent content) in
    if (length imageKeys =? 0)%nat then ret []
    else
      log (LogPostImages (length imageKeys));;
      resolve_embedded_images messageId maxBytes [] imageKeys
  else
    let mediaKeys := parseMediaKeys content messageType in
    if negb (truthy_opt (imageKey mediaKeys)) && negb (truthy_opt (fileKey mediaKeys))
    then ret []
    else
      try_catch
        (let fileKey :=
           if truthy_opt (imageKey mediaKeys) then imageKey mediaKeys
           else fileKey mediaKeys in
         match fileKey with
         | None => ret []
         | Some fileKey =>
             if negb (truthy fileKey) then ret []
             else
               let resourceType := if String.eqb messageType "image" then "image" else "file" in
               result <- call (DownloadMessageResource messageId fileKey resourceType)
                           (downloadMessageResourceFeishu H messageId fileKey resourceType);;
               let fileName :=
                 if truthy_str (default "" (dl_fileName result))
                 then JStr <$> dl_fileName result
                 else fileName mediaKeys in
               contentType <-
                 (if truthy_str (default "" (dl_contentType result))
                  then ret (dl_contentType result)
                  else lift (detectMime H (dl_buffer result)));;
               saved <- call (SaveMediaBuffer (dl_buffer result) contentType maxBytes fileName)
                          (saveMediaBuffer H (dl_buffer result) contentType "inbound"
                             maxBytes fileName);;
               log (LogMediaSaved messageType (saved_path saved));;
               ret [{| path := saved_path saved;
                       contentType := saved_contentType saved;
                       placeholder := inferPlaceholder messageType |}]
         end)
        (fun err => log (LogMediaFailed messageType err);; ret []).

Definition buildFeishuMediaPayload (mediaList : list FeishuMediaInfo) : MediaPayload :=
  let first := head mediaList in
  let mediaPaths := map path mediaList in
  let mediaTypes :=
    omap (fun media =>
            match contentType media with
            | Some t => if truthy_str t then Some t else None
            | None => None
            end) mediaList in
  {| MediaPath := path <$> first;
     MediaType := first ≫= contentType;
     MediaUrl := path <$> first;
     MediaPaths := if (0 <? length mediaPaths)%nat then Some mediaPaths else None;
     MediaUrls := if (0 <? length mediaPaths)%nat then Some mediaPaths else None;
     MediaTypes := if (0 <? length mediaTypes)%nat then Some mediaTypes else None |}.

(** ** The handler *)

(** Lines 449-571 of the handler: the [try] block up to the call of the
    agent. *)
Definition handleFeishuMessage_prepare
    (cfg : ClawdbotConfig) (event : FeishuMessageEvent) (ctx : FeishuMessageContext)
    (historyLimit : Z) : M (InboundContext * ReplyDispatcher) :=
  let feishuCfg := channels_feishu cfg in
  let isGroup := bool_decide (chatType ctx = Group) in
  let feishuFrom := "feishu:" +:+ senderOpenId ctx in
  let feishuTo :=
    if isGroup then "chat:" +:+ chatId ctx else "user:" +:+ senderOpenId ctx in
  route <- lift (resolveAgentRoute H
                   {| peer_kind := if isGroup then "group" else "dm";
                      peer_id := if isGroup then chatId ctx else senderOpenId ctx |});;
  text <- lift (match ctx_content ctx with
                | JStr s => Normal s
                | _ => Throw TypeError
                end);;
  let preview := slice0 160 (collapse_ws text) in
  let inboundLabel :=
    if isGroup then "Feishu message in group " +:+ chatId ctx
    else "Feishu DM from " +:+ senderOpenId ctx in
  let systemText := inboundLabel +:+ ": " +:+ preview in
  let contextKey := "feishu:message:" +:+ chatId ctx +:+ ":" +:+ messageId ctx in
  call (EnqueueSystemEvent systemText (sessionKey route) contextKey)
    (enqueueSystemEvent H systemText (sessionKey route) contextKey);;
  let mediaMaxBytes := default 30 (feishuCfg ≫= mediaMaxMb) * 1024 * 1024 in
  mediaList <- resolveFeishuMediaList (messageId ctx) (message_type (message event))
                 (content (message event)) mediaMaxBytes;;
  let mediaPayload := buildFeishuMediaPayload mediaList in
  quotedContent <-
    match parentId ctx with
    | Some parentId =>
        try_catch
          (quotedMsg <- call (GetMessage parentId) (getMessageFeishu H parentId);;
           match quotedMsg with
           | Some quotedContent =>
               log (LogQuotedFetched (slice0 100 <$> quotedContent));;
               ret quotedContent
           | None => ret None
           end)
          (fun err => log (LogQuotedFailed err);; ret None)
    | None => ret None
    end;;
  envelopeOptions <- lift (resolveEnvelopeFormatOptions H);;
  let messageBody :=
    match quotedContent with
    | Some q =>
        if truthy_str q
        then "[Replying to: " +:+ DQUOTE +:+ q +:+ DQUOTE +:+ "]" +:+ LF +:+ LF +:+ text
        else text
    | None => text
    end in
  let envelopeFrom :=
    if isGroup then chatId ctx +:+ ":" +:+ senderOpenId ctx else senderOpenId ctx in
  body <- lift (formatAgentEnvelope H
                  {| env_channel := "Feishu";
                     env_from := envelopeFrom;
                     env_timestamp := Date_now H;
                     env_envelope := envelopeOptions;
                     env_body := messageBody |});;
  chatHistories <- read_histories;;
  combinedBody <-
    match chatHistories with
    | Some historyMap =>
        if isGroup && truthy_str (chatId ctx) then
          lift (buildPendingHistoryContextFromMap H historyMap (chatId ctx) historyLimit body
                  (fun entry =>
                     formatAgentEnvelope H
                       {| env_channel := "Feishu";
                          env_from := chatId ctx +:+ ":" +:+ entry_sender entry;
                          env_timestamp := entry_timestamp entry;
                          env_envelope := envelopeOptions;
                          env_body :=
                            entry_sender entry +:+ ": " +:+ ToString E (entry_body entry) |}))
        else ret body
    | None => ret body
    end;;
  ctxPayload <- lift (finalizeInboundContext H
                        {| Body := combinedBody;
                           RawBody := text;
                           CommandBody := text;
                           From := feishuFrom;
                           To := feishuTo;
                           SessionKey := sessionKey route;
                           AccountId := accountId route;
                           ChatType_ := if isGroup then "group" else "direct";
                           GroupSubject := if isGroup then Some (chatId ctx) else None;
                           SenderName := default (senderOpenId ctx) (senderName ctx);
                           SenderId := senderOpenId ctx;
                           Provider := "feishu";
                           Surface := "feishu";
                           MessageSid := messageId ctx;
                           Timestamp := Date_now H;
                           WasMentioned := mentionedBot ctx;
                           CommandAuthorized := true;
                           OriginatingChannel := "feishu";
                           OriginatingTo := feishuTo;
                           Media := mediaPayload |});;
  dispatcher <- createFeishuReplyDispatcher H (agentId route) (chatId ctx)
                  (Some (messageId ctx));;
  log (LogDispatching (sessionKey route));;
  ret (ctxPayload, dispatcher).

(** The body of the [try] block of the handler. *)
Definition handleFeishuMessage_try
    (cfg : ClawdbotConfig) (event : FeishuMessageEvent) (ctx : FeishuMessageContext)
    (historyLimit : Z) : M unit :=
  let isGroup := bool_decide (chatType ctx = Group) in
  prepared <- handleFeishuMessage_prepare cfg event ctx historyLimit;;
  let '(ctxPayload, dispatcher) := prepared in
  result <- call (DispatchReply ctxPayload)
              (dispatchReplyFromConfig H ctxPayload dispatcher);;
  call MarkDispatchIdle (markDispatchIdle H);;
  (if isGroup && truthy_str (chatId ctx)
   then history_call (ClearHistoryEntries (chatId ctx) historyLimit)
          (fun historyMap =>
             clearHistoryEntriesIfEnabled historyMap (chatId ctx) historyLimit)
   else ret tt);;
  log (LogDispatchComplete (queuedFinal result) (counts_final result)).

(** [historyLimit], as the handler resolves it. *)
Definition resolve_historyLimit (cfg : ClawdbotConfig) : Z :=
  Z.max 0
    (default
       (default (DEFAULT_GROUP_HISTORY_LIMIT H) (messages_groupChat_historyLimit cfg))
       (channels_feishu cfg ≫= historyLimit)).

Definition handleFeishuMessage
    (cfg : ClawdbotConfig) (event : FeishuMessageEvent) (botOpenId : option string)
    : M unit :=
  let feishuCfg := channels_feishu cfg in
  ctx <- lift (parseFeishuMessageEvent event botOpenId);;
  let isGroup := bool_decide (chatType ctx = Group) in
  log (LogReceived (senderOpenId ctx) (chatId ctx) (chatType ctx));;
  let historyLimit := resolve_historyLimit cfg in
  let dispatch :=
    try_catch (handleFeishuMessage_try cfg event ctx historyLimit)
      (fun err => emit (LogFailedToDispatch err)) in
  if isGroup then
    let groupPolicy := default GroupOpen (feishuCfg ≫= groupPolicy) in
    let groupAllowFrom := default [] (feishuCfg ≫= groupAllowFrom) in
    let groupConfig := resolveFeishuGroupConfig E feishuCfg (Some (chatId ctx)) in
    let senderAllowFrom := default groupAllowFrom (groupConfig ≫= group_allowFrom) in
    let allowed :=
      isFeishuGroupAllowed E groupPolicy senderAllowFrom (senderOpenId ctx) (senderName ctx) in
    if negb allowed then log (LogNotInGroupAllowlist (senderOpenId ctx))
    else
      let requireMention := resolveFeishuReplyPolicy false feishuCfg groupConfig in
      if requireMention && negb (mentionedBot ctx) then
        log (LogNoMentionRecording (chatId ctx));;
        let entry :=
          {| entry_sender := senderOpenId ctx;
             entry_body := ctx_content ctx;
             entry_timestamp := Date_now H;
             entry_messageId := messageId ctx |} in
        history_call (RecordPendingHistoryEntry (chatId ctx) historyLimit entry)
          (fun historyMap =>
             recordPendingHistoryEntryIfEnabled historyMap (chatId ctx) historyLimit entry)
      else dispatch
  else
    let dmPolicy := default DmPairing (feishuCfg ≫= dmPolicy) in
    let allowFrom := default [] (feishuCfg ≫= allowFrom) in
    if bool_decide (dmPolicy = DmAllowlist)
       && negb (allowed (resolveFeishuAllowlistMatch E allowFrom (senderOpenId ctx) None))
    then log (LogNotInDmAllowlist (senderOpenId ctx))
    else dispatch.

End Bot.

(* ===================================================================== *)
(** * src/typing.ts and the typing callbacks of src/reply-dispatcher.ts   *)
(* ===================================================================== *)

Module Typing.

Definition TYPING_EMOJI : string := "Typing".

(** [TypingIndicatorState]; a [reactionId] of [null] is [None]. *)
Record TypingIndicatorState : Type := {
  typing_messageId : string;
  reactionId : option JSON
}.

(** The platform client: [createFeishuClient] of [client.ts] and the two
    reaction calls of the platform SDK behind it, none of them among the
    sources.  A response is a parsed value, or [undefined]. *)
Record Client : Type := {
  createFeishuClient : FeishuConfig -> Completion unit;
  (** [client.im.messageReaction.create], by message id and emoji type *)
  messageReaction_create : string -> string -> Completion (option JSON);
  (** [client.im.messageReaction.delete], by message id and reaction id *)
  messageReaction_delete : string -> JSON -> Completion unit
}.

(** What the typing indicator tells the outside world: the two calls, with
    their outcome, the lines on the console and the lines of the runtime
    log. *)
Inductive TypingEffect : Type :=
| ReactionCreate (messageId emojiType : string) (ok : bool)
| ReactionDelete (messageId : string) (reactionId : JSON) (ok : bool)
| ConsoleFailedToAdd (err : JsError)
| ConsoleFailedToRemove (err : JsError)
| RuntimeAddedReaction
| RuntimeRemovedReaction.

(** [v?.name] on a response. *)
Definition optional_get (name : string) (v : option JSON) : option JSON :=
  match v with
  | Some (JObj fields) => assoc name fields
  | _ => None
  end.

(** [v ?? null], with [None] for [null]. *)
Definition or_null (v : option JSON) : option JSON :=
  match v with
  | Some JNull => None
  | _ => v
  end.

Section WithClient.

Context (C : Client).

Definition addTypingIndicator (cfg : ClawdbotConfig) (messageId : string)
    : Completion TypingIndicatorState * list TypingEffect :=
  match channels_feishu cfg with
  | None => (Normal {| typing_messageId := messageId; reactionId := None |}, [])
  | Some feishuCfg =>
      match createFeishuClient C feishuCfg with
      | Throw err => (Throw err, [])
      | Normal _ =>
          match messageReaction_create C messageId TYPING_EMOJI with
          | Normal response =>
              let reactionId :=
                or_null (optional_get "reaction_id" (optional_get "data" response)) in
              (Normal {| typing_messageId := messageId; reactionId := reactionId |},
               [ReactionCreate messageId TYPING_EMOJI true])
          | Throw err =>
              (Normal {| typing_messageId := messageId; reactionId := None |},
               [ReactionCreate messageId TYPING_EMOJI false; ConsoleFailedToAdd err])
          end
      end
  end.

Definition removeTypingIndicator (cfg : ClawdbotConfig) (state : TypingIndicatorState)
    : Completion unit * list TypingEffect :=
  match reactionId state with
  | None => (Normal tt, [])
  | Some reaction =>
      if negb (truthy reaction) then (Normal tt, [])
      else
        match channels_feishu cfg with
        | None => (Normal tt, [])
        | Some feishuCfg =>
            match createFeishuClient C feishuCfg with
            | Throw err => (Throw err, [])
            | Normal _ =>
                match messageReaction_delete C (typing_messageId state) reaction with
                | Normal _ =>
                    (Normal tt, [ReactionDelete (typing_messageId state) reaction true])
                | Throw err =>
                    (Normal tt, [ReactionDelete (typing_messageId state) reaction false;
                                 ConsoleFailedToRemove err])
                end
            end
        end
  end.

(** The two callbacks [createFeishuReplyDispatcher] hands to
    [createTypingCallbacks].  They share the variable [typingState]; a
    callback returns its outcome, the value of the variable when it ends
    and what it told. *)
Definition start (cfg : ClawdbotConfig) (replyToMessageId : option string)
    (typingState : option TypingIndicatorState)
    : Completion unit * option TypingIndicatorState * list TypingEffect :=
  match replyToMessageId with
  | None => (Normal tt, typingState, [])
  | Some messageId =>
      if negb (truthy_str messageId) then (Normal tt, typingState, [])
      else
        match addTypingIndicator cfg messageId with
        | (Normal state, told) => (Normal tt, Some state, told ++ [RuntimeAddedReaction])
        | (Throw err, told) => (Throw err, typingState, told)
        end
  end.

Definition stop (cfg : ClawdbotConfig) (typingState : option TypingIndicatorState)
    : Completion unit * option TypingIndicatorState * list TypingEffect :=
  match typingState with
  | None => (Normal tt, None, [])
  | Some state =>
      match removeTypingIndicator cfg state with
      | (Normal _, told) => (Normal tt, None, told ++ [RuntimeRemovedReaction])
      | (Throw err, told) => (Throw err, Some state, told)
      end
  end.

End WithClient.

End Typing.

(* ===================================================================== *)
(** * src/directory.ts                                                    *)
(* ===================================================================== *)

Module Directory.

Record FeishuDirectoryGroup : Type := {
  kind : string;
  id : string;
  name : option string
}.

(** [ids.add(x)] on a [Set], listed in insertion order. *)
Definition add (ids : list string) (x : string) : list string :=
  if bool_decide (x ∈ ids) then ids else ids ++ [x].

(** One of the two loops that fill [ids]: each candidate is trimmed and
    kept unless it is empty or the wildcard. *)
Definition collect (ids : list string) (candidates : list string) : list string :=
  fold_left
    (fun ids candidate =>
       let trimmed := trim candidate in
       if truthy_str trimmed && negb (String.eqb trimmed "*") then add ids trimmed else ids)
    candidates ids.

Definition listFeishuDirectoryGroups
    (E : Engine) (cfg : ClawdbotConfig) (query : option string) (limit : option Z)
    : list FeishuDirectoryGroup :=
  let feishuCfg := channels_feishu cfg in
  let q := or_undef (toLowerCase E <$> (trim <$> query)) "" in
  let ids := collect [] (map fst (default [] (feishuCfg ≫= groups))) in
  let ids := collect ids (map (String_ E) (default [] (feishuCfg ≫= groupAllowFrom))) in
  let listed := List.filter truthy_str (map trim ids) in
  let matching :=
    List.filter (fun id => if truthy_str q then str_includes q (toLowerCase E id) else true)
      listed in
  let sliced :=
    match limit with
    | Some n => if negb (n =? 0) && (0 <? n) then take (Z.to_nat n) matching else matching
    | None => matching
    end in
  map (fun id => {| kind := "group"; id := id; name := None |}) sliced.

End Directory.

(* ===================================================================== *)
(** * src/channel.ts: allow-list entries and the security warnings        *)
(* ===================================================================== *)

Module Channel.

(** [s] without the prefix [p], compared without regard to case, when it
    has that prefix. *)
Fixpoint strip_prefix_ci (p s : string) : option string :=
  match p, s with
  | EmptyString, _ => Some s
  | String a p', String b s' =>
      if Ascii.eqb (lower_ascii a) (lower_ascii b) then strip_prefix_ci p' s' else None
  | String _ _, EmptyString => None
  end.

(** [pairing.normalizeAllowEntry]:
    [entry.replace(/^(feishu|user|open_id):/i, "")]. *)
Definition normalizeAllowEntry (entry : string) : string :=
  match strip_prefix_ci "feishu:" entry with
  | Some rest => rest
  | None =>
      match strip_prefix_ci "user:" entry with
      | Some rest => rest
      | None =>
          match strip_prefix_ci "open_id:" entry with
          | Some rest => rest
          | None => entry
          end
      end
  end.

(** [config.formatAllowFrom] *)
Definition formatAllowFrom (E : Engine) (allowFrom : list AllowEntry) : list string :=
  map (toLowerCase E)
    (List.filter truthy_str (map (fun entry => trim (String_ E entry)) allowFrom)).

(** The name of a group policy in the configuration. *)
Definition policy_name (policy : GroupPolicy) : string :=
  match policy with
  | GroupOpen => "open"
  | GroupAllowlist => "allowlist"
  | GroupDisabled => "disabled"
  end.

Definition open_groups_warning : string :=
  "- Feishu groups: groupPolicy=" +:+ DQUOTE +:+ "open" +:+ DQUOTE
  +:+ " allows any member to trigger (mention-gated). Set channels.feishu.groupPolicy="
  +:+ DQUOTE +:+ "allowlist" +:+ DQUOTE
  +:+ " + channels.feishu.groupAllowFrom to restrict senders.".

(** [security.collectWarnings].  [defaultGroupPolicy] is
    [cfg.channels.defaults.groupPolicy], which [ClawdbotConfig] does not
    carry: it is passed beside [cfg]. *)
Definition collectWarnings (cfg : ClawdbotConfig) (defaultGroupPolicy : option string)
    : list string :=
  let feishuCfg := channels_feishu cfg in
  let groupPolicy :=
    match feishuCfg ≫= groupPolicy with
    | Some policy => policy_name policy
    | None => default "allowlist" defaultGroupPolicy
    end in
  if negb (String.eqb groupPolicy "open") then []
  else [open_groups_warning].

End Channel.

(* ===================================================================== *)
(** * src/accounts.ts                                                     *)
(* ===================================================================== *)

Module Accounts.

(** [FeishuConfig]: the fields [accounts.ts] reads. *)
Record FeishuConfig : Type := {
  enabled : option bool;
  appId : option string;
  appSecret : option string;
  encryptKey : option string;
  verificationToken : option string;
  domain : option string
}.

(** [OpenclawConfig], as far as [accounts.ts] reads it:
    [cfg.channels?.feishu]. *)
Record OpenclawConfig : Type := {
  channels_feishu : option FeishuConfig
}.

Record FeishuCredentials : Type := {
  cred_appId : string;
  cred_appSecret : string;
  cred_encryptKey : option string;
  cred_verificationToken : option string;
  cred_domain : string
}.

Record ResolvedFeishuAccount : Type := {
  accountId : string;
  account_enabled : bool;
  configured : bool;
  account_appId : option string;
  account_domain : string
}.

(** [s?.trim() || undefined] *)
Definition trimmed (s : option string) : option string :=
  match s with
  | Some x => if truthy_str (trim x) then Some (trim x) else None
  | None => None
  end.

Definition resolveFeishuCredentials (cfg : option FeishuConfig) : option FeishuCredentials :=
  let appId := trim <$> (cfg ≫= appId) in
  let appSecret := trim <$> (cfg ≫= appSecret) in
  match appId, appSecret with
  | Some appId, Some appSecret =>
      if negb (truthy_str appId) || negb (truthy_str appSecret) then None
      else
        Some {| cred_appId := appId;
                cred_appSecret := appSecret;
                cred_encryptKey := trimmed (cfg ≫= encryptKey);
                cred_verificationToken := trimmed (cfg ≫= verificationToken);
                cred_domain := default "feishu" (cfg ≫= domain) |}
  | _, _ => None
  end.

Section WithSdk.

(** [DEFAULT_ACCOUNT_ID] of the plugin SDK. *)
Context (DEFAULT_ACCOUNT_ID : string).

Definition resolveFeishuAccount (cfg : OpenclawConfig) (accountId : option string)
    : ResolvedFeishuAccount :=
  let feishuCfg := channels_feishu cfg in
  let enabled := negb (bool_decide (feishuCfg ≫= enabled = Some false)) in
  let creds := resolveFeishuCredentials feishuCfg in
  {| accountId := default DEFAULT_ACCOUNT_ID (trimmed accountId);
     account_enabled := enabled;
     configured := bool_decide (is_Some creds);
     account_appId := cred_appId <$> creds;
     account_domain := default "feishu" (cred_domain <$> creds) |}.

Definition listFeishuAccountIds (_cfg : OpenclawConfig) : list string :=
  [DEFAULT_ACCOUNT_ID].

Definition resolveDefaultFeishuAccountId (_cfg : OpenclawConfig) : string :=
  DEFAULT_ACCOUNT_ID.

Definition listEnabledFeishuAccounts (cfg : OpenclawConfig) : list ResolvedFeishuAccount :=
  List.filter (fun account => account_enabled account && configured account)
    (map (fun accountId => resolveFeishuAccount cfg (Some accountId))
       (listFeishuAccountIds cfg)).

End WithSdk.

End Accounts.

(* ===================================================================== *)
(** * src/monitor.ts: the callback of inbound messages                    *)
(* ===================================================================== *)

Module Monitor.

(** What [monitorWebSocket] keeps between events: the history map it
    created, with the trace of the handler, and the errors its callback
    reported through [runtime.error]. *)
Record MonitorState : Type := {
  handler_state : State;
  reported : list JsError
}.

(** [const chatHistories = new Map()], before the first event. *)
Definition started : MonitorState :=
  {| handler_state := {| chatHistories := Some ∅; trace := [] |}; reported := [] |}.

Section WithHost.

Context (E : Engine) (H : Host).

(** The callback registered for [im.message.receive_v1]. *)
Definition receive_v1 (cfg : ClawdbotConfig) (botOpenId : option string)
    (event : FeishuMessageEvent) (ms : MonitorState) : MonitorState :=
  match handleFeishuMessage E H cfg event botOpenId (handler_state ms) with
  | (Normal _, st) => {| handler_state := st; reported := reported ms |}
  | (Throw err, st) => {| handler_state := st; reported := reported ms ++ [err] |}
  end.

(** The events of a connection, one after the other. *)
Definition receive_all (cfg : ClawdbotConfig) (botOpenId : option string)
    (events : list FeishuMessageEvent) (ms : MonitorState) : MonitorState :=
  fold_left (fun ms event => receive_v1 cfg botOpenId event ms) events ms.

End WithHost.

End Monitor.

(* ===================================================================== *)
(** * A concrete engine, host and inputs                                  *)
(* ===================================================================== *)

Module Sample.

(** ** An engine for patterns without operators

    Exact on every source made of literal characters, optionally followed
    by [\s*]; every other source is refused. *)

Definition is_meta (c : ascii) : bool :=
  existsb (Ascii.eqb c) (list_ascii_of_string "\^$.|?*+()[]{}").

Fixpoint literal (s : string) : bool :=
  match s with
  | EmptyString => true
  | String c r => negb (is_meta c) && literal r
  end.

(** [source] without a trailing [\s*], when it has one. *)
Fixpoint drop_ws_suffix (source : string) : option string :=
  match source with
  | EmptyString => None
  | String c r =>
      if String.eqb source "\s*" then Some ""
      else String c <$> drop_ws_suffix r
  end.

(** Left to right, every match of [p] (and of the white space after it
    when [ws]) is dropped; the scan resumes after the match. *)
Fixpoint remove_all (fuel : nat) (p : string) (ws : bool) (s : string) : string :=
  match fuel, s with
  | S fuel', String c r =>
      match strip_prefix p s with
      | Some rest => remove_all fuel' p ws (if ws then trimStart rest else rest)
      | None => String c (remove_all fuel' p ws r)
      end
  | _, _ => s
  end.

Definition literal_g (source : string) : Completion (string -> string) :=
  let '(p, ws) :=
    match drop_ws_suffix source with
    | Some p => (p, true)
    | None => (source, false)
    end in
  if negb (literal p) then Throw SyntaxError
  else if is_empty p then (if ws then Throw SyntaxError else Normal (fun subject => subject))
  else Normal (fun subject => remove_all (String.length subject) p ws subject).

(** ** JSON text *)

Definition quoted (s : string) : string := DQUOTE +:+ s +:+ DQUOTE.

(** [JSON.stringify] on strings without characters to escape. *)
Fixpoint stringify (v : JSON) : string :=
  match v with
  | JNull => "null"
  | JBool true => "true"
  | JBool false => "false"
  | JNum z => decimal z
  | JStr s => quoted s
  | JArr items => "[" +:+ String.concat "," (map stringify items) +:+ "]"
  | JObj fields =>
      "{" +:+ String.concat ","
                (map (fun kv => quoted (fst kv) +:+ ":" +:+ stringify (snd kv)) fields)
          +:+ "}"
  end.

(** [JSON.parse] on the texts of a finite set of documents. *)
Definition parse_known (known : list JSON) (text : string) : Completion JSON :=
  match List.find (fun doc => String.eqb (stringify doc) text) known with
  | Some doc => Normal doc
  | None => Throw SyntaxError
  end.

Definition img (key : string) : JSON :=
  JObj [("tag", JStr "img"); ("image_key", JStr key)].

Definition post_two_images : JSON :=
  JObj [("title", JStr "Report");
        ("content", JArr [JArr [JObj [("tag", JStr "text"); ("text", JStr "see")];
                                img "img_a"; img "img_b"]])].

Definition video_with_thumbnail : JSON :=
  JObj [("file_key", JStr "file_v2_video"); ("image_key", JStr "img_v2_thumb")].

Definition text_hello : JSON := JObj [("text", JStr "hello team")].

(** Beyond ASCII and beyond the safe integers this engine answers like
    within them. *)
Definition engine : Engine :=
  {| JSON_parse := parse_known [post_two_images; video_with_thumbnail; text_hello];
     RegExp_g := literal_g;
     fold_case := lower_letters;
     print_number := decimal |}.

(** ** A host whose collaborators answer, except that the download of
    [img_b] fails *)

Definition host : Host :=
  {| DEFAULT_GROUP_HISTORY_LIMIT := 50;
     Date_now := 1700000000000;
     downloadMessageResourceFeishu := fun messageId fileKey type =>
       if bool_decide (ToString engine fileKey = "img_b") then Throw (HostError "download")
       else Normal {| dl_buffer := "bytes of " +:+ ToString engine fileKey;
                      dl_contentType := None;
                      dl_fileName := None |};
     detectMime := fun _ => Normal (Some "image/png");
     saveMediaBuffer := fun buffer contentType direction maxBytes fileName =>
       Normal {| saved_path := "/media/" +:+ buffer; saved_contentType := contentType |};
     getMessageFeishu := fun _ => Normal None;
     resolveAgentRoute := fun peer =>
       Normal {| sessionKey := "session:" +:+ peer_id peer;
                 accountId := "default";
                 agentId := "main" |};
     enqueueSystemEvent := fun _ _ _ => Normal tt;
     resolveEnvelopeFormatOptions := Normal "plain";
     formatAgentEnvelope := fun e => Normal ("[" +:+ env_from e +:+ "] " +:+ env_body e);
     buildPendingHistoryContextFromMap := fun historyMap historyKey limit current formatEntry =>
       Normal current;
     finalizeInboundContext := fun ctx => Normal ctx;
     resolveTextChunkLimit := fun d => Normal d;
     resolveChunkMode := Normal "length";
     resolveMarkdownTableMode := Normal "code";
     createReplyDispatcherWithTyping := fun _ _ => Normal tt;
     dispatchReplyFromConfig := fun _ _ => Normal {| queuedFinal := true; counts_final := 1 |};
     markDispatchIdle := Normal tt;
     chunkTextWithMode := fun text _ _ => Normal [text];
     convertMarkdownTables := fun text _ => Normal ("converted:" +:+ text);
     sendMarkdownCardFeishu := fun _ _ _ => Normal tt;
     sendMessageFeishu := fun _ _ _ => Normal tt |}.

(** The same host with an agent dispatch that fails. *)
Definition host_dispatch_fails : Host :=
  {| DEFAULT_GROUP_HISTORY_LIMIT := DEFAULT_GROUP_HISTORY_LIMIT host;
     Date_now := Date_now host;
     downloadMessageResourceFeishu := downloadMessageResourceFeishu host;
     detectMime := detectMime host;
     saveMediaBuffer := saveMediaBuffer host;
     getMessageFeishu := getMessageFeishu host;
     resolveAgentRoute := resolveAgentRoute host;
     enqueueSystemEvent := enqueueSystemEvent host;
     resolveEnvelopeFormatOptions := resolveEnvelopeFormatOptions host;
     formatAgentEnvelope := formatAgentEnvelope host;
     buildPendingHistoryContextFromMap := buildPendingHistoryContextFromMap host;
     finalizeInboundContext := finalizeInboundContext host;
     resolveTextChunkLimit := resolveTextChunkLimit host;
     resolveChunkMode := resolveChunkMode host;
     resolveMarkdownTableMode := resolveMarkdownTableMode host;
     createReplyDispatcherWithTyping := createReplyDispatcherWithTyping host;
     dispatchReplyFromConfig := fun _ _ => Throw (HostError "agent");
     markDispatchIdle := markDispatchIdle host;
     chunkTextWithMode := chunkTextWithMode host;
     convertMarkdownTables := convertMarkdownTables host;
     sendMarkdownCardFeishu := sendMarkdownCardFeishu host;
     sendMessageFeishu := sendMessageFeishu host |}.

(** ** Configurations and events *)

Definition feishu_config (policy : GroupPolicy) (allow : list AllowEntry)
    (limit : option Z) : FeishuConfig :=
  {| dmPolicy := None;
     allowFrom := None;
     groupPolicy := Some policy;
     groupAllowFrom := Some allow;
     groups := None;
     requireMention := None;
     historyLimit := limit;
     mediaMaxMb := None;
     renderMode := None |}.

(** A configuration of the channel with groups and nothing else. *)
Definition with_groups (configured : list (string * FeishuGroupConfig)) : FeishuConfig :=
  {| dmPolicy := None; allowFrom := None; groupPolicy := None; groupAllowFrom := None;
     groups := Some configured; requireMention := None; historyLimit := None;
     mediaMaxMb := None; renderMode := None |}.

Definition config (policy : GroupPolicy) (allow : list AllowEntry) (limit : option Z)
    : ClawdbotConfig :=
  {| channels_feishu := Some (feishu_config policy allow limit);
     messages_groupChat_historyLimit := None |}.

Definition config_render (mode : option RenderMode) : ClawdbotConfig :=
  {| channels_feishu :=
       Some {| dmPolicy := None; allowFrom := None; groupPolicy := None;
               groupAllowFrom := None; groups := None; requireMention := None;
               historyLimit := None; mediaMaxMb := None; renderMode := mode |};
     messages_groupChat_historyLimit := None |}.


Definition user (openId : string) : UserIds :=
  {| open_id := Some openId; user_id := None; union_id := None |}.

Definition mention (key openId name : string) : Mention :=
  {| mention_key := key; mention_id := user openId; mention_name := name;
     mention_tenant_key := None |}.

Definition group_event (messageType : string) (doc : JSON) (ms : option (list Mention))
    : FeishuMessageEvent :=
  {| sender := {| sender_id := user "ou_alice"; sender_type := Some "user";
                  tenant_key := None |};
     message := {| message_id := "om_1"; root_id := None; parent_id := None;
                   chat_id := "oc_team"; chat_type := Group;
                   message_type := messageType; content := stringify doc;
                   mentions := ms |} |}.

(** The context of a text message without mentions. *)
Definition hello_ctx : FeishuMessageContext :=
  {| chatId := "oc_team"; messageId := "om_1"; senderId := "ou_alice";
     senderOpenId := "ou_alice"; senderName := None; chatType := Group;
     mentionedBot := false; rootId := None; parentId := None;
     ctx_content := JStr "hello team"; ctx_contentType := "text" |}.

(** The context of the same message when it mentions the bot. *)
Definition mentioned_ctx : FeishuMessageContext :=
  {| chatId := "oc_team"; messageId := "om_1"; senderId := "ou_alice";
     senderOpenId := "ou_alice"; senderName := None; chatType := Group;
     mentionedBot := true; rootId := None; parentId := None;
     ctx_content := JStr "hello team"; ctx_contentType := "text" |}.

Definition initial (h : option Histories) : State :=
  {| chatHistories := h; trace := [] |}.

Definition dispatcher : ReplyDispatcher :=
  {| disp_chatId := "oc_team"; disp_replyToMessageId := Some "om_1";
     textChunkLimit := 4000; chunkMode := "length"; tableMode := "code" |}.

End Sample.

(* ===================================================================== *)
(** * The vocabulary of the properties                                    *)
(* ===================================================================== *)

(** A string made of white-space characters only. *)
Inductive blank : string -> Prop :=
| blank_empty : blank ""
| blank_more t s : t ∈ white_space -> blank s -> blank (t +:+ s).

(** Three white-space characters beyond ASCII: the no-break space, the
    line separator and the ideographic space. *)
Definition NBSP : string := utf8 0xA0.
Definition LINE_SEPARATOR : string := utf8 0x2028.
Definition IDEOGRAPHIC_SPACE : string := utf8 0x3000.

(** [t] occurs in [s]. *)
Definition occurs (t s : string) : Prop := exists a b, s = a +:+ t +:+ b.

(** A string that neither begins nor ends with a white-space character. *)
Definition clean (s : string) : Prop :=
  forall t, t ∈ white_space -> (forall r, s <> t +:+ r) /\ (forall a, s <> a +:+ t).

(** [s] without the white space around it is [x]. *)
Definition stripped (s x : string) : Prop :=
  exists pre post, blank pre /\ blank post /\ s = pre +:+ x +:+ post /\ clean x.

(** The letters of ASCII, capital and small: the 26 pairs from [("A", "a")]
    to [("Z", "z")], that is the characters 65 + n and 97 + n. *)
Definition letters : list (ascii * ascii) :=
  Eval vm_compute in
    map (fun n => (ascii_of_nat (65 + n), ascii_of_nat (97 + n))) (seq 0 26).

(** Two bytes that are the same, or one letter in its two cases. *)
Definition same_letter (a b : ascii) : Prop :=
  a = b \/ (a, b) ∈ letters \/ (b, a) ∈ letters.

(** Two strings that differ in the case of ASCII letters at most. *)
Inductive same_letters : string -> string -> Prop :=
| same_nil : same_letters "" ""
| same_cons a b s t :
    same_letter a b -> same_letters s t -> same_letters (String a s) (String b t).

(** A byte that is no letter of ASCII. *)
Definition caseless (c : ascii) : bool :=
  let n := nat_of_ascii c in
  negb ((Nat.leb 65 n && Nat.leb n 90) || (Nat.leb 97 n && Nat.leb n 122)).

(** [x] follows [r] byte by byte until it ends or goes on with a byte that
    continues no character. *)
Inductive follows : string -> string -> Prop :=
| follows_end r : follows "" r
| follows_stop c x r : is_continuation c = false -> follows (String c x) r
| follows_byte c x r : follows x r -> follows (String c x) (String c r).

(** [x] is listed: some entry, printed as a string, without the white
    space around it and in lower case, is [x]; blank entries list
    nothing. *)
Definition listed (E : Engine) (allowFrom : list AllowEntry) (x : string) : Prop :=
  x <> ""
  /\ exists entry s,
       entry ∈ allowFrom /\ stripped (String_ E entry) s /\ toLowerCase E s = x.

(** The three ways [resolveFeishuAllowlistMatch] reports a match. *)
Definition wildcard_match : FeishuAllowlistMatch :=
  {| allowed := true; matchKey := Some "*"; matchSource := Some Wildcard |}.

Definition id_match (senderId : string) : FeishuAllowlistMatch :=
  {| allowed := true; matchKey := Some senderId; matchSource := Some ById |}.

Definition name_match (senderName : string) : FeishuAllowlistMatch :=
  {| allowed := true; matchKey := Some senderName; matchSource := Some ByName |}.

(** Nothing is left for the two patterns of a mention to remove. *)
Definition settled (E : Engine) (result : string) (mention : Mention) : Prop :=
  RegExp_replace_g E ("@" +:+ mention_name mention +:+ "\s*") result = Normal result
  /\ RegExp_replace_g E (mention_key mention) result = Normal result.

(** The claim that stripping is idempotent, at one text and mention list. *)
Definition strip_idempotent_at (E : Engine) (text : string) (ms : option (list Mention))
    : Prop :=
  forall once,
    stripBotMention E (JStr text) ms = Normal (JStr once) ->
    stripBotMention E (JStr once) ms = Normal (JStr once).

(** [st'] comes after [st]: the histories are those of [st] and the trace
    has grown by events that [P] accepts. *)
Definition extends (P : Effect -> bool) (st st' : State) : Prop :=
  chatHistories st' = chatHistories st
  /\ exists new, trace st' = trace st ++ new /\ forallb P new = true.

(** [m] leaves the histories alone and only adds events that [P] accepts,
    whether it returns or throws. *)
Definition quiet {A} (P : Effect -> bool) (m : M A) : Prop :=
  forall st, extends P st (m st).2.

(** What the media resolver tells the outside world. *)
Definition media_event (e : Effect) : bool :=
  match e with
  | Log (LogPostImages _) | Log (LogEmbeddedImageSaved _ _)
  | Log (LogEmbeddedImageFailed _ _) | Log (LogMediaSaved _ _)
  | Log (LogMediaFailed _ _) => true
  | Called (DownloadMessageResource _ _ _) _ | Called (SaveMediaBuffer _ _ _ _) _ => true
  | _ => false
  end.

(** What the [try] block tells the outside world before it calls the
    agent. *)
Definition prepare_event (e : Effect) : bool :=
  match e with
  | Log (LogQuotedFetched _) | Log (LogQuotedFailed _) | Log (LogDispatching _) => true
  | Called (EnqueueSystemEvent _ _ _) _ | Called (GetMessage _) _ => true
  | _ => media_event e
  end.

(** ** The vocabulary of the group lookup *)

(** [key] is a key of the groups, bound to [g] where it is met first. *)
Definition bound_first (groups : list (string * FeishuGroupConfig)) (key : string)
    (g : FeishuGroupConfig) : Prop :=
  exists before after, groups = before ++ (key, g) :: after /\ key ∉ map fst before.

(** [key], bound to [g], is the first key of the groups that is [id] up to
    case. *)
Definition first_alike (E : Engine) (groups : list (string * FeishuGroupConfig))
    (id key : string) (g : FeishuGroupConfig) : Prop :=
  exists before after,
    groups = before ++ (key, g) :: after
    /\ toLowerCase E key = toLowerCase E id
    /\ forall k, k ∈ map fst before -> toLowerCase E k <> toLowerCase E id.

(** What the lookup of the conversation [chat] among the groups finds.  A
    blank id finds nothing.  Else the id, without the white space around
    it, finds the group bound to it; if there is none, what every object
    inherits under that name; if there is none, the group of the first key
    that is the id up to case, unless that key is empty. *)
Inductive group_for (E : Engine) (groups : list (string * FeishuGroupConfig))
    (chat : string) : option FeishuGroupConfig -> Prop :=
| group_blank :
    blank chat -> group_for E groups chat None
| group_exact id g :
    stripped chat id -> id <> "" -> bound_first groups id g ->
    group_for E groups chat (Some g)
| group_inherited id :
    stripped chat id -> id <> "" -> id ∉ map fst groups -> id ∈ Object_prototype ->
    group_for E groups chat (Some inherited_member)
| group_alike id key g :
    stripped chat id -> id <> "" -> id ∉ map fst groups -> id ∉ Object_prototype ->
    first_alike E groups id key g -> key <> "" ->
    group_for E groups chat (Some g)
| group_alike_empty id g :
    stripped chat id -> id <> "" -> id ∉ map fst groups -> id ∉ Object_prototype ->
    first_alike E groups id "" g ->
    group_for E groups chat None
| group_unknown id :
    stripped chat id -> id <> "" -> id ∉ map fst groups -> id ∉ Object_prototype ->
    (forall k, k ∈ map fst groups -> toLowerCase E k <> toLowerCase E id) ->
    group_for E groups chat None.



(** The configuration of the group a conversation belongs to. *)
Definition group_of (E : Engine) (cfg : ClawdbotConfig) (chat : string)
    : option FeishuGroupConfig :=
  resolveFeishuGroupConfig E (channels_feishu cfg) (Some chat).

(** The group policy in force: the configured one, else [open]. *)
Definition group_policy_of (cfg : ClawdbotConfig) : GroupPolicy :=
  match channels_feishu cfg ≫= groupPolicy with
  | Some policy => policy
  | None => GroupOpen
  end.

(** The effective allow-list: that of the group when it has one, else the
    global [groupAllowFrom], else the empty list. *)
Definition effective_allow_list (E : Engine) (cfg : ClawdbotConfig) (chat : string)
    : list AllowEntry :=
  match group_of E cfg chat ≫= group_allowFrom with
  | Some own => own
  | None =>
      match channels_feishu cfg ≫= groupAllowFrom with
      | Some shared => shared
      | None => []
      end
  end.

(** Whether a reply needs a mention: the setting of the group, else the
    global setting, else true. *)
Definition mention_required (E : Engine) (cfg : ClawdbotConfig) (chat : string) : bool :=
  match group_of E cfg chat ≫= group_requireMention with
  | Some b => b
  | None =>
      match channels_feishu cfg ≫= requireMention with
      | Some b => b
      | None => true
      end
  end.

(** The sender is on the list: through the wildcard, through the id or
    through the name. *)
Definition sender_listed (E : Engine) (allowFrom : list AllowEntry) (senderId : string)
    (senderName : option string) : Prop :=
  listed E allowFrom "*"
  \/ listed E allowFrom (toLowerCase E senderId)
  \/ exists n, senderName = Some n /\ listed E allowFrom (toLowerCase E n).

(** The group gate lets the sender through. *)
Definition group_accepts (E : Engine) (policy : GroupPolicy) (allowFrom : list AllowEntry)
    (senderId : string) (senderName : option string) : Prop :=
  match policy with
  | GroupDisabled => False
  | GroupOpen => True
  | GroupAllowlist => sender_listed E allowFrom senderId senderName
  end.

(** The entry the handler records for an event. *)
Definition history_entry (H : Host) (ctx : FeishuMessageContext) : HistoryEntry :=
  {| entry_sender := senderOpenId ctx;
     entry_body := ctx_content ctx;
     entry_timestamp := Date_now H;
     entry_messageId := messageId ctx |}.

(** The trace of a call on the history map: there is one when the run was
    given a map. *)
Definition history_calls (st : State) (c : HostCall) : list Effect :=
  match chatHistories st with
  | Some _ => [Called c true]
  | None => []
  end.

(** The state after the handler has logged [lines] and done nothing else. *)
Definition logged (st : State) (lines : list LogLine) : State :=
  {| chatHistories := chatHistories st; trace := trace st ++ map Log lines |}.

(** The events a run has added to the trace. *)
Definition added (st st' : State) : list Effect :=
  drop (length (trace st)) (trace st').



(** How the [try] block can end short of success: before the agent was
    called, in the call, or in [markDispatchIdle]. *)
Definition failed_tail (tail : list Effect) : Prop :=
  tail = []
  \/ (exists payload, tail = [Called (DispatchReply payload) false])
  \/ (exists payload,
        tail = [Called (DispatchReply payload) true; Called MarkDispatchIdle false]).

(** C1 as it is stated: after the run the buffer of the conversation ends
    with the entry of the event. *)
Definition appends_one_entry
    (E : Engine) (H : Host) (cfg : ClawdbotConfig) (event : FeishuMessageEvent)
    (botOpenId : option string) (st : State) : Prop :=
  forall ctx,
    parseFeishuMessageEvent E event botOpenId = Normal ctx ->
    chatType ctx = Group ->
    group_accepts E (group_policy_of cfg) (effective_allow_list E cfg (chatId ctx))
      (senderOpenId ctx) (senderName ctx) ->
    mention_required E cfg (chatId ctx) = true ->
    mentionedBot ctx = false ->
    exists historyMap earlier,
      chatHistories (handleFeishuMessage E H cfg event botOpenId st).2 = Some historyMap
      /\ historyMap !! chatId ctx = Some (earlier ++ [history_entry H ctx]).

(** The downloads a run asked for: message id, key and resource type. *)
Definition downloads (events : list Effect) : list (string * JSON * string) :=
  omap (fun e =>
          match e with
          | Called (DownloadMessageResource messageId key type) _ =>
              Some (messageId, key, type)
          | _ => None
          end) events.




(** The text contains a fenced code block: an opening and a closing
    fence. *)
Definition has_fence (text : string) : Prop :=
  exists a body z, text = a +:+ FENCE +:+ body +:+ FENCE +:+ z.

(** The text contains the table pattern: a header row, a bar, at least one
    character and no line terminator, a bar; one or more line breaks; a
    separator row, a bar, at least one of [-], [:], [|] and space, a bar. *)
Definition has_table (text : string) : Prop :=
  exists a header breaks rule z,
    text = a +:+ "|" +:+ header +:+ "|" +:+ breaks +:+ "|" +:+ rule +:+ "|" +:+ z
    /\ header <> "" /\ (forall t, t ∈ line_terminators -> ~ occurs t header)
    /\ breaks <> "" /\ every RegExp.cr_lf breaks = true
    /\ rule <> "" /\ every RegExp.sep_char rule = true.

(** The collaborator calls of a run, with their outcome. *)
Definition calls (events : list Effect) : list (HostCall * bool) :=
  omap (fun e =>
          match e with
          | Called c ok => Some (c, ok)
          | _ => None
          end) events.

(** The chunks a sending loop gets to: it stops after the first send that
    throws. *)
Fixpoint reached {A} (send : A -> Completion unit) (chunks : list A) : list A :=
  match chunks with
  | [] => []
  | chunk :: rest => chunk :: (if is_normal (send chunk) then reached send rest else [])
  end.

(** ** The vocabulary of the direct-message gate and of whole runs *)

(** The direct-message policy in force: the configured one, else
    [pairing]. *)
Definition dm_policy_of (cfg : ClawdbotConfig) : DmPolicy :=
  match channels_feishu cfg ≫= dmPolicy with
  | Some policy => policy
  | None => DmPairing
  end.

(** The allow-list of direct messages: [allowFrom], else the empty list. *)
Definition dm_allow_list (cfg : ClawdbotConfig) : list AllowEntry :=
  match channels_feishu cfg ≫= allowFrom with
  | Some entries => entries
  | None => []
  end.

(** The direct-message gate lets the sender through: the policy is not
    [allowlist], or the list holds the wildcard or the sender's id. *)
Definition dm_accepts (E : Engine) (cfg : ClawdbotConfig) (senderId : string) : Prop :=
  match dm_policy_of cfg with
  | DmAllowlist =>
      listed E (dm_allow_list cfg) "*"
      \/ listed E (dm_allow_list cfg) (toLowerCase E senderId)
  | DmOpen | DmPairing => True
  end.

(** The run went past the direct-message gate: it did not log a
    rejection. *)
Definition past_dm_gate (ctx : FeishuMessageContext) (st st' : State) : Prop :=
  Log (LogNotInDmAllowlist (senderOpenId ctx)) ∉ added st st'.

(** A call on the history map. *)
Definition history_event (e : Effect) : bool :=
  match e with
  | Called (RecordPendingHistoryEntry _ _ _) _ | Called (ClearHistoryEntries _ _) _ => true
  | _ => false
  end.

(** [m] only adds events that [P] accepts, whether it returns or throws. *)
Definition traces {A} (P : Effect -> bool) (m : M A) : Prop :=
  forall st, exists new, trace (m st).2 = trace st ++ new /\ forallb P new = true.

(** What the handler itself tells the outside world, outside the
    preparation of the dispatch. *)
Definition handler_event (e : Effect) : bool :=
  match e with
  | Log (LogReceived _ _ _) | Log (LogNotInGroupAllowlist _)
  | Log (LogNoMentionRecording _) | Log (LogNotInDmAllowlist _)
  | Log (LogDispatchComplete _ _) | LogFailedToDispatch _ => true
  | Called (DispatchReply _) _ | Called MarkDispatchIdle _ => true
  | _ => history_event e
  end.

(** ** The vocabulary of rich-text posts *)

Definition is_null (v : JSON) : bool :=
  match v with JNull => true | _ => false end.

(** The image key an element of a paragraph contributes: the truthy
    [image_key] of an object tagged [img]. *)
Definition image_key_of (element : JSON) : option JSON :=
  match element with
  | JObj fields =>
      match assoc "tag" fields with
      | Some (JStr "img") =>
          match assoc "image_key" fields with
          | Some key => if truthy key then Some key else None
          | None => None
          end
      | _ => None
      end
  | _ => None
  end.

(** The image keys of the blocks of a post, in reading order; a block that
    is not an array is no paragraph. *)
Definition embedded_keys (blocks : list JSON) : list JSON :=
  flat_map (fun paragraph =>
              match paragraph with
              | JArr elements => omap image_key_of elements
              | _ => []
              end) blocks.

(** Some paragraph holds a [null] where an element is expected. *)
Definition has_null (blocks : list JSON) : bool :=
  existsb (fun paragraph =>
             match paragraph with
             | JArr elements => existsb is_null elements
             | _ => false
             end) blocks.

(** The text an element of a paragraph contributes: the [text] of a
    [text], the [text] or else the [href] of a link, an at-sign and the
    [user_name] or else the [user_id] of a mention; nothing otherwise. *)
Definition element_text (E : Engine) (element : JSON) : string :=
  match element with
  | JObj fields =>
      match assoc "tag" fields with
      | Some (JStr "text") => ToString E (or_val (assoc "text" fields) (JStr ""))
      | Some (JStr "a") =>
          ToString E (or_val (assoc "text" fields) (or_val (assoc "href" fields) (JStr "")))
      | Some (JStr "at") =>
          "@" +:+ ToString E (or_val (assoc "user_name" fields)
                                (or_val (assoc "user_id" fields) (JStr "")))
      | _ => ""
      end
  | _ => ""
  end.

(** The text of a block: the texts of its elements and a line feed when it
    is a paragraph, nothing otherwise. *)
Definition paragraph_text (E : Engine) (paragraph : JSON) : string :=
  match paragraph with
  | JArr elements => String.concat "" (map (element_text E) elements) +:+ LF
  | _ => ""
  end.

Definition blocks_text (E : Engine) (blocks : list JSON) : string :=
  String.concat "" (map (paragraph_text E) blocks).


(** What [parsePostContent] answers when it gives up. *)
Definition post_fallback : PostContent :=
  {| textContent := rich_text_fallback; imageKeys := [] |}.

(** ** The vocabulary of media *)

(** The content type of a media, when it has one that is not empty. *)
Definition media_type (media : FeishuMediaInfo) : option string :=
  match contentType media with
  | Some t => if truthy_str t then Some t else None
  | None => None
  end.

(** The payload of a message without media. *)
Definition no_media : MediaPayload :=
  {| MediaPath := None; MediaType := None; MediaUrl := None;
     MediaPaths := None; MediaUrls := None; MediaTypes := None |}.

(** The resource type the resolver asks for. *)
Definition resource_type (messageType : string) : string :=
  if String.eqb messageType "image" then "image" else "file".

(** ** The vocabulary of what a run tells its collaborators *)

(** The label of the system event of an inbound message. *)
Definition inbound_label (ctx : FeishuMessageContext) : string :=
  if bool_decide (chatType ctx = Group)
  then "Feishu message in group " +:+ chatId ctx
  else "Feishu DM from " +:+ senderOpenId ctx.

(** The key of the system event of an inbound message. *)
Definition context_key (ctx : FeishuMessageContext) : string :=
  "feishu:message:" +:+ chatId ctx +:+ ":" +:+ messageId ctx.

(** [out] is [s] with every run of white space replaced by one space. *)
Inductive collapsed : string -> string -> Prop :=
| collapsed_end : collapsed "" ""
| collapsed_run w r out :
    blank w -> w <> "" -> (forall t r', t ∈ white_space -> r <> t +:+ r') ->
    collapsed r out -> collapsed (w +:+ r) (" " +:+ out)
| collapsed_byte c r out :
    (forall t r', t ∈ white_space -> String c r <> t +:+ r') ->
    collapsed r out -> collapsed (String c r) (String c out).

(** A system event, if [e] is one, announces the message of [ctx]: label,
    colon, and the first 160 characters of the text with its white space
    collapsed. *)
Definition announces (ctx : FeishuMessageContext) (e : Effect) : bool :=
  match e with
  | Called (EnqueueSystemEvent text _ contextKey) _ =>
      match ctx_content ctx with
      | JStr body =>
          String.eqb text (inbound_label ctx +:+ ": " +:+ slice0 160 (collapse_ws body))
          && String.eqb contextKey (context_key ctx)
      | _ => false
      end
  | _ => true
  end.

(** The size limit of inbound media, in bytes: [mediaMaxMb], else 30,
    megabytes. *)
Definition media_limit (cfg : ClawdbotConfig) : Z :=
  default 30 (channels_feishu cfg ≫= mediaMaxMb) * 1024 * 1024.

(** A download, if [e] is one, is asked for the message [messageId]; a
    save, if [e] is one, is bounded by [limit]. *)
Definition within_limits (messageId : string) (limit : Z) (e : Effect) : bool :=
  match e with
  | Called (DownloadMessageResource id _ _) _ => String.eqb id messageId
  | Called (SaveMediaBuffer _ _ maxBytes _) _ => maxBytes =? limit
  | _ => true
  end.

(** The lines the preparation of the dispatch logs itself. *)
Definition quoted_event (e : Effect) : bool :=
  match e with
  | Log (LogQuotedFetched _) | Log (LogQuotedFailed _) | Log (LogDispatching _) => true
  | _ => false
  end.

(** A fetch of a quoted message, if [e] is one, asks for the parent of the
    event, whose id is not empty. *)
Definition fetches_parent (event : FeishuMessageEvent) (e : Effect) : bool :=
  match e with
  | Called (GetMessage id) _ =>
      bool_decide (parent_id (message event) = Some id) && truthy_str id
  | _ => true
  end.

(** ** The vocabulary of a delivery's outcome *)

(** The outcome of a sending loop: the error of the first send that
    throws, if any. *)
Fixpoint first_failure {A} (send : A -> Completion unit) (chunks : list A)
    : Completion unit :=
  match chunks with
  | [] => Normal tt
  | chunk :: rest =>
      match send chunk with
      | Normal _ => first_failure send rest
      | Throw err => Throw err
      end
  end.

(** ** The vocabulary of the directory *)

(** [id] is configured as a group: it is the key of a configured group,
    or an entry of [groupAllowFrom], without the white space around it. *)
Definition configured_group (E : Engine) (cfg : ClawdbotConfig) (id : string) : Prop :=
  (exists key,
     key ∈ map fst (default [] (channels_feishu cfg ≫= groups)) /\ stripped key id)
  \/ (exists entry,
        entry ∈ default [] (channels_feishu cfg ≫= groupAllowFrom)
        /\ stripped (String_ E entry) id).

(** The query of a directory listing, as it is compared. *)
Definition query_of (E : Engine) (query : option string) : string :=
  match query with
  | Some q => toLowerCase E (trim q)
  | None => ""
  end.

(** The id answers the query [q], without the white space around it and
    in lower case: [q] is empty, or its code units occur in those of the
    id in lower case. *)
Definition answers (E : Engine) (query : option string) (id : string) : Prop :=
  match query with
  | None => True
  | Some q =>
      forall core, stripped q core ->
        toLowerCase E core = ""
        \/ exists before after,
             code_units (toLowerCase E id)
             = before ++ code_units (toLowerCase E core) ++ after
  end.

(** A candidate of a loop is kept as [x]: without the white space around
    it, it is [x], which is neither empty nor the wildcard. *)
Definition kept (candidates : list string) (x : string) : Prop :=
  x <> "" /\ x <> "*" /\ exists candidate, candidate ∈ candidates /\ stripped candidate x.

(** The ids the two loops of the listing have gathered. *)
Definition gathered (E : Engine) (cfg : ClawdbotConfig) : list string :=
  Directory.collect
    (Directory.collect [] (map fst (default [] (channels_feishu cfg ≫= groups))))
    (map (String_ E) (default [] (channels_feishu cfg ≫= groupAllowFrom))).

(** The filter of the query. *)
Definition matching (E : Engine) (query : option string) (id : string) : bool :=
  if truthy_str (query_of E query) then str_includes (query_of E query) (toLowerCase E id)
  else true.

(** ** The vocabulary of allow-list entries and accounts *)

(** The prefixes [normalizeAllowEntry] knows. *)
Definition entry_prefixes : list string := ["feishu:"; "user:"; "open_id:"].

(** A string as the matcher and the formatter leave it: not empty,
    without white space around it, in lower case. *)
Definition normal_form (E : Engine) (s : string) : Prop :=
  s <> "" /\ clean s /\ toLowerCase E s = s.

(** Folding a string to lower case keeps it clean and keeps it folded,
    as it does on ASCII. *)
Definition faithful_case (E : Engine) : Prop :=
  forall s,
    clean s -> s <> "" ->
    clean (toLowerCase E s)
    /\ toLowerCase E s <> ""
    /\ toLowerCase E (toLowerCase E s) = toLowerCase E s.

(** The group policy [collectWarnings] reads: the configured one, else the
    default of the channels, else [allowlist]. *)
Definition warned_policy (cfg : ClawdbotConfig) (defaultGroupPolicy : option string)
    : string :=
  match channels_feishu cfg ≫= groupPolicy with
  | Some policy => Channel.policy_name policy
  | None => default "allowlist" defaultGroupPolicy
  end.

(** A credential is set: present, and not blank. *)
Definition credential_set (s : option string) : Prop :=
  exists x, s = Some x /\ ~ blank x.

(** ** The vocabulary of replies *)

(** What [m] returns, when it returns, satisfies [Q]. *)
Definition returns {A} (Q : A -> Prop) (m : M A) : Prop :=
  forall st a st', m st = (Normal a, st') -> Q a.

(** A send, if [e] is a call, goes to the conversation [chat] as a reply
    to [message], and [e] is nothing but a send or a line of the delivery
    log. *)
Definition replies_to (chat : string) (message : option string) (e : Effect) : bool :=
  match e with
  | Called (SendMarkdownCard to _ replyTo) _ | Called (SendMessage to _ replyTo) _ =>
      String.eqb to chat && bool_decide (replyTo = message)
  | Log (LogDeliverCalled _) | Log LogDeliverEmpty
  | Log (LogDeliverCards _ _) | Log (LogDeliverTexts _ _) => true
  | _ => false
  end.

(* ===================================================================== *)
(** * Properties                                                          *)
(* ===================================================================== *)

#[local] Arguments String.append : simpl nomatch.
#[local] Arguments lower_ascii : simpl never.
#[local] Arguments slice0 : simpl never.
#[local] Arguments width : simpl never.
#[local] Arguments head_units : simpl never.
#[local] Arguments RegExp_replace_g : simpl never.

(** ** Strings *)

Section StringFacts.

Implicit Types (s t u p r w : string) (c : ascii).

Lemma app_empty_r s : s +:+ "" = s.
Proof. induction s as [|c r IH]; simpl; [done | by rewrite IH]. Qed.

Lemma app_assoc' s t u : (s +:+ t) +:+ u = s +:+ (t +:+ u).
Proof. induction s as [|c r IH]; simpl; [done | by rewrite IH]. Qed.

Lemma app_length s t : String.length (s +:+ t) = (String.length s + String.length t)%nat.
Proof. induction s as [|c r IH]; simpl; [done | by rewrite IH]. Qed.

Lemma append_empty_inv s t : s +:+ t = "" -> s = "" /\ t = "".
Proof. destruct s; simpl; [done | discriminate]. Qed.

Lemma append_cons_inv s t c u :
  s +:+ t = String c u ->
  (s = "" /\ t = String c u) \/ (exists s', s = String c s' /\ u = s' +:+ t).
Proof.
  destruct s as [|d s']; simpl; intros Heq; [by left |].
  injection Heq as -> <-. right. by exists s'.
Qed.

(** Two ways to cut one string: one cut comes first. *)
Lemma app_eq_app s t u r :
  s +:+ t = u +:+ r ->
  (exists x, u = s +:+ x /\ t = x +:+ r) \/ (exists x, s = u +:+ x /\ r = x +:+ t).
Proof.
  revert u. induction s as [|c s IH]; intros u Heq; simpl in Heq.
  - left. by exists u.
  - destruct u as [|d u]; simpl in Heq.
    + right. exists (String c s). by rewrite <- Heq.
    + injection Heq as -> Heq. destruct (IH u Heq) as [(x & -> & ->) | (x & -> & ->)].
      * left. by exists x.
      * right. by exists x.
Qed.

Lemma app_inv_head s t u : s +:+ t = s +:+ u -> t = u.
Proof. induction s as [|c s IH]; simpl; [done |]. intros [= Heq]. auto. Qed.

Lemma every_app q s t : every q (s +:+ t) = every q s && every q t.
Proof. induction s as [|c s IH]; simpl; [done |]. by rewrite IH, andb_assoc. Qed.

Lemma strip_prefix_Some p s r : strip_prefix p s = Some r <-> s = p +:+ r.
Proof.
  revert s. induction p as [|a p IH]; intros s; simpl.
  - split; [by intros [= ->] | by intros ->].
  - destruct s as [|b s]; [split; intros; done |].
    destruct (Ascii.eqb a b) eqn:Hab.
    + apply Ascii.eqb_eq in Hab as ->. rewrite IH. split; [by intros -> | by intros [= ->]].
    + apply Ascii.eqb_neq in Hab. split; [done |]. intros [= -> _]. done.
Qed.

Lemma strip_first_Some tokens s r :
  strip_first tokens s = Some r -> exists t, t ∈ tokens /\ s = t +:+ r.
Proof.
  induction tokens as [|t rest IH]; simpl; [done |].
  destruct (strip_prefix t s) as [r'|] eqn:Ht.
  - intros [= ->]. apply strip_prefix_Some in Ht. exists t. split; [by left | done].
  - intros Hrest. destruct (IH Hrest) as (t' & Hin & Hs). exists t'. split; [by right | done].
Qed.

Lemma strip_first_None tokens s t r :
  strip_first tokens s = None -> t ∈ tokens -> s <> t +:+ r.
Proof.
  induction tokens as [|t' rest IH]; simpl; intros Hnone Hin Hs.
  - by apply elem_of_nil in Hin.
  - destruct (strip_prefix t' s) as [r'|] eqn:Ht; [done |].
    apply elem_of_cons in Hin as [-> | Hin]; [| by apply IH].
    apply strip_prefix_Some in Hs. congruence.
Qed.

(** *** The table of white space *)

Lemma ws_head_app t r : t ∈ white_space -> ws_head (t +:+ r) = Some r.
Proof.
  unfold white_space. intros Hin.
  repeat (apply elem_of_cons in Hin as [-> | Hin]; [reflexivity |]).
  by apply elem_of_nil in Hin.
Qed.

Lemma ws_head_Some s r : ws_head s = Some r <-> exists t, t ∈ white_space /\ s = t +:+ r.
Proof.
  split; [apply strip_first_Some |]. intros (t & Hin & ->). by apply ws_head_app.
Qed.

Lemma ws_head_None s t r : ws_head s = None -> t ∈ white_space -> s <> t +:+ r.
Proof. apply strip_first_None. Qed.

(** A white-space character begins with a byte that continues none, and
    goes on with bytes that do. *)
Lemma white_space_shape t :
  t ∈ white_space ->
  exists c rest, t = String c rest /\ is_continuation c = false
                 /\ every is_continuation rest = true.
Proof.
  unfold white_space. intros Hin.
  repeat (apply elem_of_cons in Hin as [-> | Hin]; [by eexists _, _ |]).
  by apply elem_of_nil in Hin.
Qed.

Lemma ws_head_shorter s r : ws_head s = Some r -> (String.length r < String.length s)%nat.
Proof.
  intros (t & Hin & ->)%ws_head_Some.
  destruct (white_space_shape t Hin) as (c & rest & -> & _). simpl. rewrite app_length. lia.
Qed.

Lemma is_white_true s : is_white s = true <-> s ∈ white_space.
Proof.
  unfold is_white. rewrite existsb_exists. split.
  - intros (t & Hin & Ht). apply String.eqb_eq in Ht as ->. by apply list_elem_of_In.
  - intros Hin. exists s. split; [by apply list_elem_of_In | apply String.eqb_refl].
Qed.

(** Strings, by the white space they begin with. *)
Lemma ws_ind (P : string -> Prop) :
  (forall s, ws_head s = None -> P s) ->
  (forall s r, ws_head s = Some r -> P r -> P s) ->
  forall s, P s.
Proof.
  intros Hnone Hsome s.
  remember (String.length s) as n eqn:Hn. revert s Hn.
  induction n as [n IH] using lt_wf_ind. intros s ->.
  destruct (ws_head s) as [r|] eqn:Hs; [| by apply Hnone].
  apply (Hsome s r Hs). apply (IH (String.length r)); [by apply ws_head_shorter | done].
Qed.

(** *** [trimStart] *)

Lemma trimStart_from_enough fuel s :
  (String.length s <= fuel)%nat -> trimStart_from fuel s = trimStart s.
Proof.
  unfold trimStart.
  assert (Hany : forall fuel fuel' s,
            (String.length s <= fuel)%nat -> (String.length s <= fuel')%nat ->
            trimStart_from fuel s = trimStart_from fuel' s).
  { clear. induction fuel as [|fuel IH]; intros fuel' s Hf Hf'.
    - destruct s; [| simpl in Hf; lia]. by destruct fuel'.
    - destruct fuel' as [|fuel'].
      + destruct s; [done | simpl in Hf'; lia].
      + simpl. destruct (ws_head s) as [r|] eqn:Hs; [| done].
        apply ws_head_shorter in Hs. apply IH; lia. }
  intros Hf. by apply Hany.
Qed.

Lemma trimStart_eq s :
  trimStart s = match ws_head s with Some r => trimStart r | None => s end.
Proof.
  unfold trimStart at 1. destruct s as [|c s]; [done |].
  cbn [String.length trimStart_from].
  destruct (ws_head (String c s)) as [r|] eqn:Hs; [| done].
  apply trimStart_from_enough. apply ws_head_shorter in Hs. simpl in Hs. lia.
Qed.

Lemma trimStart_token t r : t ∈ white_space -> trimStart (t +:+ r) = trimStart r.
Proof. intros Hin. by rewrite trimStart_eq, ws_head_app. Qed.

Lemma trimStart_fixed s : ws_head s = None -> trimStart s = s.
Proof. intros Hs. by rewrite trimStart_eq, Hs. Qed.

Lemma ws_head_trimStart s : ws_head (trimStart s) = None.
Proof.
  induction s as [s Hs | s r Hs IH] using ws_ind.
  - by rewrite trimStart_fixed.
  - by rewrite trimStart_eq, Hs.
Qed.


(** *** White space only *)

Lemma blank_token t : t ∈ white_space -> blank t.
Proof. intros Hin. rewrite <- (app_empty_r t). apply blank_more; [done | constructor]. Qed.

Lemma blank_app w s : blank w -> blank s -> blank (w +:+ s).
Proof.
  induction 1 as [|t w' Ht _ IH]; intros Hs; [done |].
  rewrite app_assoc'. apply blank_more; auto.
Qed.

Lemma blank_inv s : blank s -> s = "" \/ exists r, ws_head s = Some r /\ blank r.
Proof.
  destruct 1 as [|t s' Ht Hs']; [by left |]. right. exists s'. split; [by apply ws_head_app | done].
Qed.

Lemma blank_ws_head s r : ws_head s = Some r -> blank s <-> blank r.
Proof.
  intros Hs. split.
  - intros [-> | (r' & Hr' & Hb)]%blank_inv; [done |]. congruence.
  - apply ws_head_Some in Hs as (t & Ht & ->). by apply blank_more.
Qed.

Lemma trimStart_blank s : blank s -> trimStart s = "".
Proof. induction 1 as [|t s' Ht _ IH]; [done |]. by rewrite trimStart_token. Qed.

Lemma trimStart_split s : exists w, blank w /\ s = w +:+ trimStart s.
Proof.
  induction s as [s Hs | s r Hs (w & Hw & IH)] using ws_ind.
  - exists "". split; [constructor |]. by rewrite trimStart_fixed.
  - rewrite trimStart_eq, Hs. apply ws_head_Some in Hs as (t & Ht & ->).
    exists (t +:+ w). split; [by apply blank_more |]. by rewrite app_assoc', <- IH.
Qed.

Lemma trimStart_empty s : trimStart s = "" -> blank s.
Proof.
  intros Hs. destruct (trimStart_split s) as (w & Hw & Heq).
  rewrite Hs, app_empty_r in Heq. by subst.
Qed.

Lemma trimStart_app_blank w s : blank w -> trimStart (w +:+ s) = trimStart s.
Proof.
  induction 1 as [|t w' Ht _ IH]; [done |]. by rewrite app_assoc', trimStart_token.
Qed.

(** White space after a string that begins with none does not begin it. *)
Lemma ws_head_app_blank s w :
  s <> "" -> ws_head s = None -> blank w -> ws_head (s +:+ w) = None.
Proof.
  intros Hne Hs Hw. destruct Hw as [|t' w' Ht' _]; [by rewrite app_empty_r |].
  destruct (ws_head (s +:+ t' +:+ w')) as [r|] eqn:Hcut; [| done]. exfalso.
  apply ws_head_Some in Hcut as (t & Ht & Hcut).
  apply app_eq_app in Hcut as [(x & -> & Hx) | (x & -> & _)].
  2:{ by apply (ws_head_None _ t x Hs). }
  destruct (white_space_shape _ Ht) as (c & rest & Hshape & _ & Hrest).
  destruct (white_space_shape _ Ht') as (c' & rest' & -> & Hc' & _).
  destruct s as [|d s]; [done |]. simpl in Hshape. injection Hshape as -> <-.
  rewrite every_app in Hrest. apply andb_prop in Hrest as [_ Hx'].
  destruct x as [|e x].
  - rewrite app_empty_r in Ht. apply (ws_head_None _ _ "" Hs Ht). by rewrite app_empty_r.
  - simpl in Hx. injection Hx as -> _. simpl in Hx'. apply andb_prop in Hx' as [He _].
    congruence.
Qed.

(** *** [trimEnd] *)

Lemma trimEnd_cons c r :
  trimEnd (String c r)
  = if is_white (String c (trimEnd r)) then "" else String c (trimEnd r).
Proof. reflexivity. Qed.

Lemma trimEnd_token t r : t ∈ white_space -> trimEnd r = "" -> trimEnd (t +:+ r) = "".
Proof.
  unfold white_space. intros Hin Hr.
  repeat (apply elem_of_cons in Hin as [-> | Hin];
          [cbn [String.append]; rewrite !trimEnd_cons, Hr; reflexivity |]).
  by apply elem_of_nil in Hin.
Qed.

Lemma trimEnd_blank s : blank s -> trimEnd s = "".
Proof. induction 1 as [|t s' Ht _ IH]; [done |]. by apply trimEnd_token. Qed.

Lemma trimEnd_split s : exists w, blank w /\ s = trimEnd s +:+ w.
Proof.
  induction s as [|c r (w & Hw & IH)]; [exists ""; split; [constructor | done] |].
  rewrite trimEnd_cons. destruct (is_white (String c (trimEnd r))) eqn:Hc.
  - apply is_white_true in Hc. exists (String c (trimEnd r) +:+ w).
    split; [by apply blank_more |]. simpl. by rewrite <- IH.
  - exists w. split; [done |]. simpl. by rewrite <- IH.
Qed.

Lemma trimEnd_empty s : trimEnd s = "" -> blank s.
Proof.
  intros Hs. destruct (trimEnd_split s) as (w & Hw & Heq). rewrite Hs in Heq. by subst.
Qed.

Lemma trimEnd_app_blank s w : blank w -> trimEnd (s +:+ w) = trimEnd s.
Proof.
  intros Hw. induction s as [|c r IH]; simpl.
  - by apply trimEnd_blank.
  - by rewrite IH.
Qed.

Lemma trimEnd_idem s : trimEnd (trimEnd s) = trimEnd s.
Proof.
  induction s as [|c r IH]; [done |].
  rewrite trimEnd_cons. destruct (is_white (String c (trimEnd r))) eqn:Hc; [done |].
  by rewrite trimEnd_cons, IH, Hc.
Qed.

Lemma ws_head_trimEnd s : ws_head s = None -> ws_head (trimEnd s) = None.
Proof.
  intros Hs. destruct (ws_head (trimEnd s)) as [r|] eqn:Hcut; [| done]. exfalso.
  apply ws_head_Some in Hcut as (t & Ht & Hcut).
  destruct (trimEnd_split s) as (w & _ & Heq). rewrite Hcut, app_assoc' in Heq.
  by apply (ws_head_None _ _ _ Hs Ht) in Heq.
Qed.

(** What [trimEnd] leaves does not end with white space. *)
Lemma trimEnd_ends_clean s a t : trimEnd s = a +:+ t -> t ∉ white_space.
Proof.
  revert a. induction s as [|c r IH]; intros a.
  - intros Heq Ht. symmetry in Heq. apply append_empty_inv in Heq as [_ ->].
    by destruct (white_space_shape _ Ht) as (? & ? & ? & _).
  - rewrite trimEnd_cons. destruct (is_white (String c (trimEnd r))) eqn:Hc.
    + intros Heq Ht. symmetry in Heq. apply append_empty_inv in Heq as [_ ->].
      by destruct (white_space_shape _ Ht) as (? & ? & ? & _).
    + intros Heq Ht. symmetry in Heq.
      apply append_cons_inv in Heq as [[-> ->] | (a' & -> & Heq)].
      * apply is_white_true in Ht. congruence.
      * by apply (IH a').
Qed.

(** *** [trim] *)

(** [trim] yields a fixed point of [trim]. *)
Lemma trim_idem s : trim (trim s) = trim s.
Proof.
  unfold trim.
  rewrite (trimStart_fixed (trimEnd (trimStart s))).
  - apply trimEnd_idem.
  - apply ws_head_trimEnd, ws_head_trimStart.
Qed.

(** [trim] leaves nothing of a string exactly when the string is white
    space only. *)
Lemma trim_blank s : trim s = "" <-> blank s.
Proof.
  unfold trim. split.
  - intros Hs. apply trimEnd_empty in Hs.
    destruct (trimStart_split s) as (w & Hw & ->). by apply blank_app.
  - intros Hs. by rewrite trimStart_blank.
Qed.

(** White space around a string does not survive [trim]. *)
Lemma trim_padding pre s post :
  blank pre -> blank post -> trim (pre +:+ s +:+ post) = trim s.
Proof.
  intros Hpre Hpost. unfold trim. rewrite trimStart_app_blank by done.
  destruct (trimStart_split s) as (w & Hw & Hs).
  rewrite Hs at 1. rewrite app_assoc', trimStart_app_blank by done.
  destruct (trimStart s) as [|c r] eqn:Hkept.
  - simpl. rewrite trimStart_blank, trimEnd_blank; [done | constructor | done].
  - rewrite trimStart_fixed.
    + by apply trimEnd_app_blank.
    + apply ws_head_app_blank; [done | | done]. rewrite <- Hkept. apply ws_head_trimStart.
Qed.

(** What [trim] leaves neither begins nor ends with white space. *)
Lemma trim_clean s t :
  t ∈ white_space -> (forall r, trim s <> t +:+ r) /\ (forall a, trim s <> a +:+ t).
Proof.
  intros Ht. split.
  - intros r. apply ws_head_None; [| done]. apply ws_head_trimEnd, ws_head_trimStart.
  - intros a Heq. by apply (trimEnd_ends_clean _ _ _ Heq).
Qed.


Lemma is_empty_true s : is_empty s = true <-> s = "".
Proof. destruct s; simpl; split; intros; done. Qed.

Lemma truthy_str_true s : truthy_str s = true <-> s <> "".
Proof. destruct s; simpl; split; intros; done. Qed.

Lemma truthy_str_false s : truthy_str s = false <-> s = "".
Proof. destruct s; simpl; split; intros; done. Qed.

Lemma includes_true (l : list string) x : includes l x = true <-> x ∈ l.
Proof. unfold includes. apply bool_decide_eq_true. Qed.

Lemma includes_false (l : list string) x : includes l x = false <-> x ∉ l.
Proof. unfold includes. apply bool_decide_eq_false. Qed.

Lemma token_not_empty t : t ∈ white_space -> t <> "".
Proof. intros Ht. by destruct (white_space_shape t Ht) as (c & rest & -> & _). Qed.

Lemma blank_snoc w :
  blank w -> w <> "" -> exists a t, blank a /\ t ∈ white_space /\ w = a +:+ t.
Proof.
  induction 1 as [|t w' Ht Hw' IH]; [done |]. intros _.
  destruct (decide (w' = "")) as [-> | Hne].
  - exists "", t. rewrite app_empty_r. repeat split; [constructor | done].
  - destruct (IH Hne) as (a & t' & Ha & Ht' & ->). exists (t +:+ a), t'.
    split; [by constructor |]. split; [done |]. by rewrite app_assoc'.
Qed.

Lemma clean_trim s : clean (trim s).
Proof. intros t Ht. by apply trim_clean. Qed.

Lemma clean_ws_head x : clean x -> ws_head x = None.
Proof.
  intros Hc. destruct (ws_head x) as [r|] eqn:Hr; [| done].
  apply ws_head_Some in Hr as (t & Ht & ->).
  destruct (Hc t Ht) as [H1 _]. by destruct (H1 r).
Qed.

Lemma trim_fixed x : clean x -> trim x = x.
Proof.
  intros Hc. unfold trim. rewrite trimStart_fixed by by apply clean_ws_head.
  destruct (trimEnd_split x) as (w & Hw & Hx).
  destruct (decide (w = "")) as [-> | Hne]; [by rewrite app_empty_r in Hx |].
  destruct (blank_snoc w Hw Hne) as (a & t & _ & Ht & ->).
  destruct (Hc t Ht) as [_ H2]. destruct (H2 (trimEnd x +:+ a)).
  by rewrite app_assoc'.
Qed.

Lemma trim_split s : exists pre post, blank pre /\ blank post /\ s = pre +:+ trim s +:+ post.
Proof.
  destruct (trimStart_split s) as (pre & Hpre & Hs).
  destruct (trimEnd_split (trimStart s)) as (post & Hpost & Ht).
  exists pre, post. split; [done |]. split; [done |].
  unfold trim. by rewrite <- Ht.
Qed.

(** [trim] strips the white space around a string, and nothing else. *)
Lemma trim_stripped s x : stripped s x <-> trim s = x.
Proof.
  split.
  - intros (pre & post & Hpre & Hpost & -> & Hx).
    rewrite trim_padding by done. by apply trim_fixed.
  - intros <-. destruct (trim_split s) as (pre & post & Hpre & Hpost & Hs).
    exists pre, post. repeat split; try done; by apply clean_trim.
Qed.

Lemma stripped_trim s : stripped s (trim s).
Proof. by apply trim_stripped. Qed.

Lemma every_trim (q : ascii -> bool) s : every q s = true -> every q (trim s) = true.
Proof.
  intros Hs. destruct (trim_split s) as (pre & post & _ & _ & Heq).
  rewrite Heq, !every_app in Hs.
  by apply andb_prop in Hs as [_ [Hs _]%andb_prop].
Qed.

(** A string without a byte of white space is clean. *)
Lemma every_clean (q : ascii -> bool) s :
  (forall t, t ∈ white_space -> every q t = false) -> every q s = true -> clean s.
Proof.
  intros Hp Hs t Ht. split.
  - intros r ->. rewrite every_app in Hs. apply andb_prop in Hs as [Hs _].
    rewrite Hp in Hs; done.
  - intros a ->. rewrite every_app in Hs. apply andb_prop in Hs as [_ Hs].
    rewrite Hp in Hs; done.
Qed.

(** *** Lower case *)

Lemma lower_ascii_idem c : lower_ascii (lower_ascii c) = lower_ascii c.
Proof. destruct c as [[] [] [] [] [] [] [] []]; reflexivity. Qed.

Lemma lower_letters_idem s : lower_letters (lower_letters s) = lower_letters s.
Proof. induction s as [|c r IH]; simpl; [done |]. by rewrite lower_ascii_idem, IH. Qed.

Lemma is_ascii_lower c : is_ascii (lower_ascii c) = is_ascii c.
Proof. destruct c as [[] [] [] [] [] [] [] []]; reflexivity. Qed.

Lemma every_ascii_lower s : every is_ascii (lower_letters s) = every is_ascii s.
Proof. induction s as [|c r IH]; simpl; [done |]. by rewrite is_ascii_lower, IH. Qed.

Lemma lower_letters_empty s : lower_letters s = "" <-> s = "".
Proof. by destruct s. Qed.

Lemma lower_letters_app s t : lower_letters (s +:+ t) = lower_letters s +:+ lower_letters t.
Proof. induction s as [|c r IH]; simpl; [done |]. by rewrite IH. Qed.

Lemma caseless_eqb a b : caseless a = true -> Ascii.eqb a (lower_ascii b) = Ascii.eqb a b.
Proof.
  destruct b as [[] [] [] [] [] [] [] []]; try reflexivity;
    destruct a as [[] [] [] [] [] [] [] []]; try reflexivity; discriminate.
Qed.

Lemma caseless_fixed a : caseless a = true -> lower_ascii a = a.
Proof. destruct a as [[] [] [] [] [] [] [] []]; try reflexivity; discriminate. Qed.

Lemma every_caseless_fixed s : every caseless s = true -> lower_letters s = s.
Proof.
  induction s as [|c r IH]; simpl; [done |]. intros [Hc Hr]%andb_prop.
  by rewrite caseless_fixed, IH.
Qed.

Lemma lower_letters_strip_prefix t s :
  every caseless t = true ->
  strip_prefix t (lower_letters s) = lower_letters <$> strip_prefix t s.
Proof.
  revert s. induction t as [|a t IH]; intros s; simpl; [done |].
  intros [Ha Ht]%andb_prop. destruct s as [|b s]; simpl; [done |].
  rewrite caseless_eqb by done. destruct (Ascii.eqb a b); [by apply IH | done].
Qed.

Lemma white_space_caseless : forallb (every caseless) white_space = true.
Proof. reflexivity. Qed.

Lemma lower_letters_strip_first tokens s :
  forallb (every caseless) tokens = true ->
  strip_first tokens (lower_letters s) = lower_letters <$> strip_first tokens s.
Proof.
  induction tokens as [|t rest IH]; [done |].
  intros [Ht Hrest]%andb_prop. cbn [strip_first].
  rewrite lower_letters_strip_prefix by done.
  destruct (strip_prefix t s); [done | by apply IH].
Qed.

Lemma lower_letters_ws_head s : ws_head (lower_letters s) = lower_letters <$> ws_head s.
Proof. apply lower_letters_strip_first, white_space_caseless. Qed.

Lemma lower_letters_trimStart s : trimStart (lower_letters s) = lower_letters (trimStart s).
Proof.
  induction s as [s Hs | s r Hs IH] using ws_ind.
  - rewrite !trimStart_fixed; [done | done |]. by rewrite lower_letters_ws_head, Hs.
  - rewrite (trimStart_eq s), Hs, trimStart_eq, lower_letters_ws_head, Hs. exact IH.
Qed.

Lemma lower_letters_eqb s t :
  every caseless t = true -> String.eqb (lower_letters s) t = String.eqb s t.
Proof.
  revert t. induction s as [|c r IH]; intros [|a t]; simpl; try done.
  intros [Ha Ht]%andb_prop.
  rewrite (Ascii.eqb_sym (lower_ascii c)), caseless_eqb, (Ascii.eqb_sym a c) by done.
  by rewrite IH.
Qed.

Lemma is_white_lower s : is_white (lower_letters s) = is_white s.
Proof.
  unfold is_white. pose proof white_space_caseless as Hall.
  induction white_space as [|t rest IH]; [done |].
  apply andb_prop in Hall as [Ht Hrest]. cbn [existsb].
  by rewrite lower_letters_eqb, IH.
Qed.

Lemma lower_letters_trimEnd s : trimEnd (lower_letters s) = lower_letters (trimEnd s).
Proof.
  induction s as [|c r IH]; [done |].
  cbn [lower_letters]. rewrite !trimEnd_cons, IH.
  change (String (lower_ascii c) (lower_letters (trimEnd r)))
    with (lower_letters (String c (trimEnd r))).
  rewrite is_white_lower. by destruct (is_white (String c (trimEnd r))).
Qed.

(** Folding the letters and trimming commute. *)
Lemma lower_letters_trim s : trim (lower_letters s) = lower_letters (trim s).
Proof. unfold trim. by rewrite lower_letters_trimStart, lower_letters_trimEnd. Qed.

Lemma same_letter_lower a b : same_letter a b -> lower_ascii a = lower_ascii b.
Proof.
  unfold letters. intros [-> | [Hin | Hin]]; [done | |];
    repeat (apply elem_of_cons in Hin as [[= -> ->] | Hin]; [reflexivity |]);
    by apply elem_of_nil in Hin.
Qed.

Lemma same_letter_ascii a b : same_letter a b -> is_ascii a = is_ascii b.
Proof.
  unfold letters. intros [-> | [Hin | Hin]]; [done | |];
    repeat (apply elem_of_cons in Hin as [[= -> ->] | Hin]; [reflexivity |]);
    by apply elem_of_nil in Hin.
Qed.

Lemma same_letters_lower s t : same_letters s t -> lower_letters s = lower_letters t.
Proof.
  induction 1 as [|a b s t Hab _ IH]; simpl; [done |].
  by rewrite (same_letter_lower a b), IH.
Qed.

Lemma same_letters_ascii s t : same_letters s t -> every is_ascii s = every is_ascii t.
Proof.
  induction 1 as [|a b s t Hab _ IH]; simpl; [done |].
  by rewrite (same_letter_ascii a b), IH.
Qed.

Lemma same_letter_lower_ascii c : same_letter c (lower_ascii c).
Proof.
  destruct c as [[] [] [] [] [] [] [] []];
    first [ by left
          | right; left; apply list_elem_of_In; vm_compute; tauto ].
Qed.

Lemma same_letters_lower_letters s : same_letters s (lower_letters s).
Proof.
  induction s as [|c r IH]; simpl; constructor; [apply same_letter_lower_ascii | done].
Qed.

Lemma same_letters_refl s : same_letters s s.
Proof. induction s; constructor; [by left | done]. Qed.

Lemma same_letters_sym s t : same_letters s t -> same_letters t s.
Proof.
  induction 1 as [|a b s t Hab _ IH]; constructor; [| done].
  destruct Hab as [-> | [? | ?]]; [by left | right; by right | right; by left].
Qed.


(** *** Line terminators *)

Lemma line_terminator_not_empty t : t ∈ line_terminators -> t <> "".
Proof.
  unfold line_terminators. intros Hin.
  repeat (apply elem_of_cons in Hin as [-> | Hin]; [done |]). by apply elem_of_nil in Hin.
Qed.

Lemma line_free_cons c r :
  line_free (String c r)
  = match strip_first line_terminators (String c r) with
    | Some _ => false
    | None => line_free r
    end.
Proof. reflexivity. Qed.

(** [line_free] holds of the strings in which no line terminator occurs. *)
Lemma line_free_spec s :
  line_free s = true <-> forall t, t ∈ line_terminators -> ~ occurs t s.
Proof.
  induction s as [|c r IH].
  - split; [| done]. intros _ t Ht (a & b & Heq).
    symmetry in Heq. apply append_empty_inv in Heq as [_ Heq].
    apply append_empty_inv in Heq as [Heq _]. by apply (line_terminator_not_empty t).
  - rewrite line_free_cons.
    destruct (strip_first line_terminators (String c r)) as [r'|] eqn:Hcut.
    + split; [done |]. intros Hfree. exfalso.
      apply strip_first_Some in Hcut as (t & Ht & Heq).
      apply (Hfree t Ht). exists "", r'. by rewrite Heq.
    + rewrite IH. split.
      * intros Hfree t Ht (a & b & Heq). symmetry in Heq.
        apply append_cons_inv in Heq as [[-> Heq] | (a' & -> & ->)].
        -- by apply (strip_first_None _ _ t b Hcut Ht).
        -- apply (Hfree t Ht). by exists a', b.
      * intros Hfree t Ht (a & b & ->). apply (Hfree t Ht). by exists (String c a), b.
Qed.

(** *** Runs of white space *)

Lemma trimStart_length s : (String.length (trimStart s) <= String.length s)%nat.
Proof.
  destruct (trimStart_split s) as (w & _ & Heq).
  rewrite Heq at 2. rewrite app_length. lia.
Qed.

Lemma collapse_from_collapsed fuel s :
  (String.length s <= fuel)%nat -> collapsed s (collapse_from fuel s).
Proof.
  revert s. induction fuel as [|fuel IH]; intros s Hlen.
  - destruct s; [constructor | simpl in Hlen; lia].
  - cbn [collapse_from]. destruct (ws_head s) as [r|] eqn:Hs.
    + pose proof (ws_head_shorter s r Hs) as Hshort.
      apply ws_head_Some in Hs as (t & Ht & ->).
      destruct (trimStart_split r) as (w & Hw & Hr).
      rewrite Hr at 1. rewrite <- app_assoc'.
      change (String " " ?x) with (" " +:+ x).
      constructor.
      * apply blank_app; [by apply blank_token | done].
      * intros [Hne _]%append_empty_inv. by apply (token_not_empty t).
      * intros t' r' Ht'. apply ws_head_None; [apply ws_head_trimStart | done].
      * apply IH. pose proof (trimStart_length r). lia.
    + destruct s as [|c r]; [constructor |].
      constructor.
      * intros t r' Ht. by apply ws_head_None.
      * apply IH. simpl in Hlen. lia.
Qed.

(** [collapse_ws] replaces every run of white space by one space. *)
Lemma collapse_ws_collapsed s : collapsed s (collapse_ws s).
Proof. by apply collapse_from_collapsed. Qed.

(** *** Numerals *)

Lemma uint_digits d :
  every (fun c => existsb (Ascii.eqb c) (list_ascii_of_string "0123456789"))
    (NilEmpty.string_of_uint d) = true.
Proof. induction d; simpl; done. Qed.

Lemma decimal_digits z :
  every (fun c => existsb (Ascii.eqb c) (list_ascii_of_string "-0123456789")) (decimal z)
  = true.
Proof.
  assert (Hu : forall d,
             every (fun c => existsb (Ascii.eqb c) (list_ascii_of_string "-0123456789"))
               (NilZero.string_of_uint d) = true).
  { intros d. destruct d; try done; simpl;
      match goal with |- every _ (NilEmpty.string_of_uint ?d) = true =>
        induction d; simpl; done end. }
  unfold decimal. destruct (Z.to_int z); simpl; apply Hu.
Qed.

Lemma decimal_not_empty z : decimal z <> "".
Proof.
  unfold decimal. destruct (Z.to_int z) as [d | d]; simpl; [| done].
  destruct d; done.
Qed.

Lemma decimal_clean z : clean (decimal z).
Proof.
  eapply every_clean; [| apply decimal_digits].
  unfold white_space. intros t Hin.
  repeat (apply elem_of_cons in Hin as [-> | Hin]; [reflexivity |]).
  by apply elem_of_nil in Hin.
Qed.

Lemma decimal_ascii z : every is_ascii (decimal z) = true.
Proof.
  pose proof (decimal_digits z) as H. induction (decimal z) as [|c r IH]; [done |].
  simpl in *. apply andb_prop in H as [Hc Hr]. rewrite IH by done.
  rewrite andb_true_r.
  repeat (apply orb_prop in Hc as [Hc | Hc]; [apply Ascii.eqb_eq in Hc as ->; reflexivity |]).
  done.
Qed.

Lemma decimal_caseless z : every caseless (decimal z) = true.
Proof.
  pose proof (decimal_digits z) as H. induction (decimal z) as [|c r IH]; [done |].
  simpl in *. apply andb_prop in H as [Hc Hr]. rewrite IH by done.
  rewrite andb_true_r.
  repeat (apply orb_prop in Hc as [Hc | Hc]; [apply Ascii.eqb_eq in Hc as ->; reflexivity |]).
  done.
Qed.

Lemma trim_decimal z : trim (decimal z) = decimal z.
Proof. apply trim_fixed, decimal_clean. Qed.

Lemma lower_letters_decimal z : lower_letters (decimal z) = decimal z.
Proof. apply every_caseless_fixed, decimal_caseless. Qed.

(** The numeral of an integer is the one string that reads as it. *)
Lemma decimal_reads z x : NilZero.int_of_string x = Some (Z.to_int z) <-> x = decimal z.
Proof.
  unfold decimal. split.
  - intros Hx. symmetry. by apply NilZero.sis.
  - intros ->. apply NilZero.isi; destruct z as [|p|p]; simpl; try done.
    + intros [= Hp]. by apply (DecimalPos.Unsigned.to_uint_nonnil p).
    + intros [= Hp]. by apply (DecimalPos.Unsigned.to_uint_nonnil p).
Qed.

(** A string that folds to a string without letters is that string. *)
Lemma lower_letters_caseless s x :
  every caseless x = true -> lower_letters s = x -> s = x.
Proof.
  revert x. induction s as [|c r IH]; intros [|a x]; simpl; try done.
  intros [Ha Hx]%andb_prop [= Hc Hr]. f_equal; [| by apply IH].
  subst a. revert Ha.
  destruct c as [[] [] [] [] [] [] [] []]; try reflexivity; discriminate.
Qed.


(** *** Code units *)

Lemma begins_spec q l : begins q l = true <-> exists b, l = q ++ b.
Proof.
  revert l. induction q as [|a q IH]; intros l; simpl.
  - split; [by exists l | done].
  - destruct l as [|b l]; [split; [done | by intros (? & [=])] |].
    rewrite andb_true_iff, N.eqb_eq, IH. split.
    + intros [-> (x & ->)]. by exists x.
    + intros (x & [= -> ->]). split; [done | by exists x].
Qed.

(** [occurs_in] holds of the lists in which [q] occurs. *)
Lemma occurs_in_spec q l : occurs_in q l = true <-> exists a b, l = a ++ q ++ b.
Proof.
  induction l as [|x l IH]; cbn [occurs_in].
  - destruct (begins q []) eqn:Hb.
    + split; [| done]. intros _. apply begins_spec in Hb as (b & Hb). by exists [], b.
    + split; [done |]. intros (a & b & Heq).
      symmetry in Heq. apply app_eq_nil in Heq as [-> Heq].
      assert (begins q [] = true) by (apply begins_spec; by exists b). congruence.
  - destruct (begins q (x :: l)) eqn:Hb.
    + split; [| done]. intros _. apply begins_spec in Hb as (b & Hb). by exists [], b.
    + rewrite IH. split.
      * intros (a & b & ->). by exists (x :: a), b.
      * intros (a & b & Heq). destruct a as [|y a].
        -- simpl in Heq.
           assert (begins q (x :: l) = true) by (apply begins_spec; by exists b).
           congruence.
        -- injection Heq as -> ->. by exists a, b.
Qed.

Lemma announced_continuation c : is_continuation c = true -> announced c = 1%nat.
Proof. by destruct c as [? ? ? [] [] [] [] []]. Qed.

Lemma slice_from_follows n k s : follows (slice_from n k s) s.
Proof.
  revert n k. induction s as [|c r IH]; intros n k; [constructor |].
  destruct k as [|k]; cbn [slice_from].
  - destruct (units (width (String c r)) <=? n)%nat; [by constructor 3 |].
    destruct (n =? 1)%nat; [| constructor].
    unfold high_surrogate. destruct r as [|c1 [|c2 r2]]; try constructor. done.
  - by constructor 3.
Qed.

Lemma width_follows c x r :
  follows x r -> width (String c r) = 1%nat -> width (String c x) = 1%nat.
Proof.
  intros Hx. unfold width.
  destruct (announced c) as [|[|[|[|[|?]]]]] eqn:Ha;
    try by (intros _; destruct x as [|? [|? [|? ?]]]).
  - (* two bytes *)
    inversion Hx as [| c1 x' ? Hc1 | c1 x' r' Hx']; subst; [done | by rewrite Hc1 |].
    by destruct (is_continuation c1).
  - (* three bytes *)
    inversion Hx as [| c1 x' ? Hc1 | c1 x' r' Hx']; subst; [done | |].
    { destruct x' as [|? ?]; [done |]. by rewrite Hc1. }
    inversion Hx' as [| c2 x'' ? Hc2 | c2 x'' r'' Hx'']; subst; [done | |].
    { intros _. by rewrite Hc2, andb_false_r. }
    done.
  - (* four bytes *)
    inversion Hx as [| c1 x' ? Hc1 | c1 x' r' Hx']; subst; [done | |].
    { destruct x' as [|? [|? ?]]; [done | done |]. by rewrite Hc1. }
    inversion Hx' as [| c2 x'' ? Hc2 | c2 x'' r'' Hx'']; subst; [done | |].
    { destruct x'' as [|? ?]; [done |]. intros _. by rewrite Hc2, andb_false_r. }
    inversion Hx'' as [| c3 x3 ? Hc3 | c3 x3 r3 Hx3]; subst; [done | |].
    { intros _. by rewrite Hc3, andb_false_r. }
    done.
Qed.


Lemma width_slice c r m :
  width (String c (slice_from m (width (String c r) - 1) r)) = width (String c r).
Proof.
  destruct (decide (width (String c r) = 1%nat)) as [H1 | H1].
  - rewrite H1. apply (width_follows c _ r); [apply slice_from_follows | done].
  - revert H1. unfold width.
    destruct r as [|c1 [|c2 [|c3 r3]]];
      destruct (announced c) as [|[|[|[|[|?]]]]]; try done;
      repeat (simpl;
              match goal with
              | H : ?b = _ |- context [if ?b then _ else _] => rewrite H
              | |- context [if ?b then _ else _] => destruct b eqn:?
              end); done.
Qed.

Lemma width_cases s : width s = 1%nat \/ width s = 2%nat \/ width s = 3%nat \/ width s = 4%nat.
Proof.
  unfold width. destruct s as [|c [|c1 [|c2 [|c3 r3]]]]; auto;
    destruct (announced c) as [|[|[|[|[|?]]]]]; auto;
    repeat match goal with
           | |- context [if ?b then _ else _] => destruct b
           end; auto.
Qed.

Lemma head_units_slice c r m :
  head_units (String c (slice_from m (width (String c r) - 1) r)) = head_units (String c r).
Proof.
  unfold head_units. rewrite width_slice.
  destruct (width (String c r)) as [|[|[|[|[|?]]]]] eqn:Hw; try done; revert Hw;
    unfold width; destruct r as [|c1 [|c2 [|c3 r3]]]; try done;
    destruct (announced c) as [|[|[|[|[|?]]]]]; try done;
    repeat match goal with
           | |- context [if ?b then _ else _] => destruct b
           end; done.
Qed.

Lemma head_units_length c r :
  length (head_units (String c r)) = units (width (String c r)).
Proof.
  unfold head_units.
  destruct (width (String c r)) as [|[|[|[|[|?]]]]] eqn:Hw; try done; revert Hw;
    unfold width; destruct r as [|c1 [|c2 [|c3 r3]]]; try done;
    destruct (announced c) as [|[|[|[|[|?]]]]]; try done;
    repeat match goal with
           | |- context [if ?b then _ else _] => destruct b
           end; done.
Qed.

Lemma low_bits_bound k c : (k <= 6)%nat -> (low_bits k c < 2 ^ N.of_nat k)%N.
Proof.
  intros Hk. destruct c as [b0 b1 b2 b3 b4 b5 b6 b7].
  do 7 (destruct k as [|k]; [destruct b0, b1, b2, b3, b4, b5; by vm_compute |]). lia.
Qed.

Lemma bits_of_number (u : N) (b6 b7 : bool) :
  (u < 64)%N ->
  low_bits 6 (Ascii (N.testbit u 0) (N.testbit u 1) (N.testbit u 2) (N.testbit u 3)
                (N.testbit u 4) (N.testbit u 5) b6 b7) = u.
Proof.
  intros Hu. destruct u as [|p]; [reflexivity |].
  do 6 (destruct p as [p | p |]; try reflexivity; try (exfalso; lia)).
Qed.

Lemma bits_of_small_number (u : N) :
  (u < 16)%N ->
  low_bits 6 (Ascii (N.testbit u 0) (N.testbit u 1) (N.testbit u 2) (N.testbit u 3)
                false true false true) = (32 + u)%N.
Proof.
  intros Hu. destruct u as [|p]; [reflexivity |].
  do 4 (destruct p as [p | p |]; try reflexivity; try (exfalso; lia)).
Qed.

(** The high surrogate of a character of four bytes is the first of its
    two code units. *)
Lemma code_units_high_surrogate c r :
  width (String c r) = 4%nat ->
  code_units (high_surrogate (String c r)) = take 1 (head_units (String c r)).
Proof.
  intros Hw. unfold head_units. rewrite Hw. revert Hw. unfold width.
  destruct r as [|c1 [|c2 [|c3 r3]]]; try done;
    try (destruct (announced c) as [|[|[|[|[|?]]]]]; try done;
         repeat match goal with
                | |- context [if ?b then _ else _] => destruct b
                end; done).
  destruct (announced c) as [|[|[|[|[|?]]]]]; try done;
    try (repeat match goal with
                | |- context [if ?b then _ else _] => destruct b
                end; done).
  destruct (is_continuation c1 && is_continuation c2 && is_continuation c3
            && (0 <? plane c c1)%N) eqn:Hc; [| done].
  destruct (plane c c1 <=? 16)%N eqn:Hp; [| done]. intros _.
  apply N.leb_le in Hp. apply andb_prop in Hc as [_ Hpos%N.ltb_lt].
  assert (Hx : (below_plane c1 c2 < 64)%N).
  { unfold below_plane.
    pose proof (low_bits_bound 4 c1 ltac:(lia)) as H4.
    pose proof (low_bits_bound 6 c2 ltac:(lia)) as H6.
    change (2 ^ N.of_nat 4)%N with 16%N in H4. change (2 ^ N.of_nat 6)%N with 64%N in H6.
    assert (low_bits 6 c2 / 16 < 4)%N by (apply N.Div0.div_lt_upper_bound; lia). lia. }
  unfold high_surrogate, code_units. cbn [code_units_from].
  unfold head_units, width. cbn [announced is_continuation andb].
  cbn [code_units_from app Nat.sub take].
  rewrite bits_of_small_number by lia. rewrite bits_of_number by done.
  change (low_bits 4 "237") with 13%N. f_equal. lia.
Qed.

(** [slice0] keeps the first code units. *)
Lemma code_units_slice_from n k s :
  code_units_from k (slice_from n k s) = take n (code_units_from k s).
Proof.
  revert n k. induction s as [|c r IH]; intros n k; [by destruct n, k |].
  destruct k as [|k]; cbn [slice_from code_units_from]; [| apply IH].
  pose proof (head_units_length c r) as Hlen.
  destruct (units (width (String c r)) <=? n)%nat eqn:Hfit.
  - apply Nat.leb_le in Hfit. cbn [code_units_from].
    rewrite width_slice, head_units_slice, IH.
    rewrite take_app_ge by lia. by rewrite Hlen.
  - apply Nat.leb_gt in Hfit.
    destruct n as [|n]; [done |].
    assert (Hw : width (String c r) = 4%nat /\ n = 0%nat).
    { unfold units in Hfit. destruct (width (String c r) =? 4)%nat eqn:H4.
      - apply Nat.eqb_eq in H4. split; [done | lia].
      - lia. }
    destruct Hw as [Hw ->]; cbn [Nat.eqb].
    change (code_units_from 0 ?x) with (code_units x).
    rewrite code_units_high_surrogate by done.
    rewrite take_app_le; [done |]. rewrite Hlen, Hw. vm_compute. lia.
Qed.

Lemma code_units_slice0 n s : code_units (slice0 n s) = take n (code_units s).
Proof. apply code_units_slice_from. Qed.

Lemma length_slice0 n s : (length_utf16 (slice0 n s) <= n)%nat.
Proof. unfold length_utf16. rewrite code_units_slice0, length_take. lia. Qed.

End StringFacts.

(** ** The allow-list *)

Section AllowlistFacts.

Context (E : Engine).

Implicit Types (allowFrom : list AllowEntry) (x senderId : string)
  (senderName : option string).

Lemma toLowerCase_ascii s : every is_ascii s = true -> toLowerCase E s = lower_letters s.
Proof. intros Hs. unfold toLowerCase. by rewrite Hs. Qed.

Lemma includes_listed allowFrom x :
  includes (List.filter truthy_str (map (normalizeEntry E) allowFrom)) x = true
  <-> listed E allowFrom x.
Proof.
  rewrite includes_true, list_elem_of_In, filter_In, in_map_iff, truthy_str_true.
  unfold listed, normalizeEntry. split.
  - intros [(entry & He & Hin) Hx]. split; [done |].
    exists entry, (trim (String_ E entry)).
    split; [by rewrite list_elem_of_In |]. split; [apply stripped_trim | done].
  - intros [Hx (entry & s & Hin & Hs%trim_stripped & He)]. split; [| done].
    exists entry. rewrite Hs. by rewrite <- list_elem_of_In.
Qed.

Lemma not_includes_listed allowFrom x :
  includes (List.filter truthy_str (map (normalizeEntry E) allowFrom)) x = false
  <-> ~ listed E allowFrom x.
Proof. rewrite <- includes_listed. destruct (includes _ x); split; congruence. Qed.

Lemma nothing_listed allowFrom x :
  List.filter truthy_str (map (normalizeEntry E) allowFrom) = [] -> ~ listed E allowFrom x.
Proof.
  intros Hnil Hl. apply includes_listed in Hl. rewrite Hnil in Hl. discriminate.
Qed.

(** The decision table of [resolveFeishuAllowlistMatch]. *)
Lemma allowlist_cases allowFrom senderId senderName :
  let r := resolveFeishuAllowlistMatch E allowFrom senderId senderName in
  let id := toLowerCase E senderId in
  (listed E allowFrom "*" /\ r = wildcard_match)
  \/ (~ listed E allowFrom "*" /\ listed E allowFrom id /\ r = id_match id)
  \/ (~ listed E allowFrom "*" /\ ~ listed E allowFrom id /\
      exists n, senderName = Some n /\ listed E allowFrom (toLowerCase E n) /\
                r = name_match (toLowerCase E n))
  \/ (~ listed E allowFrom "*" /\ ~ listed E allowFrom id /\
      (forall n, senderName = Some n -> ~ listed E allowFrom (toLowerCase E n)) /\
      r = not_allowed).
Proof.
  intros r id. subst r id. unfold resolveFeishuAllowlistMatch.
  set (norm := List.filter truthy_str (map (normalizeEntry E) allowFrom)).
  destruct (length norm =? 0)%nat eqn:Hlen.
  { apply Nat.eqb_eq, length_zero_iff_nil in Hlen.
    right; right; right.
    split; [by apply nothing_listed |].
    split; [by apply nothing_listed |].
    split; [| done]. intros n _. by apply nothing_listed. }
  destruct (includes norm "*") eqn:Hstar.
  { left. split; [by apply includes_listed | done]. }
  apply not_includes_listed in Hstar.
  destruct (includes norm (toLowerCase E senderId)) eqn:Hid.
  { right; left. split; [done |]. split; [by apply includes_listed | done]. }
  apply not_includes_listed in Hid.
  destruct senderName as [n|]; simpl.
  - destruct (truthy_str (toLowerCase E n) && includes norm (toLowerCase E n)) eqn:Hn.
    + apply andb_prop in Hn as [_ Hn]. apply includes_listed in Hn.
      right; right; left. split; [done |]. split; [done |]. by exists n.
    + right; right; right. split; [done |]. split; [done |]. split; [| done].
      intros n' [= <-] Hl.
      assert (Hin : includes norm (toLowerCase E n) = true)
        by (by apply includes_listed).
      destruct Hl as [Hne _].
      apply truthy_str_true in Hne. rewrite Hne, Hin in Hn. discriminate.
  - right; right; right. split; [done |]. split; [done |]. split; [| done].
    intros n [=].
Qed.

Lemma allowlist_normalized allowFrom allowFrom' senderId senderName :
  map (normalizeEntry E) allowFrom = map (normalizeEntry E) allowFrom' ->
  resolveFeishuAllowlistMatch E allowFrom senderId senderName
  = resolveFeishuAllowlistMatch E allowFrom' senderId senderName.
Proof. intros Heq. unfold resolveFeishuAllowlistMatch. by rewrite Heq. Qed.

Lemma blank_entries_filtered allowFrom :
  Forall (fun entry => blank (String_ E entry)) allowFrom ->
  List.filter truthy_str (map (normalizeEntry E) allowFrom) = [].
Proof.
  induction 1 as [|entry rest Hentry _ IH]; simpl; [done |].
  apply trim_blank in Hentry.
  unfold normalizeEntry at 1. rewrite Hentry. simpl. exact IH.
Qed.

Lemma normalizeEntry_padding pre s post :
  blank pre -> blank post ->
  normalizeEntry E (EntryStr (pre +:+ s +:+ post)) = normalizeEntry E (EntryStr s).
Proof. intros Hpre Hpost. unfold normalizeEntry. simpl. by rewrite trim_padding. Qed.

Lemma toLowerCase_same_letters s s' :
  every is_ascii s = true -> same_letters s s' -> toLowerCase E s = toLowerCase E s'.
Proof.
  intros Hs Hsame. rewrite !toLowerCase_ascii; [by apply same_letters_lower | | done].
  by rewrite <- (same_letters_ascii s s').
Qed.

Lemma normalizeEntry_case s s' :
  every is_ascii s = true -> same_letters s s' ->
  normalizeEntry E (EntryStr s) = normalizeEntry E (EntryStr s').
Proof.
  intros Hs Hsame. unfold normalizeEntry. simpl.
  assert (Hs' : every is_ascii s' = true) by by rewrite <- (same_letters_ascii s s').
  rewrite !toLowerCase_ascii by by apply every_trim.
  by rewrite <- !lower_letters_trim, (same_letters_lower s s').
Qed.

Lemma normalizeEntry_number n :
  is_safe_integer n = true -> normalizeEntry E (EntryNum n) = decimal n.
Proof.
  intros Hn. unfold normalizeEntry. simpl. unfold String_of_number. rewrite Hn.
  rewrite trim_decimal, toLowerCase_ascii by apply decimal_ascii.
  apply lower_letters_decimal.
Qed.

Lemma allowlist_entry_replaced before entry entry' after senderId senderName :
  normalizeEntry E entry = normalizeEntry E entry' ->
  resolveFeishuAllowlistMatch E (before ++ entry :: after) senderId senderName
  = resolveFeishuAllowlistMatch E (before ++ entry' :: after) senderId senderName.
Proof. intros Heq. apply allowlist_normalized. by rewrite !map_app, !map_cons, Heq. Qed.

Lemma decimal_not_wildcard n : decimal n <> "*".
Proof. intros Heq. pose proof (decimal_digits n) as Hd. by rewrite Heq in Hd. Qed.

(** A list of one number allows the senders whose id reads as the number. *)
Lemma allowlist_of_a_number n senderId :
  is_safe_integer n = true -> every is_ascii senderId = true ->
  allowed (resolveFeishuAllowlistMatch E [EntryNum n] senderId None) = true
  <-> NilZero.int_of_string senderId = Some (Z.to_int n).
Proof.
  intros Hn Hid. rewrite decimal_reads.
  unfold resolveFeishuAllowlistMatch. cbn [map]. rewrite normalizeEntry_number by done.
  cbn [List.filter]. pose proof (decimal_not_empty n) as Hne%truthy_str_true.
  rewrite Hne. cbn [length Nat.eqb].
  assert (Hstar : includes [decimal n] "*" = false).
  { apply includes_false. intros [Heq | Hin]%elem_of_cons.
    - by apply (decimal_not_wildcard n).
    - by apply elem_of_nil in Hin. }
  rewrite Hstar, toLowerCase_ascii by done. cbn [option_map].
  destruct (includes [decimal n] (lower_letters senderId)) eqn:Hin; simpl.
  - split; [| done]. intros _. apply includes_true in Hin.
    apply elem_of_cons in Hin as [Heq | Hin]; [| by apply elem_of_nil in Hin].
    apply (lower_letters_caseless _ _ (decimal_caseless n) Heq).
  - split; [done |]. intros ->. apply includes_false in Hin. destruct Hin.
    rewrite lower_letters_decimal. by left.
Qed.

End AllowlistFacts.

(** C4. [resolveFeishuAllowlistMatch] ranks wildcard over id over name: when
    the list holds ["*"] the result is the wildcard match whatever else is
    listed; otherwise a sender id that is listed is reported as an id
    match; otherwise a sender name that is listed is reported as a name
    match; otherwise the sender is not allowed.  An entry lists what it is
    without the white space around it and in lower case, the id and the
    name are looked up in lower case: white space around an entry, of
    Unicode too, changes nothing, and neither does the case of the ASCII
    letters of an entry, of the id or of the name.  With
    [allowFrom = ["*"; "alice"]] every sender matches through the
    wildcard. *)
Theorem allowlist_precedence (E : Engine) :
  (forall allowFrom senderId senderName,
     let r := resolveFeishuAllowlistMatch E allowFrom senderId senderName in
     let id := toLowerCase E senderId in
     (listed E allowFrom "*" /\ r = wildcard_match)
     \/ (~ listed E allowFrom "*" /\ listed E allowFrom id /\ r = id_match id)
     \/ (~ listed E allowFrom "*" /\ ~ listed E allowFrom id /\
         exists n, senderName = Some n /\ listed E allowFrom (toLowerCase E n) /\
                   r = name_match (toLowerCase E n))
     \/ (~ listed E allowFrom "*" /\ ~ listed E allowFrom id /\
         (forall n, senderName = Some n -> ~ listed E allowFrom (toLowerCase E n)) /\
         r = not_allowed))
  /\ (forall senderId senderName,
        resolveFeishuAllowlistMatch E [EntryStr "*"; EntryStr "alice"] senderId senderName
        = wildcard_match)
  /\ (forall before pre s post after senderId senderName,
        blank pre -> blank post ->
        resolveFeishuAllowlistMatch E (before ++ EntryStr (pre +:+ s +:+ post) :: after)
          senderId senderName
        = resolveFeishuAllowlistMatch E (before ++ EntryStr s :: after) senderId senderName)
  /\ (forall before s s' after senderId senderName,
        every is_ascii s = true -> same_letters s s' ->
        resolveFeishuAllowlistMatch E (before ++ EntryStr s :: after) senderId senderName
        = resolveFeishuAllowlistMatch E (before ++ EntryStr s' :: after) senderId senderName)
  /\ (forall allowFrom senderId senderId' senderName,
        every is_ascii senderId = true -> same_letters senderId senderId' ->
        resolveFeishuAllowlistMatch E allowFrom senderId senderName
        = resolveFeishuAllowlistMatch E allowFrom senderId' senderName)
  /\ (forall allowFrom senderId n n',
        every is_ascii n = true -> same_letters n n' ->
        resolveFeishuAllowlistMatch E allowFrom senderId (Some n)
        = resolveFeishuAllowlistMatch E allowFrom senderId (Some n'))
  /\ resolveFeishuAllowlistMatch E
       [EntryStr (IDEOGRAPHIC_SPACE +:+ " Alice" +:+ NBSP)] "ALICE" (Some "Bob")
     = id_match "alice"
  /\ resolveFeishuAllowlistMatch E
       [EntryStr (IDEOGRAPHIC_SPACE +:+ " Alice" +:+ NBSP)] "ou_1" (Some "ALICE")
     = name_match "alice"
  /\ resolveFeishuAllowlistMatch E
       [EntryStr "alice"; EntryStr (LINE_SEPARATOR +:+ "*" +:+ IDEOGRAPHIC_SPACE)]
       "alice" (Some "alice")
     = wildcard_match.
Proof.
  split; [apply allowlist_cases |].
  split; [intros senderId senderName; reflexivity |].
  split.
  { intros before pre s post after senderId senderName Hpre Hpost.
    by apply allowlist_entry_replaced, normalizeEntry_padding. }
  split.
  { intros before s s' after senderId senderName Hs Hsame.
    by apply allowlist_entry_replaced, normalizeEntry_case. }
  split.
  { intros allowFrom senderId senderId' senderName Hs Hsame.
    unfold resolveFeishuAllowlistMatch.
    by rewrite (toLowerCase_same_letters E senderId senderId'). }
  split.
  { intros allowFrom senderId n n' Hs Hsame.
    unfold resolveFeishuAllowlistMatch. cbn [option_map].
    by rewrite (toLowerCase_same_letters E n n'). }
  split; [reflexivity |]. split; reflexivity.
Qed.

(** C10. An allow-list that is empty, or whose entries are all blank, of
    the white space of Unicode too, allows no sender, whatever the id and
    the name: under the [allowlist] policy such a list rejects every sender
    in a group, and in a direct message the handler stops at the gate.
    Entries are compared after [String], [trim] and [toLowerCase] only: two
    lists with the same normalised entries give the same result, white
    space around an entry and the case of its ASCII letters do not matter,
    and a number counts as its decimal numeral, so that a list of one
    number allows exactly the id that reads as the number. *)
Theorem blank_allowlist_rejects
    (E : Engine) (entries : list AllowEntry) (senderId : string)
    (senderName : option string)
    (Hblank : Forall (fun entry => blank (String_ E entry)) entries) :
  resolveFeishuAllowlistMatch E entries senderId senderName = not_allowed
  /\ isFeishuGroupAllowed E GroupAllowlist entries senderId senderName = false
  /\ (forall H cfg event botOpenId ctx feishuCfg st,
        parseFeishuMessageEvent E event botOpenId = Normal ctx ->
        chatType ctx = P2p ->
        channels_feishu cfg = Some feishuCfg ->
        dmPolicy feishuCfg = Some DmAllowlist ->
        default [] (allowFrom feishuCfg) = entries ->
        handleFeishuMessage E H cfg event botOpenId st
        = (Normal tt,
           {| chatHistories := chatHistories st;
              trace := trace st ++ [Log (LogReceived (senderOpenId ctx) (chatId ctx) P2p);
                                    Log (LogNotInDmAllowlist (senderOpenId ctx))] |}))
  /\ (forall l l' id name,
        map (normalizeEntry E) l = map (normalizeEntry E) l' ->
        resolveFeishuAllowlistMatch E l id name = resolveFeishuAllowlistMatch E l' id name)
  /\ (forall before pre s post after id name,
        blank pre -> blank post ->
        resolveFeishuAllowlistMatch E (before ++ EntryStr (pre +:+ s +:+ post) :: after) id name
        = resolveFeishuAllowlistMatch E (before ++ EntryStr s :: after) id name)
  /\ (forall before s s' after id name,
        every is_ascii s = true -> same_letters s s' ->
        resolveFeishuAllowlistMatch E (before ++ EntryStr s :: after) id name
        = resolveFeishuAllowlistMatch E (before ++ EntryStr s' :: after) id name)
  /\ (forall allowFrom id id' name,
        every is_ascii id = true -> same_letters id id' ->
        resolveFeishuAllowlistMatch E allowFrom id name
        = resolveFeishuAllowlistMatch E allowFrom id' name)
  /\ (forall before n after id name,
        is_safe_integer n = true ->
        resolveFeishuAllowlistMatch E (before ++ EntryNum n :: after) id name
        = resolveFeishuAllowlistMatch E (before ++ EntryStr (decimal n) :: after) id name)
  /\ (forall n id,
        is_safe_integer n = true -> every is_ascii id = true ->
        allowed (resolveFeishuAllowlistMatch E [EntryNum n] id None) = true
        <-> NilZero.int_of_string id = Some (Z.to_int n))
  /\ resolveFeishuAllowlistMatch E [EntryNum 42] "42" None = id_match "42"
  /\ resolveFeishuAllowlistMatch E [EntryNum (-7)] "7" None = not_allowed
  /\ resolveFeishuAllowlistMatch E [EntryStr (NBSP +:+ "Bob" +:+ IDEOGRAPHIC_SPACE)] "BOB" None
     = id_match "bob".
Proof.
  assert (Hnone : forall id name,
             resolveFeishuAllowlistMatch E entries id name = not_allowed).
  { intros id name. unfold resolveFeishuAllowlistMatch.
    by rewrite (blank_entries_filtered E entries Hblank). }
  split; [apply Hnone |].
  split; [simpl; by rewrite Hnone |].
  split.
  { intros H cfg event botOpenId ctx feishuCfg st Hparse Hp2p Hcfg Hpolicy Hallow.
    unfold handleFeishuMessage, bind, lift, log, emit.
    rewrite Hparse, Hp2p, Hcfg. simpl. rewrite Hpolicy. simpl.
    rewrite Hallow, Hnone. simpl. by rewrite <- app_assoc. }
  split; [apply allowlist_normalized |].
  split.
  { intros before pre s post after id name Hpre Hpost.
    by apply allowlist_entry_replaced, normalizeEntry_padding. }
  split.
  { intros before s s' after id name Hs Hsame.
    by apply allowlist_entry_replaced, normalizeEntry_case. }
  split.
  { intros allowFrom id id' name Hs Hsame. unfold resolveFeishuAllowlistMatch.
    by rewrite (toLowerCase_same_letters E id id'). }
  split.
  { intros before n after id name Hn. apply allowlist_entry_replaced.
    rewrite normalizeEntry_number by done. unfold normalizeEntry. simpl.
    rewrite trim_decimal, toLowerCase_ascii by apply decimal_ascii.
    by rewrite lower_letters_decimal. }
  split; [apply allowlist_of_a_number |].
  split; [reflexivity |]. split; reflexivity.
Qed.

Lemma blank_allowlist_rejects_witness :
  resolveFeishuAllowlistMatch Sample.engine
    [EntryStr (IDEOGRAPHIC_SPACE +:+ " "); EntryStr ""; EntryStr (LINE_SEPARATOR +:+ NBSP)]
    "ou_alice" (Some "Alice")
  = not_allowed.
Proof.
  refine (proj1 (blank_allowlist_rejects Sample.engine
                   [EntryStr (IDEOGRAPHIC_SPACE +:+ " "); EntryStr "";
                    EntryStr (LINE_SEPARATOR +:+ NBSP)]
                   "ou_alice" (Some "Alice") _)).
  repeat constructor; apply trim_blank; reflexivity.
Defined.

(** ** Mentions *)

(** C5. When the bot identifier is unknown ([botOpenId] is undefined, or
    the empty string, which the test [!botOpenId] does not tell apart) the
    flag is true exactly when the mention list is not empty; when it is known
    the flag is true exactly when some mention carries it as [open_id]. *)
Theorem mention_detection (event : FeishuMessageEvent) (botOpenId : option string) :
  let ms := default [] (mentions (message event)) in
  match botOpenId with
  | None => checkBotMentioned event botOpenId = true <-> ms <> []
  | Some bot =>
      if truthy_str bot
      then checkBotMentioned event botOpenId = true
           <-> exists m, m ∈ ms /\ open_id (mention_id m) = Some bot
      else checkBotMentioned event botOpenId = true <-> ms <> []
  end.
Proof.
  intros ms. unfold checkBotMentioned. fold ms.
  assert (Hany : (if (length ms =? 0)%nat then false else (0 <? length ms)%nat) = true
                 <-> ms <> []).
  { destruct ms; simpl; split; intros; done. }
  destruct botOpenId as [bot|]; [| exact Hany].
  destruct (truthy_str bot) eqn:Hbot; simpl; [| exact Hany].
  destruct (length ms =? 0)%nat eqn:Hlen.
  - apply Nat.eqb_eq, length_zero_iff_nil in Hlen. rewrite Hlen. split; [done |].
    intros (m & Hin & _). by apply elem_of_nil in Hin.
  - rewrite existsb_exists. split.
    + intros (m & Hin & Hm). exists m. split; [by apply list_elem_of_In |].
      by apply bool_decide_eq_true in Hm.
    + intros (m & Hin & Hm). exists m. split; [by apply list_elem_of_In |].
      by apply bool_decide_eq_true.
Qed.

(** ** Stripping mentions *)

Section Strip.

Context (E : Engine).

Lemma strip_mentions_trimmed mentions s result :
  mentions <> [] ->
  strip_mentions E s mentions = Normal result -> trim result = result.
Proof.
  revert s. induction mentions as [|m rest IH]; intros s Hne Hrun; [done |].
  simpl in Hrun.
  destruct (RegExp_replace_g E _ s) as [r1|] eqn:H1; simpl in Hrun; [| done].
  destruct (RegExp_replace_g E (mention_key m) (trim r1)) as [r2|] eqn:H2;
    simpl in Hrun; [| done].
  destruct rest as [|m' rest'].
  - simpl in Hrun. injection Hrun as <-. apply trim_idem.
  - by apply (IH (trim r2)).
Qed.

Lemma strip_mentions_settled mentions result :
  trim result = result ->
  Forall (settled E result) mentions ->
  strip_mentions E result mentions = Normal result.
Proof.
  intros Htrim. induction 1 as [|m rest [H1 H2] _ IH]; simpl; [done |].
  simpl in H1. rewrite H1. simpl. rewrite Htrim, H2. simpl. rewrite Htrim. exact IH.
Qed.

End Strip.

(** C6 does not hold as stated: one pass removes the matches present in its
    input, and a removal can bring a new match together.  The sender typed
    [@_us], mentioned the bot (key [@_user_1]) and typed [er_1 hi]: the
    first pass leaves [@_user_1 hi], a second pass leaves [hi]. *)
Lemma strip_not_idempotent :
  let ms := Some [Sample.mention "@_user_1" "ou_bot" "bot"] in
  stripBotMention Sample.engine (JStr "@_us@_user_1er_1 hi") ms = Normal (JStr "@_user_1 hi")
  /\ stripBotMention Sample.engine (JStr "@_user_1 hi") ms = Normal (JStr "hi")
  /\ ~ strip_idempotent_at Sample.engine "@_us@_user_1er_1 hi" ms.
Proof.
  split; [reflexivity |]. split; [reflexivity |].
  intros Hidem. specialize (Hidem "@_user_1 hi" eq_refl).
  vm_compute in Hidem. discriminate.
Qed.

(** C6, amended.  Without mentions the text is returned as it is.  With
    mentions the result is trimmed, and whenever the patterns of the
    mentions find nothing to remove in the result of the first pass, a
    second pass returns that result. *)
Theorem strip_idempotent_when_settled
    (E : Engine) (text once : string) (ms : option (list Mention))
    (Honce : stripBotMention E (JStr text) ms = Normal (JStr once))
    (Hsettled : Forall (settled E once) (default [] ms)) :
  stripBotMention E (JStr once) ms = Normal (JStr once)
  /\ (default [] ms = [] -> once = text)
  /\ (default [] ms <> [] -> trim once = once).
Proof.
  destruct ms as [[|m rest]|]; simpl in *.
  - injection Honce as <-. by repeat split.
  - destruct (RegExp_replace_g E _ text) as [r1|] eqn:H1; [| done].
    simpl in Honce.
    destruct (RegExp_replace_g E (mention_key m) (trim r1)) as [r2|] eqn:H2; [| done].
    simpl in Honce.
    destruct (strip_mentions E (trim r2) rest) as [r|] eqn:Hrest; [| done].
    simpl in Honce. injection Honce as ->.
    assert (Htrim : trim once = once).
    { apply (strip_mentions_trimmed E (m :: rest) text); [done |].
      simpl. rewrite H1. simpl. rewrite H2. simpl. exact Hrest. }
    split; [| by split].
    pose proof (strip_mentions_settled E (m :: rest) once Htrim Hsettled) as Hrun.
    simpl in Hrun. by rewrite Hrun.
  - injection Honce as <-. by repeat split.
Qed.

Lemma strip_idempotent_when_settled_witness :
  stripBotMention Sample.engine (JStr "hi  there")
    (Some [Sample.mention "@_user_1" "ou_bot" "bot"])
  = Normal (JStr "hi  there").
Proof.
  refine (proj1 (strip_idempotent_when_settled Sample.engine
                   "@bot   hi @_user_1 there" "hi  there"
                   (Some [Sample.mention "@_user_1" "ou_bot" "bot"]) _ _)).
  - reflexivity.
  - repeat constructor.
Defined.

(** ** Runs of the monad *)

Lemma bind_run {A B} (m : M A) (k : A -> M B) st :
  bind m k st
  = match m st with
    | (Normal a, st') => k a st'
    | (Throw e, st') => (Throw e, st')
    end.
Proof. reflexivity. Qed.

Lemma call_run {A} (c : HostCall) (r : Completion A) st :
  call c r st
  = (r, {| chatHistories := chatHistories st;
           trace := trace st ++ [Called c (is_normal r)] |}).
Proof. reflexivity. Qed.

Section Runs.

Context (P : Effect -> bool).

Lemma extends_refl st : extends P st st.
Proof. split; [done |]. exists []. by rewrite app_nil_r. Qed.

Lemma extends_trans st1 st2 st3 :
  extends P st1 st2 -> extends P st2 st3 -> extends P st1 st3.
Proof.
  intros [Hh1 (n1 & Ht1 & Hp1)] [Hh2 (n2 & Ht2 & Hp2)]. split; [congruence |].
  exists (n1 ++ n2). split.
  - by rewrite Ht2, Ht1, <- app_assoc.
  - by rewrite forallb_app, Hp1, Hp2.
Qed.

Lemma quiet_ret {A} (a : A) : quiet P (ret a).
Proof. intros st. apply extends_refl. Qed.

Lemma quiet_lift {A} (c : Completion A) : quiet P (lift c).
Proof. intros st. apply extends_refl. Qed.

Lemma quiet_read : quiet P read_histories.
Proof. intros st. apply extends_refl. Qed.

Lemma quiet_emit e : P e = true -> quiet P (emit e).
Proof.
  intros He st. split; [done |]. exists [e]. simpl. by rewrite He.
Qed.

Lemma quiet_log line : P (Log line) = true -> quiet P (log line).
Proof. apply quiet_emit. Qed.

Lemma quiet_bind {A B} (m : M A) (k : A -> M B) :
  quiet P m -> (forall a, quiet P (k a)) -> quiet P (bind m k).
Proof.
  intros Hm Hk st. unfold bind. specialize (Hm st).
  destruct (m st) as [[a|e] st1]; simpl in *; [| exact Hm].
  eapply extends_trans; [exact Hm | apply Hk].
Qed.

Lemma quiet_try_catch {A} (m : M A) (h : JsError -> M A) :
  quiet P m -> (forall e, quiet P (h e)) -> quiet P (try_catch m h).
Proof.
  intros Hm Hh st. unfold try_catch. specialize (Hm st).
  destruct (m st) as [[a|e] st1]; simpl in *; [exact Hm |].
  eapply extends_trans; [exact Hm | apply Hh].
Qed.

Lemma quiet_call {A} c (r : Completion A) :
  (forall ok, P (Called c ok) = true) -> quiet P (call c r).
Proof.
  intros Hc. unfold call. apply quiet_bind; [by apply quiet_emit |].
  intros _. apply quiet_lift.
Qed.

Lemma quiet_for_each {A} (xs : list A) (body : A -> M unit) :
  (forall x, quiet P (body x)) -> quiet P (for_each xs body).
Proof.
  intros Hbody. induction xs as [|x rest IH]; simpl; [apply quiet_ret |].
  apply quiet_bind; [apply Hbody | intros _; exact IH].
Qed.

End Runs.

(** Breaks a computation into its statements. *)
Ltac quiet_steps :=
  repeat first
    [ apply quiet_ret
    | apply quiet_lift
    | apply quiet_read
    | apply quiet_log; reflexivity
    | apply quiet_emit; reflexivity
    | apply quiet_call; intros; reflexivity
    | apply quiet_bind; [| intros]
    | apply quiet_try_catch; [| intros]
    | match goal with
      | |- quiet _ (match ?x with _ => _ end) => destruct x
      end ].

(** Runs the statements whose outcome is known. *)
Ltac run_steps :=
  repeat first
    [ rewrite bind_run
    | progress unfold emit, lift, log, ret, call, try_catch, read_histories
    | progress simpl ].

(** The same, leaving the collaborator calls folded. *)
Ltac run_logs :=
  repeat first
    [ rewrite bind_run
    | progress unfold emit, lift, log, ret
    | progress simpl ].

Lemma quiet_weaken {A} (P Q : Effect -> bool) (m : M A) :
  (forall e, P e = true -> Q e = true) -> quiet P m -> quiet Q m.
Proof.
  intros HPQ Hm st. destruct (Hm st) as [Hh (new & Ht & Hp)].
  split; [done |]. exists new. split; [done |].
  apply forallb_forall. intros e He. apply HPQ.
  by apply (proj1 (forallb_forall P new) Hp).
Qed.

Section HandlerRuns.

Context (E : Engine) (H : Host).

Lemma resolve_embedded_images_quiet messageId maxBytes out keys :
  quiet media_event (resolve_embedded_images H messageId maxBytes out keys).
Proof.
  revert out. induction keys as [|key rest IH]; intros out; simpl.
  - apply quiet_ret.
  - apply quiet_bind; [| intros; apply IH].
    unfold resolve_embedded_image. quiet_steps.
Qed.

Lemma resolveFeishuMediaList_quiet messageId messageType content maxBytes :
  quiet media_event (resolveFeishuMediaList E H messageId messageType content maxBytes).
Proof.
  unfold resolveFeishuMediaList.
  destruct (negb (includes mediaTypes messageType)); [apply quiet_ret |].
  destruct (String.eqb messageType "post").
  - destruct (length _ =? 0)%nat; [apply quiet_ret |].
    apply quiet_bind; [by apply quiet_log |].
    intros _. apply resolve_embedded_images_quiet.
  - destruct (negb _ && negb _); [apply quiet_ret |].
    cbv zeta. quiet_steps.
Qed.

Lemma createFeishuReplyDispatcher_quiet P agentId chatId replyTo :
  quiet P (createFeishuReplyDispatcher H agentId chatId replyTo).
Proof. unfold createFeishuReplyDispatcher. quiet_steps. Qed.

Lemma handleFeishuMessage_prepare_quiet cfg event ctx historyLimit :
  quiet prepare_event (handleFeishuMessage_prepare E H cfg event ctx historyLimit).
Proof.
  unfold handleFeishuMessage_prepare. cbv zeta.
  apply quiet_bind; [apply quiet_lift | intros route].
  apply quiet_bind; [apply quiet_lift | intros text].
  apply quiet_bind; [by apply quiet_call | intros _].
  apply quiet_bind.
  { apply (quiet_weaken media_event); [| apply resolveFeishuMediaList_quiet].
    intros e He. unfold prepare_event. rewrite He. by destruct e as [[]| |[]]. }
  intros mediaList.
  apply quiet_bind; [quiet_steps | intros quotedContent].
  apply quiet_bind; [apply quiet_lift | intros envelopeOptions].
  apply quiet_bind; [apply quiet_lift | intros body].
  apply quiet_bind; [apply quiet_read | intros histories].
  apply quiet_bind; [quiet_steps | intros combinedBody].
  apply quiet_bind; [apply quiet_lift | intros ctxPayload].
  apply quiet_bind; [apply createFeishuReplyDispatcher_quiet | intros dispatcher].
  apply quiet_bind; [by apply quiet_log | intros _].
  apply quiet_ret.
Qed.

End HandlerRuns.

(** ** The gate of the handler *)

Section Gate.

Context (E : Engine) (H : Host).

Lemma isFeishuGroupAllowed_accepts policy allowFrom senderId senderName :
  isFeishuGroupAllowed E policy allowFrom senderId senderName = true
  <-> group_accepts E policy allowFrom senderId senderName.
Proof.
  destruct policy; simpl; [done | | done].
  unfold sender_listed.
  destruct (allowlist_cases E allowFrom senderId senderName)
    as [[Hw ->] | [(Hw & Hi & ->) | [(Hw & Hi & n & -> & Hn & ->) | (Hw & Hi & Hn & ->)]]];
    simpl.
  - split; [by left | done].
  - split; [by right; left | done].
  - split; [right; right; by exists n | done].
  - split; [done |]. intros [? | [? | (n & Hname & ?)]]; [done | done |].
    by destruct (Hn n Hname).
Qed.

Lemma added_app st new lines :
  added st {| chatHistories := lines; trace := trace st ++ new |} = new.
Proof. unfold added. simpl. by rewrite drop_app_length. Qed.

(** The handler, for a group event, up to the gate. *)
Lemma handleFeishuMessage_group cfg event botOpenId ctx st :
  parseFeishuMessageEvent E event botOpenId = Normal ctx ->
  chatType ctx = Group ->
  let st1 := logged st [LogReceived (senderOpenId ctx) (chatId ctx) Group] in
  handleFeishuMessage E H cfg event botOpenId st
  = if negb (isFeishuGroupAllowed E (group_policy_of cfg)
               (effective_allow_list E cfg (chatId ctx)) (senderOpenId ctx) (senderName ctx))
    then log (LogNotInGroupAllowlist (senderOpenId ctx)) st1
    else if mention_required E cfg (chatId ctx) && negb (mentionedBot ctx)
    then (log (LogNoMentionRecording (chatId ctx));;
          history_call
            (RecordPendingHistoryEntry (chatId ctx) (resolve_historyLimit H cfg)
               (history_entry H ctx))
            (fun historyMap =>
               recordPendingHistoryEntryIfEnabled historyMap (chatId ctx)
                 (resolve_historyLimit H cfg) (history_entry H ctx))) st1
    else try_catch (handleFeishuMessage_try E H cfg event ctx (resolve_historyLimit H cfg))
           (fun err => emit (LogFailedToDispatch err)) st1.
Proof.
  intros Hparse Hgroup st1.
  unfold handleFeishuMessage. unfold bind at 1. unfold lift at 1. rewrite Hparse.
  unfold bind at 1. unfold log at 1, emit at 1. rewrite Hgroup. simpl.
  fold st1.
  replace (default GroupOpen (channels_feishu cfg ≫= groupPolicy))
    with (group_policy_of cfg)
    by (unfold group_policy_of; by destruct (channels_feishu cfg ≫= groupPolicy)).
  replace (default (default [] (channels_feishu cfg ≫= groupAllowFrom))
             (resolveFeishuGroupConfig E (channels_feishu cfg) (Some (chatId ctx))
                ≫= group_allowFrom))
    with (effective_allow_list E cfg (chatId ctx)).
  2:{ unfold effective_allow_list, group_of.
      destruct (_ ≫= group_allowFrom); [done |].
      by destruct (channels_feishu cfg ≫= groupAllowFrom). }
  replace (resolveFeishuReplyPolicy false (channels_feishu cfg)
             (resolveFeishuGroupConfig E (channels_feishu cfg) (Some (chatId ctx))))
    with (mention_required E cfg (chatId ctx)) by done.
  fold (group_of E cfg (chatId ctx)). fold (mention_required E cfg (chatId ctx)).
  destruct (negb _); [done |].
  by destruct (mention_required E cfg (chatId ctx) && negb (mentionedBot ctx)).
Qed.

(** The [try] block and its [catch], from any state. *)
Lemma dispatch_run cfg event ctx st :
  let limit := resolve_historyLimit H cfg in
  let run := try_catch (handleFeishuMessage_try E H cfg event ctx limit)
               (fun err => emit (LogFailedToDispatch err)) st in
  let cleared :=
    if bool_decide (chatType ctx = Group) && truthy_str (chatId ctx)
    then (fun historyMap => clearHistoryEntriesIfEnabled historyMap (chatId ctx) limit)
           <$> chatHistories st
    else chatHistories st in
  let clears :=
    if bool_decide (chatType ctx = Group) && truthy_str (chatId ctx)
    then history_calls st (ClearHistoryEntries (chatId ctx) limit)
    else [] in
  exists before,
    forallb prepare_event before = true /\
    ((exists payload result,
        run = (Normal tt,
               {| chatHistories := cleared;
                  trace := trace st ++ before
                           ++ [Called (DispatchReply payload) true;
                               Called MarkDispatchIdle true]
                           ++ clears
                           ++ [Log (LogDispatchComplete (queuedFinal result)
                                      (counts_final result))] |}))
     \/ (exists tail err,
           failed_tail tail /\
           run = (Normal tt,
                  {| chatHistories := chatHistories st;
                     trace := trace st ++ before ++ tail ++ [LogFailedToDispatch err] |}))).
Proof.
  intros limit run cleared clears. subst run.
  unfold try_catch, handleFeishuMessage_try. cbv zeta. rewrite bind_run.
  destruct (handleFeishuMessage_prepare_quiet E H cfg event ctx limit st)
    as [Hhist (before & Htrace & Hbefore)].
  fold limit.
  destruct (handleFeishuMessage_prepare E H cfg event ctx limit st)
    as [[[payload dispatcher]|err] st1]; simpl in Hhist, Htrace.
  2:{ exists before. split; [done |]. right. exists [], err. split; [by left |].
      unfold emit. simpl. by rewrite Hhist, Htrace, <- app_assoc. }
  exists before. split; [done |].
  unfold call, bind, emit, lift, history_call, log, ret. simpl.
  destruct (dispatchReplyFromConfig H payload dispatcher) as [result|err]; simpl.
  2:{ right. exists [Called (DispatchReply payload) false], err.
      split; [right; left; by exists payload |].
      rewrite Hhist, Htrace. by rewrite <- !app_assoc. }
  destruct (markDispatchIdle H) as [[]|err]; simpl.
  2:{ right. exists [Called (DispatchReply payload) true; Called MarkDispatchIdle false], err.
      split; [right; right; by exists payload |].
      rewrite Hhist, Htrace. by rewrite <- !app_assoc. }
  left. exists payload, result. subst cleared clears. unfold history_calls.
  destruct (bool_decide (chatType ctx = Group) && truthy_str (chatId ctx)); simpl;
    rewrite Hhist; destruct (chatHistories st); simpl;
    rewrite Htrace; by rewrite <- !app_assoc.
Qed.

End Gate.

(** ** The history buffer *)

Section Record.

Context (historyMap : Histories) (historyKey : string) (limit : Z) (entry : HistoryEntry).

Lemma record_enabled :
  0 < limit ->
  recordPendingHistoryEntryIfEnabled historyMap historyKey limit entry !! historyKey
  = Some (drop (length (default [] (historyMap !! historyKey) ++ [entry]) - Z.to_nat limit)
            (default [] (historyMap !! historyKey) ++ [entry])).
Proof.
  intros Hpos. unfold recordPendingHistoryEntryIfEnabled.
  destruct (limit <=? 0) eqn:Hle; [lia |]. by rewrite lookup_insert_eq.
Qed.

Lemma record_other other :
  other <> historyKey ->
  recordPendingHistoryEntryIfEnabled historyMap historyKey limit entry !! other
  = historyMap !! other.
Proof.
  intros Hne. unfold recordPendingHistoryEntryIfEnabled.
  destruct (limit <=? 0); [done |]. by rewrite lookup_insert_ne.
Qed.

Lemma record_disabled :
  limit <= 0 ->
  recordPendingHistoryEntryIfEnabled historyMap historyKey limit entry = historyMap.
Proof.
  intros Hle. unfold recordPendingHistoryEntryIfEnabled.
  destruct (limit <=? 0) eqn:Hle'; [done | lia].
Qed.

End Record.

Section Buffering.

Context (E : Engine) (H : Host).

(** The fields of the context, read off the event. *)
Lemma parsed_fields event botOpenId ctx :
  parseFeishuMessageEvent E event botOpenId = Normal ctx ->
  senderOpenId ctx = or_undef (open_id (sender_id (sender event))) ""
  /\ stripBotMention E
       (parseMessageContent E (content (message event)) (message_type (message event)))
       (mentions (message event))
     = Normal (ctx_content ctx)
  /\ messageId ctx = message_id (message event).
Proof.
  unfold parseFeishuMessageEvent.
  destruct (stripBotMention E _ _) as [stripped|err]; simpl; [| done].
  by intros [= <-].
Qed.


(** What the handler does with a group message that passes the gate, needs
    a mention and has none. *)
Lemma handleFeishuMessage_buffers cfg event botOpenId ctx st :
  parseFeishuMessageEvent E event botOpenId = Normal ctx ->
  chatType ctx = Group ->
  group_accepts E (group_policy_of cfg) (effective_allow_list E cfg (chatId ctx))
    (senderOpenId ctx) (senderName ctx) ->
  mention_required E cfg (chatId ctx) = true ->
  mentionedBot ctx = false ->
  handleFeishuMessage E H cfg event botOpenId st
  = (Normal tt,
     {| chatHistories :=
          (fun historyMap =>
             recordPendingHistoryEntryIfEnabled historyMap (chatId ctx)
               (resolve_historyLimit H cfg) (history_entry H ctx)) <$> chatHistories st;
        trace := trace st
                 ++ [Log (LogReceived (senderOpenId ctx) (chatId ctx) Group);
                     Log (LogNoMentionRecording (chatId ctx))]
                 ++ history_calls st
                      (RecordPendingHistoryEntry (chatId ctx) (resolve_historyLimit H cfg)
                         (history_entry H ctx)) |}).
Proof.
  intros Hparse Hgroup Haccept Hrequire Hunmentioned.
  rewrite (handleFeishuMessage_group E H cfg event botOpenId ctx st Hparse Hgroup).
  apply isFeishuGroupAllowed_accepts in Haccept. rewrite Haccept, Hrequire, Hunmentioned.
  simpl. unfold bind, log, emit, history_call, history_calls. simpl.
  destruct (chatHistories st); simpl; by rewrite <- !app_assoc.
Qed.

End Buffering.

(** C1 does not hold as stated.  The handler records only [if
    (chatHistories)], and with [historyLimit] 0 buffering is disabled: an
    open group, a text message without mention, and nothing is appended,
    neither when no history map was passed nor when the limit is 0. *)
Lemma history_disabled_appends_nothing :
  ~ appends_one_entry Sample.engine Sample.host (Sample.config GroupOpen [] None)
      (Sample.group_event "text" Sample.text_hello None) None (Sample.initial None)
  /\ ~ appends_one_entry Sample.engine Sample.host (Sample.config GroupOpen [] (Some 0))
         (Sample.group_event "text" Sample.text_hello None) None (Sample.initial (Some ∅)).
Proof.
  split; intros Hclaim.
  - destruct (Hclaim Sample.hello_ctx eq_refl eq_refl I eq_refl eq_refl)
      as (historyMap & earlier & Hfinal & _).
    rewrite (handleFeishuMessage_buffers _ _ _ _ _ Sample.hello_ctx) in Hfinal; done.
  - destruct (Hclaim Sample.hello_ctx eq_refl eq_refl I eq_refl eq_refl)
      as (historyMap & earlier & Hfinal & Hlast).
    rewrite (handleFeishuMessage_buffers _ _ _ _ _ Sample.hello_ctx) in Hfinal; try done.
    simpl in Hfinal. rewrite record_disabled in Hfinal by done.
    injection Hfinal as <-. by rewrite lookup_empty in Hlast.
Qed.

(** C1, amended.  For every group message that passes the gate, in a
    conversation whose reply policy requires a mention (the setting of the
    group, else the global one, else true) and without a mention of the
    bot, the handler logs, records the entry (sender id, stripped body,
    message id, timestamp) by one call of [recordPendingHistoryEntryIfEnabled]
    on the history map when one was passed, by none otherwise, and returns:
    no agent dispatch, no media resolution, no reply.  With a positive [historyLimit] the buffer
    of the conversation then ends with that one entry, after the earlier
    ones; entries are evicted from the front, and only beyond the limit;
    other conversations keep their buffers.  With limit 0 the map is left
    as it is. *)
Theorem unmentioned_group_message_is_buffered
    (E : Engine) (H : Host) (cfg : ClawdbotConfig) (event : FeishuMessageEvent)
    (botOpenId : option string) (ctx : FeishuMessageContext) (st : State)
    (Hparse : parseFeishuMessageEvent E event botOpenId = Normal ctx)
    (Hgroup : chatType ctx = Group)
    (Haccept : group_accepts E (group_policy_of cfg) (effective_allow_list E cfg (chatId ctx))
                 (senderOpenId ctx) (senderName ctx))
    (Hrequire : mention_required E cfg (chatId ctx) = true)
    (Hunmentioned : mentionedBot ctx = false) :
  let limit := resolve_historyLimit H cfg in
  let entry := history_entry H ctx in
  let record := fun historyMap =>
    recordPendingHistoryEntryIfEnabled historyMap (chatId ctx) limit entry in
  handleFeishuMessage E H cfg event botOpenId st
  = (Normal tt,
     {| chatHistories := record <$> chatHistories st;
        trace := trace st
                 ++ [Log (LogReceived (senderOpenId ctx) (chatId ctx) Group);
                     Log (LogNoMentionRecording (chatId ctx))]
                 ++ history_calls st (RecordPendingHistoryEntry (chatId ctx) limit entry) |})
  /\ 0 <= limit
  /\ (0 < limit ->
      forall historyMap,
        let before := default [] (historyMap !! chatId ctx) in
        exists evicted after,
          record historyMap !! chatId ctx = Some after
          /\ before ++ [entry] = evicted ++ after
          /\ Z.of_nat (length after) <= limit
          /\ (Z.of_nat (length before) < limit -> evicted = [])
          /\ forall other, other <> chatId ctx ->
               record historyMap !! other = historyMap !! other)
  /\ (limit = 0 -> forall historyMap, record historyMap = historyMap)
  /\ (entry_sender entry = or_undef (open_id (sender_id (sender event))) ""
      /\ stripBotMention E
           (parseMessageContent E (content (message event)) (message_type (message event)))
           (mentions (message event))
         = Normal (entry_body entry)
      /\ entry_messageId entry = message_id (message event)
      /\ entry_timestamp entry = Date_now H).
Proof.
  intros limit entry record.
  split; [by apply handleFeishuMessage_buffers |].
  split; [subst limit; unfold resolve_historyLimit; lia |].
  split; [| split].
  3:{ destruct (parsed_fields E event botOpenId ctx Hparse) as (Hsender & Hbody & Hid).
      by repeat split. }
  - intros Hpos historyMap before.
    set (buffer := before ++ [entry]).
    exists (take (length buffer - Z.to_nat limit) buffer),
           (drop (length buffer - Z.to_nat limit) buffer).
    split; [by apply record_enabled |].
    split; [by rewrite take_drop |].
    split; [rewrite length_drop; lia |].
    split.
    + intros Hroom.
      replace (length buffer - Z.to_nat limit)%nat with 0%nat; [done |].
      subst buffer. rewrite length_app. simpl. lia.
    + intros other Hother. by apply record_other.
  - intros Hzero historyMap. apply record_disabled. lia.
Qed.

Lemma unmentioned_group_message_is_buffered_witness :
  chatHistories
    (handleFeishuMessage Sample.engine Sample.host (Sample.config GroupOpen [] None)
       (Sample.group_event "text" Sample.text_hello None) None
       (Sample.initial (Some ∅))).2
  = Some {["oc_team" := [history_entry Sample.host Sample.hello_ctx]]}.
Proof.
  rewrite (proj1 (unmentioned_group_message_is_buffered Sample.engine Sample.host
                    (Sample.config GroupOpen [] None)
                    (Sample.group_event "text" Sample.text_hello None) None
                    Sample.hello_ctx (Sample.initial (Some ∅))
                    eq_refl eq_refl I eq_refl eq_refl)).
  reflexivity.
Defined.


(** ** The configuration of a group *)

Section GroupLookup.

Context (E : Engine).

Implicit Types (groups : list (string * FeishuGroupConfig)) (key id chat : string).

Lemma own_group_None key groups : own_group key groups = None <-> key ∉ map fst groups.
Proof.
  induction groups as [|[k g'] rest IH]; simpl.
  - split; [intros _ Hin; by apply elem_of_nil in Hin | done].
  - destruct (String.eqb key k) eqn:Hk.
    + apply String.eqb_eq in Hk. subst. split; [done |].
      intros Hno. destruct Hno. by left.
    + apply String.eqb_neq in Hk. rewrite IH. split.
      * intros Hno [Heq | Hin]%elem_of_cons; done.
      * intros Hno Hin. apply Hno. by right.
Qed.

Lemma own_group_Some key groups g :
  own_group key groups = Some g <-> bound_first groups key g.
Proof.
  unfold bound_first. induction groups as [|[k g'] rest IH]; simpl.
  - split; [done |]. intros (before & after & Heq & _). by destruct before.
  - destruct (String.eqb key k) eqn:Hk.
    + apply String.eqb_eq in Hk. subst k. split.
      * intros [= ->]. exists [], rest. split; [done |]. apply not_elem_of_nil.
      * intros (before & after & Heq & Hno). destruct before as [|[k' g''] before].
        -- by injection Heq as ->.
        -- injection Heq as -> -> _. destruct Hno. by left.
    + apply String.eqb_neq in Hk. rewrite IH. split.
      * intros (before & after & -> & Hno). exists ((k, g') :: before), after.
        split; [done |]. intros [Heq | Hin]%elem_of_cons; done.
      * intros (before & after & Heq & Hno). destruct before as [|[k' g''] before].
        -- by injection Heq as -> _ _.
        -- injection Heq as -> -> ->. exists before, after. split; [done |].
           intros Hin. apply Hno. by right.
Qed.

Lemma groups_get_own key groups g :
  bound_first groups key g -> groups_get key groups = Some g.
Proof. intros Hg%own_group_Some. unfold groups_get. by rewrite Hg. Qed.

Lemma find_alike lowered groups key :
  List.find (fun k => String.eqb (toLowerCase E k) lowered) (map fst groups) = Some key ->
  exists g before after,
    groups = before ++ (key, g) :: after
    /\ toLowerCase E key = lowered
    /\ forall k, k ∈ map fst before -> toLowerCase E k <> lowered.
Proof.
  induction groups as [|[k g'] rest IH]; simpl; [done |].
  destruct (String.eqb (toLowerCase E k) lowered) eqn:Hk.
  - apply String.eqb_eq in Hk. intros [= ->]. exists g', [], rest.
    split; [done |]. split; [done |]. intros k' Hin. by apply elem_of_nil in Hin.
  - apply String.eqb_neq in Hk. intros (g & before & after & -> & Hkey & Hno)%IH.
    exists g, ((k, g') :: before), after. split; [done |]. split; [done |].
    intros k' [-> | Hin]%elem_of_cons; [done | by apply Hno].
Qed.

Lemma find_alike_None lowered groups :
  List.find (fun k => String.eqb (toLowerCase E k) lowered) (map fst groups) = None
  <-> forall k, k ∈ map fst groups -> toLowerCase E k <> lowered.
Proof.
  split.
  - intros Hfind k Hin%list_elem_of_In.
    pose proof (find_none _ _ Hfind k Hin) as Hno. simpl in Hno.
    by apply String.eqb_neq in Hno.
  - intros Hno. destruct (List.find _ _) as [k|] eqn:Hfind; [| done].
    apply find_some in Hfind as [Hin%list_elem_of_In Hk%String.eqb_eq].
    by destruct (Hno k Hin).
Qed.

Lemma first_alike_found groups id key g :
  first_alike E groups id key g ->
  List.find (fun k => String.eqb (toLowerCase E k) (toLowerCase E id)) (map fst groups)
  = Some key
  /\ own_group key groups = Some g.
Proof.
  intros (before & after & -> & Hkey & Hno). split.
  - induction before as [|[k g'] before IH]; simpl.
    + by rewrite (proj2 (String.eqb_eq _ _) Hkey).
    + rewrite (proj2 (String.eqb_neq _ _) (Hno k ltac:(by left))).
      apply IH. intros k' Hin. apply Hno. by right.
  - apply own_group_Some. exists before, after. split; [done |].
    intros Hin. by apply (Hno key Hin).
Qed.

(** [resolveFeishuGroupConfig] finds what the lookup is said to find. *)
Lemma resolveFeishuGroupConfig_spec (cfg : option FeishuConfig) chat found :
  group_for E (default [] (cfg ≫= groups)) chat found
  <-> resolveFeishuGroupConfig E cfg (Some chat) = found.
Proof.
  unfold resolveFeishuGroupConfig. cbn [option_map].
  set (configured := default [] (cfg ≫= groups)).
  split.
  - intros Hfor. destruct Hfor as
        [Hblank | id g Hid Hne Hg | id Hid Hne Hown Hin
         | id key g Hid Hne Hown Hin Halike Hkey | id g Hid Hne Hown Hin Halike
         | id Hid Hne Hown Hin Hnone].
    + apply trim_blank in Hblank. by rewrite Hblank.
    + apply trim_stripped in Hid. rewrite Hid.
      rewrite (proj2 (truthy_str_true id) Hne). cbn [negb].
      by rewrite (groups_get_own id configured g).
    + apply trim_stripped in Hid. rewrite Hid.
      rewrite (proj2 (truthy_str_true id) Hne). cbn [negb].
      unfold groups_get at 1. rewrite (proj2 (own_group_None id configured) Hown).
      by rewrite (proj2 (includes_true _ _) Hin).
    + apply trim_stripped in Hid. rewrite Hid.
      rewrite (proj2 (truthy_str_true id) Hne). cbn [negb].
      unfold groups_get at 1. rewrite (proj2 (own_group_None id configured) Hown).
      rewrite (proj2 (includes_false _ _) Hin).
      destruct (first_alike_found configured id key g Halike) as [-> Hg].
      rewrite (proj2 (truthy_str_true key) Hkey).
      unfold groups_get. by rewrite Hg.
    + apply trim_stripped in Hid. rewrite Hid.
      rewrite (proj2 (truthy_str_true id) Hne). cbn [negb].
      unfold groups_get at 1. rewrite (proj2 (own_group_None id configured) Hown).
      rewrite (proj2 (includes_false _ _) Hin).
      by destruct (first_alike_found configured id "" g Halike) as [-> _].
    + apply trim_stripped in Hid. rewrite Hid.
      rewrite (proj2 (truthy_str_true id) Hne). cbn [negb].
      unfold groups_get at 1. rewrite (proj2 (own_group_None id configured) Hown).
      rewrite (proj2 (includes_false _ _) Hin).
      by rewrite (proj2 (find_alike_None _ configured) Hnone).
  - intros <-. pose proof (stripped_trim chat) as Hid.
    destruct (truthy_str (trim chat)) eqn:Hne; cbn [negb].
    2:{ apply group_blank, trim_blank. by apply truthy_str_false. }
    apply truthy_str_true in Hne.
    unfold groups_get at 1.
    destruct (own_group (trim chat) configured) as [g|] eqn:Hown.
    { apply (group_exact _ _ _ (trim chat)); [done | done |]. by apply own_group_Some. }
    apply own_group_None in Hown.
    destruct (includes Object_prototype (trim chat)) eqn:Hin.
    { apply includes_true in Hin. by apply (group_inherited _ _ _ (trim chat)). }
    apply includes_false in Hin.
    destruct (List.find _ (map fst configured)) as [key|] eqn:Hfind.
    2:{ apply (group_unknown _ _ _ (trim chat)); try done.
        by apply find_alike_None. }
    apply find_alike in Hfind as (g & before & after & Heq & Hkey & Hno).
    assert (Halike : first_alike E configured (trim chat) key g)
      by (by exists before, after).
    destruct (truthy_str key) eqn:Hk.
    + apply truthy_str_true in Hk.
      destruct (first_alike_found configured (trim chat) key g Halike) as [_ Hg].
      unfold groups_get. rewrite Hg.
      by apply (group_alike _ _ _ (trim chat) key).
    + apply truthy_str_false in Hk. subst key.
      by apply (group_alike_empty _ _ _ (trim chat) g).
Qed.



End GroupLookup.
Section GateTheorems.

Lemma rejected_by (P : Effect -> bool) (events : list Effect) (e : Effect) :
  forallb P events = true -> P e = false -> e ∉ events.
Proof.
  intros Hall He Hin. apply list_elem_of_In in Hin.
  rewrite (proj1 (forallb_forall P events) Hall e Hin) in He. discriminate.
Qed.


Context (E : Engine) (H : Host).


End GateTheorems.




(** C2. For every group message that reaches the dispatch, the handler
    returns normally and its run is one of two.  Either the agent dispatch
    and [markDispatchIdle] returned: then [clearHistoryEntriesIfEnabled]
    was called once on the history of the conversation, after them and
    after everything else but the closing log line, and nowhere before.
    Or a step of the [try] block threw - before the agent was called, in
    the dispatch itself, or after it: then the failure was logged, the
    history was never touched and the history map is the one the handler
    was given. *)
Theorem history_cleared_only_after_dispatch
    (E : Engine) (H : Host) (cfg : ClawdbotConfig) (event : FeishuMessageEvent)
    (botOpenId : option string) (ctx : FeishuMessageContext) (st : State)
    (Hparse : parseFeishuMessageEvent E event botOpenId = Normal ctx)
    (Hgroup : chatType ctx = Group)
    (Haccept : group_accepts E (group_policy_of cfg) (effective_allow_list E cfg (chatId ctx))
                 (senderOpenId ctx) (senderName ctx))
    (Hreach : mention_required E cfg (chatId ctx) && negb (mentionedBot ctx) = false) :
  let limit := resolve_historyLimit H cfg in
  let run := handleFeishuMessage E H cfg event botOpenId st in
  let received := Log (LogReceived (senderOpenId ctx) (chatId ctx) Group) in
  let cleared :=
    if truthy_str (chatId ctx)
    then (fun historyMap => clearHistoryEntriesIfEnabled historyMap (chatId ctx) limit)
           <$> chatHistories st
    else chatHistories st in
  let clears :=
    if truthy_str (chatId ctx)
    then history_calls st (ClearHistoryEntries (chatId ctx) limit)
    else [] in
  run.1 = Normal tt
  /\ exists before,
       forallb prepare_event before = true
       /\ ((exists payload result,
              added st run.2
              = received :: before
                ++ [Called (DispatchReply payload) true;
                    Called MarkDispatchIdle true]
                ++ clears
                ++ [Log (LogDispatchComplete (queuedFinal result) (counts_final result))]
              /\ chatHistories run.2 = cleared)
           \/ (exists tail err,
                 failed_tail tail
                 /\ added st run.2 = received :: before ++ tail ++ [LogFailedToDispatch err]
                 /\ chatHistories run.2 = chatHistories st)).
Proof.
  intros limit run received cleared clears. subst run.
  rewrite (handleFeishuMessage_group E H cfg event botOpenId ctx st Hparse Hgroup).
  apply isFeishuGroupAllowed_accepts in Haccept. rewrite Haccept, Hreach. simpl.
  destruct (dispatch_run E H cfg event ctx
              (logged st [LogReceived (senderOpenId ctx) (chatId ctx) Group]))
    as (before & Hbefore & [(payload & result & ->) | (tail & err & Htail & ->)]); simpl.
  - split; [done |]. exists before. split; [done |]. left. exists payload, result.
    rewrite <- app_assoc, added_app.
    subst cleared clears. rewrite Hgroup. by rewrite bool_decide_eq_true_2.
  - split; [done |]. exists before. split; [done |]. right. exists tail, err.
    rewrite <- app_assoc, added_app. done.
Qed.

Lemma history_cleared_only_after_dispatch_witness :
  (handleFeishuMessage Sample.engine Sample.host_dispatch_fails
     (Sample.config GroupOpen [] None)
     (Sample.group_event "text" Sample.text_hello
        (Some [Sample.mention "@_user_1" "ou_bot" "bot"])) (Some "ou_bot")
     (Sample.initial (Some {["oc_team" := [history_entry Sample.host Sample.hello_ctx]]}))).1
  = Normal tt.
Proof.
  exact (proj1 (history_cleared_only_after_dispatch Sample.engine Sample.host_dispatch_fails
                  (Sample.config GroupOpen [] None)
                  (Sample.group_event "text" Sample.text_hello
                     (Some [Sample.mention "@_user_1" "ou_bot" "bot"])) (Some "ou_bot")
                  Sample.mentioned_ctx
                  (Sample.initial
                     (Some {["oc_team" := [history_entry Sample.host Sample.hello_ctx]]}))
                  eq_refl eq_refl I eq_refl)).
Defined.

(** ** Media resolution *)

Section Media.

Context (E : Engine) (H : Host).







Lemma omap_length_le {A B} (f : A -> option B) (l : list A) :
  (length (omap f l) <= length l)%nat.
Proof.
  induction l as [|x rest IH]; csimpl; [done |].
  destruct (f x); simpl; lia.
Qed.

End Media.


(** C9.  The claim fails on the code.  For every video message whose
    content carries a file key (the video) and an image key (the
    thumbnail), both set, [resolveFeishuMediaList] asks for one download
    through the message-resource path, and it is the download of the
    thumbnail's [image_key], with resource type [file]: in
    [mediaKeys.imageKey || mediaKeys.fileKey] the image key comes first.
    The video's [file_key] is not fetched. *)
Theorem video_resolves_thumbnail_key
    (E : Engine) (H : Host) (messageId content : string) (maxBytes : Z) (st : State)
    (fields : list (string * JSON)) (video thumbnail : JSON)
    (Hparse : JSON_parse E content = Normal (JObj fields))
    (Hvideo : assoc "file_key" fields = Some video)
    (Hthumbnail : assoc "image_key" fields = Some thumbnail)
    (Hvideo_set : truthy video = true)
    (Hthumbnail_set : truthy thumbnail = true) :
  exists out new,
    resolveFeishuMediaList E H messageId "video" content maxBytes st
    = (Normal out, {| chatHistories := chatHistories st; trace := trace st ++ new |})
    /\ downloads new = [(messageId, thumbnail, "file")].
Proof.
  unfold resolveFeishuMediaList, parseMediaKeys.
  rewrite Hparse. simpl. rewrite Hvideo, Hthumbnail.
  repeat first [rewrite Hthumbnail_set | progress simpl].
  destruct (downloadMessageResourceFeishu H messageId thumbnail "file") as [result|err];
    run_steps.
  2:{ eexists _, _. split; [by rewrite <- app_assoc |]. done. }
  destruct (truthy_str (default "" (dl_contentType result))); run_steps.
  - destruct (saveMediaBuffer H _ _ _ _ _) as [saved|err]; run_steps;
      (eexists _, _; split; [by rewrite <- !app_assoc |]; done).
  - destruct (detectMime H (dl_buffer result)) as [detected|err]; run_steps.
    2:{ eexists _, _. split; [by rewrite <- app_assoc |]. done. }
    destruct (saveMediaBuffer H _ _ _ _ _) as [saved|err]; run_steps;
      (eexists _, _; split; [by rewrite <- !app_assoc |]; done).
Qed.

Lemma video_resolves_thumbnail_key_witness :
  exists out new,
    resolveFeishuMediaList Sample.engine Sample.host "om_1" "video"
      (Sample.stringify Sample.video_with_thumbnail) 100 (Sample.initial None)
    = (Normal out, {| chatHistories := None; trace := [] ++ new |})
    /\ downloads new = [("om_1", JStr "img_v2_thumb", "file")].
Proof.
  exact (video_resolves_thumbnail_key Sample.engine Sample.host "om_1"
           (Sample.stringify Sample.video_with_thumbnail) 100 (Sample.initial None)
           [("file_key", JStr "file_v2_video"); ("image_key", JStr "img_v2_thumb")]
           (JStr "file_v2_video") (JStr "img_v2_thumb")
           eq_refl eq_refl eq_refl eq_refl eq_refl).
Defined.

(** ** Regular expressions *)

Section RegExpFacts.

Import RegExp.

Implicit Types (r : re) (s t : string) (c : ascii) (p : ascii -> bool).

Lemma lang_cat_inv r1 r2 s :
  lang (Cat r1 r2) s -> exists s1 s2, s = s1 +:+ s2 /\ lang r1 s1 /\ lang r2 s2.
Proof. inversion 1; subst. eauto. Qed.

Lemma nullable_lang r : nullable r = true <-> lang r "".
Proof.
  split.
  - induction r as [| |p|q|r1 IH1 r2 IH2|r1 IH1 r2 IH2|r1 IH1]; simpl; intros Hn;
      try discriminate.
    + constructor.
    + by constructor.
    + apply andb_prop in Hn as [H1 H2].
      change "" with ("" +:+ ""). constructor; auto.
    + apply orb_prop in Hn as [H1 | H2]; [apply lang_alt_l | apply lang_alt_r]; auto.
    + constructor.
  - induction r as [| |p|q|r1 IH1 r2 IH2|r1 IH1 r2 IH2|r1 IH1]; simpl; intros HL;
      try done.
    + inversion HL.
    + inversion HL.
    + by inversion HL.
    + apply lang_cat_inv in HL as (s1 & s2 & Heq & H1 & H2).
      symmetry in Heq. apply append_empty_inv in Heq as [-> ->].
      by rewrite IH1, IH2.
    + inversion HL; subst; [rewrite IH1 | rewrite IH2, orb_true_r]; done.
Qed.

Lemma lang_star_cons_inv r t :
  lang (Star r) t ->
  forall c s, t = String c s ->
  exists s1 s2, s = s1 +:+ s2 /\ lang r (String c s1) /\ lang (Star r) s2.
Proof.
  intros HL. remember (Star r) as R eqn:HR.
  induction HL as [| | | | | | |r' s1 s2 H1 _ H2 IH2]; try discriminate.
  injection HR as ->. intros c s Heq.
  apply append_cons_inv in Heq as [[-> ->] | (s1' & -> & ->)].
  - by apply IH2.
  - by exists s1', s2.
Qed.

Lemma deriv_lang r c s : lang (deriv c r) s <-> lang r (String c s).
Proof.
  revert s. induction r as [| |p|q|r1 IH1 r2 IH2|r1 IH1 r2 IH2|r1 IH1]; intros s; simpl.
  - split; inversion 1.
  - split; inversion 1.
  - destruct (p c) eqn:Hp; split; intros HL; inversion HL; subst.
    + by constructor.
    + constructor.
    + congruence.
  - split; intros HL; inversion HL; subst; by constructor.
  - assert (Hleft : lang (Cat (deriv c r1) r2) s -> lang (Cat r1 r2) (String c s)).
    { intros (s1 & s2 & -> & H1 & H2)%lang_cat_inv.
      change (String c (s1 +:+ s2)) with (String c s1 +:+ s2).
      constructor; [by apply IH1 | done]. }
    assert (Hback : lang (Cat r1 r2) (String c s) ->
                    lang (Cat (deriv c r1) r2) s
                    \/ (lang r1 "" /\ lang (deriv c r2) s)).
    { intros (s1 & s2 & Heq & H1 & H2)%lang_cat_inv. symmetry in Heq.
      apply append_cons_inv in Heq as [[-> ->] | (s1' & -> & ->)].
      - right. split; [done | by apply IH2].
      - left. constructor; [by apply IH1 | done]. }
    destruct (nullable r1) eqn:Hn.
    + split.
      * intros HL. inversion HL; subst; [by apply Hleft |].
        change (String c s) with ("" +:+ String c s).
        constructor; [by apply nullable_lang | by apply IH2].
      * intros HL. destruct (Hback HL) as [H1 | [_ H2]];
          [by apply lang_alt_l | by apply lang_alt_r].
    + split; [exact Hleft |].
      intros HL. destruct (Hback HL) as [H1 | [H1 _]]; [done |].
      apply nullable_lang in H1. congruence.
  - split; intros HL; inversion HL; subst.
    + apply lang_alt_l. by apply IH1.
    + apply lang_alt_r. by apply IH2.
    + apply lang_alt_l. by apply IH1.
    + apply lang_alt_r. by apply IH2.
  - split.
    + intros (s1 & s2 & -> & H1 & H2)%lang_cat_inv.
      change (String c (s1 +:+ s2)) with (String c s1 +:+ s2).
      constructor; [by apply IH1 | done].
    + intros HL.
      destruct (lang_star_cons_inv _ _ HL c s eq_refl) as (s1 & s2 & -> & H1 & H2).
      constructor; [by apply IH1 | done].
Qed.

(** The matcher decides the language of the pattern. *)
Lemma matches_lang r s : matches r s = true <-> lang r s.
Proof.
  revert r. induction s as [|c s IH]; intros r; simpl.
  - apply nullable_lang.
  - rewrite IH. apply deriv_lang.
Qed.

Lemma lang_anything s : lang (Star (Cls (fun _ => true))) s.
Proof.
  induction s as [|c s IH]; [constructor |].
  change (String c s) with (String c "" +:+ s). constructor; [by constructor | done].
Qed.

(** [test] finds the pattern somewhere in the subject. *)
Lemma test_lang r s :
  test r s = true <-> exists a b z, s = a +:+ b +:+ z /\ lang r b.
Proof.
  unfold test. rewrite matches_lang. split.
  - intros (a & rest & -> & _ & (b & z & -> & Hb & _)%lang_cat_inv)%lang_cat_inv.
    by exists a, b, z.
  - intros (a & b & z & -> & Hb).
    constructor; [apply lang_anything |]. constructor; [done | apply lang_anything].
Qed.

Lemma lang_chr c s : lang (chr c) s <-> s = String c "".
Proof.
  unfold chr. split.
  - inversion 1 as [|p d Hd| | | | | |]; subst. by apply Ascii.eqb_eq in Hd as ->.
  - intros ->. constructor. apply Ascii.eqb_refl.
Qed.

Lemma lang_lit l s : lang (lit l) s <-> s = l.
Proof.
  revert s. induction l as [|c l IH]; intros s; simpl.
  - split; [by inversion 1 | intros ->; constructor].
  - split.
    + intros (s1 & s2 & -> & H1%lang_chr & H2%IH)%lang_cat_inv. by subst.
    + intros ->. change (String c l) with (String c "" +:+ l).
      constructor; [by apply lang_chr | by apply IH].
Qed.

Lemma lang_star_every p s : lang (Star (Cls p)) s <-> every p s = true.
Proof.
  split.
  - intros HL. remember (Star (Cls p)) as R eqn:HR.
    induction HL as [| | | | | | |r' s1 s2 H1 _ H2 IH2]; try discriminate; [done |].
    injection HR as ->. inversion H1; subst. simpl.
    apply andb_true_intro. split; [done | by apply IH2].
  - induction s as [|c s IH]; simpl; intros He; [constructor |].
    apply andb_prop in He as [Hc Hs].
    change (String c s) with (String c "" +:+ s).
    constructor; [by constructor | by apply IH].
Qed.

Lemma lang_plus_every p s :
  lang (Plus (Cls p)) s <-> s <> "" /\ every p s = true.
Proof.
  unfold Plus. split.
  - intros (s1 & s2 & -> & H1 & H2%lang_star_every)%lang_cat_inv.
    inversion H1; subst. simpl. split; [done |]. by apply andb_true_intro.
  - intros [Hne He]. destruct s as [|c s]; [done |]. simpl in He.
    apply andb_prop in He as [Hc Hs].
    change (String c s) with (String c "" +:+ s).
    constructor; [by constructor | by apply lang_star_every].
Qed.

Lemma every_any_char s : every any_char s = true.
Proof. induction s as [|c s IH]; simpl; done. Qed.

Lemma lang_dots s :
  lang (Run dots) s <-> s <> "" /\ forall t, t ∈ line_terminators -> ~ occurs t s.
Proof.
  rewrite <- line_free_spec. unfold dots. split.
  - inversion 1 as [| |q s' Hq| | | | |]; subst.
    apply andb_prop in Hq as [Hne Hfree]. split; [by destruct s | done].
  - intros [Hne Hfree]. constructor. rewrite Hfree. by destruct s.
Qed.

End RegExpFacts.

(** ** Rendering of replies *)

Section Rendering.

Import RegExp.

Lemma fence_lang b :
  lang fence_pattern b <-> exists body, b = FENCE +:+ body +:+ FENCE.
Proof.
  unfold fence_pattern. split.
  - intros (s1 & s2 & -> & ->%lang_lit
            & (body & s3 & -> & _ & ->%lang_lit)%lang_cat_inv)%lang_cat_inv.
    by exists body.
  - intros (body & ->).
    constructor; [by apply lang_lit |].
    constructor; [apply lang_star_every, every_any_char | by apply lang_lit].
Qed.

Lemma table_lang b :
  lang table_pattern b
  <-> exists header breaks rule,
        b = "|" +:+ header +:+ "|" +:+ breaks +:+ "|" +:+ rule +:+ "|"
        /\ header <> "" /\ (forall t, t ∈ line_terminators -> ~ occurs t header)
        /\ breaks <> "" /\ every cr_lf breaks = true
        /\ rule <> "" /\ every sep_char rule = true.
Proof.
  unfold table_pattern. split.
  - intros (b1 & s1 & -> & ->%lang_chr & H1)%lang_cat_inv.
    apply lang_cat_inv in H1 as (header & s2 & -> & [Hh1 Hh2]%lang_dots & H2).
    apply lang_cat_inv in H2 as (b2 & s3 & -> & ->%lang_chr & H3).
    apply lang_cat_inv in H3 as (breaks & s4 & -> & [Hb1 Hb2]%lang_plus_every & H4).
    apply lang_cat_inv in H4 as (b3 & s5 & -> & ->%lang_chr & H5).
    apply lang_cat_inv in H5 as (rule & b4 & -> & [Hr1 Hr2]%lang_plus_every & ->%lang_chr).
    by exists header, breaks, rule.
  - intros (header & breaks & rule & -> & Hh1 & Hh2 & Hb1 & Hb2 & Hr1 & Hr2).
    constructor; [by apply lang_chr |].
    constructor; [by apply lang_dots |].
    constructor; [by apply lang_chr |].
    constructor; [by apply lang_plus_every |].
    constructor; [by apply lang_chr |].
    constructor; [by apply lang_plus_every | by apply lang_chr].
Qed.

Lemma test_fence text : test fence_pattern text = true <-> has_fence text.
Proof.
  rewrite test_lang. unfold has_fence. split.
  - intros (a & b & z & -> & (body & ->)%fence_lang).
    exists a, body, z. by rewrite !app_assoc'.
  - intros (a & body & z & ->).
    exists a, (FENCE +:+ body +:+ FENCE), z. split; [by rewrite !app_assoc' |].
    apply fence_lang. by exists body.
Qed.

Lemma test_table text : test table_pattern text = true <-> has_table text.
Proof.
  rewrite test_lang. unfold has_table. split.
  - intros (a & b & z & -> & (header & breaks & rule & -> & Hrows)%table_lang).
    exists a, header, breaks, rule, z. split; [by rewrite !app_assoc' | done].
  - intros (a & header & breaks & rule & z & -> & Hrows).
    exists a, ("|" +:+ header +:+ "|" +:+ breaks +:+ "|" +:+ rule +:+ "|"), z.
    split; [by rewrite !app_assoc' |].
    apply table_lang. by exists header, breaks, rule.
Qed.

Lemma shouldUseCard_spec text :
  shouldUseCard text = true <-> has_fence text \/ has_table text.
Proof.
  unfold shouldUseCard.
  destruct (test fence_pattern text) eqn:Hfence.
  { split; [intros _; left; by apply test_fence | done]. }
  destruct (test table_pattern text) eqn:Htable.
  { split; [intros _; right; by apply test_table | done]. }
  split; [done |].
  intros [Hf%test_fence | Ht%test_table]; congruence.
Qed.

Context (H : Host).

Lemma calls_app a b : calls (a ++ b) = calls a ++ calls b.
Proof. apply omap_app. Qed.

(** A loop of sends: one call per chunk reached. *)
Lemma for_each_send (label : string -> HostCall) (send : string -> Completion unit)
    chunks st :
  exists outcome new,
    for_each chunks (fun chunk => call (label chunk) (send chunk)) st
    = (outcome, {| chatHistories := chatHistories st; trace := trace st ++ new |})
    /\ calls new = map (fun chunk => (label chunk, is_normal (send chunk)))
                     (reached send chunks).
Proof.
  revert st. induction chunks as [|chunk rest IH]; intros st; simpl.
  - exists (Normal tt), []. unfold ret. rewrite app_nil_r. by destruct st.
  - rewrite bind_run, call_run. destruct (send chunk) as [[]|err]; simpl.
    + destruct (IH {| chatHistories := chatHistories st;
                      trace := trace st ++ [Called (label chunk) true] |})
        as (outcome & new & -> & Hcalls).
      exists outcome, (Called (label chunk) true :: new). simpl.
      split; [by rewrite <- app_assoc |]. csimpl. by rewrite <- Hcalls.
    + by exists (Throw err), [Called (label chunk) false].
Qed.

End Rendering.

(** C7. A fragment that is missing, empty or made of white space only,
    the white space of Unicode included, causes no delivery call.  For
    every other fragment: under [card] every call is a card send; under
    [raw] every call is a plain-text send; under [auto], also when no mode
    is set, the calls are card sends exactly when the fragment contains a
    fenced code block or the table pattern, and plain-text sends otherwise.
    The card path chunks the fragment as it is; the plain-text path chunks
    what [convertMarkdownTables] made of it.  The chunks are sent in order,
    up to the first send that throws.  Under [auto] a fenced [code], and a
    table of two rows of bars, go out as cards, plain prose as text, and
    so does a table whose header row is broken by a line separator. *)
Theorem reply_rendering
    (H : Host) (cfg : ClawdbotConfig) (d : ReplyDispatcher) (payload : ReplyPayload)
    (st : State) :
  let text := default "" (payload_text payload) in
  let mode := default RenderAuto (channels_feishu cfg ≫= renderMode) in
  let rich :=
    match mode with
    | RenderCard => True
    | RenderRaw => False
    | RenderAuto => has_fence text \/ has_table text
    end in
  let chunked := fun body => chunkTextWithMode H body (textChunkLimit d) (chunkMode d) in
  let send_card := sendMarkdownCardFeishu H (disp_chatId d) in
  let send_text := sendMessageFeishu H (disp_chatId d) in
  let card := fun chunk =>
    (SendMarkdownCard (disp_chatId d) chunk (disp_replyToMessageId d),
     is_normal (send_card chunk (disp_replyToMessageId d))) in
  let plain := fun chunk =>
    (SendMessage (disp_chatId d) chunk (disp_replyToMessageId d),
     is_normal (send_text chunk (disp_replyToMessageId d))) in
  (exists new,
     (deliver H cfg d payload st).2
     = {| chatHistories := chatHistories st; trace := trace st ++ new |}
     /\ (blank text -> calls new = [])
     /\ (~ blank text -> rich ->
         calls new
         = match chunked text with
           | Normal chunks =>
               map card (reached (fun chunk => send_card chunk (disp_replyToMessageId d))
                           chunks)
           | Throw _ => []
           end)
     /\ (~ blank text -> ~ rich ->
         calls new
         = match convertMarkdownTables H text (tableMode d) with
           | Normal converted =>
               match chunked converted with
               | Normal chunks =>
                   map plain (reached (fun chunk => send_text chunk (disp_replyToMessageId d))
                                chunks)
               | Throw _ => []
               end
           | Throw _ => []
           end))
  /\ (let fragment := IDEOGRAPHIC_SPACE +:+ LF +:+ " " +:+ LINE_SEPARATOR +:+ NBSP in
      deliver H cfg d {| payload_text := Some fragment |} st
      = (Normal tt,
         {| chatHistories := chatHistories st;
            trace := trace st ++ [Log (LogDeliverCalled (Some fragment));
                                  Log LogDeliverEmpty] |}))
  /\ (forall fragment,
        shouldUseCard fragment = true <-> has_fence fragment \/ has_table fragment)
  /\ shouldUseCard (FENCE +:+ "code" +:+ FENCE) = true
  /\ shouldUseCard ("| a | b |" +:+ LF +:+ "|---|---|") = true
  /\ shouldUseCard ("| 名 | 值 |" +:+ LF +:+ "|---|---|") = true
  /\ shouldUseCard ("| a" +:+ LINE_SEPARATOR +:+ "b |" +:+ LF +:+ "|---|---|") = false
  /\ shouldUseCard "plain prose, no table" = false.
Proof.
  intros text mode rich chunked send_card send_text card plain.
  split; [| split; [| split; [apply shouldUseCard_spec | by vm_compute]]].
  2:{ cbv zeta. unfold deliver. run_logs. by rewrite <- app_assoc. }
  unfold deliver. fold text. fold mode. run_logs.
  destruct (truthy_str (trim text)) eqn:Htext; run_logs.
  2:{ apply truthy_str_false, trim_blank in Htext.
      eexists. split; [by rewrite <- app_assoc |].
      split; [done |]. split; intros Hne; done. }
  assert (Hnb : ~ blank text).
  { intros Hb%trim_blank. rewrite Hb in Htext. done. }
  set (useCard := match mode with
                  | RenderAuto => shouldUseCard text
                  | RenderRaw => false
                  | RenderCard => true
                  end).
  assert (Hrich : useCard = true <-> rich).
  { subst useCard rich. destruct mode; [apply shouldUseCard_spec | done | done]. }
  destruct useCard.
  - assert (Hyes : rich) by (by apply Hrich).
    fold (chunked text).
    destruct (chunked text) as [chunks|err]; run_logs.
    2:{ exists [Log (LogDeliverCalled (slice0 100 <$> payload_text payload))].
        split; [done |]. split; [done |]. split; [done |]. intros _ Hno. done. }
    match goal with
    | |- context [for_each chunks _ ?st0] =>
        destruct (for_each_send
                    (fun chunk =>
                       SendMarkdownCard (disp_chatId d) chunk (disp_replyToMessageId d))
                    (fun chunk =>
                       sendMarkdownCardFeishu H (disp_chatId d) chunk
                         (disp_replyToMessageId d)) chunks st0)
          as (outcome & new & Hrun & Hcalls)
    end.
    eexists. split; [rewrite Hrun; simpl; by rewrite <- !app_assoc |].
    split; [done |]. split; [| intros _ Hno; done].
    intros _ _. simpl. exact Hcalls.
  - assert (Hno : ~ rich) by (intros Hyes; by apply Hrich in Hyes).
    destruct (convertMarkdownTables H text (tableMode d)) as [converted|err]; run_logs.
    2:{ exists [Log (LogDeliverCalled (slice0 100 <$> payload_text payload))].
        split; [done |]. split; [done |]. split; [intros _ Hyes; done | done]. }
    fold (chunked converted).
    destruct (chunked converted) as [chunks|err]; run_logs.
    2:{ exists [Log (LogDeliverCalled (slice0 100 <$> payload_text payload))].
        split; [done |]. split; [done |]. split; [intros _ Hyes; done | done]. }
    match goal with
    | |- context [for_each chunks _ ?st0] =>
        destruct (for_each_send
                    (fun chunk =>
                       SendMessage (disp_chatId d) chunk (disp_replyToMessageId d))
                    (fun chunk =>
                       sendMessageFeishu H (disp_chatId d) chunk
                         (disp_replyToMessageId d)) chunks st0)
          as (outcome & new & Hrun & Hcalls)
    end.
    eexists. split; [rewrite Hrun; simpl; by rewrite <- !app_assoc |].
    split; [done |]. split; [intros _ Hyes; done |].
    intros _ _. simpl. exact Hcalls.
Qed.

(* ===================================================================== *)
(** * Further properties of the sources                                   *)
(* ===================================================================== *)

(** X1. [resolveFeishuGroupConfig] looks a conversation up by its id without
    the white space around it, the white space of Unicode included.  A
    blank id finds nothing.  Else the group bound to the id is found; if
    the id is no key, what every object inherits under that name (as under
    [constructor]); if there is none, the group of the first key that is
    the id up to case, unless that key is empty; else nothing.  White space
    around the id changes nothing; without an id there is no group. *)
Theorem group_config_lookup (E : Engine) (cfg : option FeishuConfig) (groupId : string) :
  let configured := default [] (cfg ≫= groups) in
  (forall found,
     resolveFeishuGroupConfig E cfg (Some groupId) = found
     <-> group_for E configured groupId found)
  /\ (forall pre post,
        blank pre -> blank post ->
        resolveFeishuGroupConfig E cfg (Some (pre +:+ groupId +:+ post))
        = resolveFeishuGroupConfig E cfg (Some groupId))
  /\ resolveFeishuGroupConfig E cfg None = None
  /\ (forall g1 g2,
        resolveFeishuGroupConfig E
          (Some (Sample.with_groups [("Team", g1); ("TEAM", g2)])) (Some "team") = Some g1)
  /\ (forall g1 g2,
        resolveFeishuGroupConfig E
          (Some (Sample.with_groups [("TEAM", g1); ("team", g2)])) (Some "team") = Some g2)
  /\ (forall g1 g2,
        resolveFeishuGroupConfig E
          (Some (Sample.with_groups [("team", g1); ("team", g2)])) (Some "team") = Some g1)
  /\ (forall g,
        resolveFeishuGroupConfig E (Some (Sample.with_groups [("team", g)]))
          (Some (IDEOGRAPHIC_SPACE +:+ "team" +:+ NBSP +:+ LF)) = Some g)
  /\ (forall g,
        resolveFeishuGroupConfig E (Some (Sample.with_groups [("team", g)]))
          (Some "constructor") = Some inherited_member)
  /\ (forall g,
        resolveFeishuGroupConfig E (Some (Sample.with_groups [("team", g)]))
          (Some "Constructor") = None).
Proof.
  intros configured.
  split; [intros found; symmetry; apply resolveFeishuGroupConfig_spec |].
  split.
  { intros pre post Hpre Hpost. unfold resolveFeishuGroupConfig. cbn [option_map].
    by rewrite trim_padding. }
  repeat split; intros; reflexivity.
Qed.

(** ** More on the allow-list *)

Section AllowlistSets.

Context (E : Engine).

Implicit Types (l : list AllowEntry).

Lemma listed_mono l l' x :
  (forall entry, entry ∈ l -> entry ∈ l') -> listed E l x -> listed E l' x.
Proof.
  intros Hsub [Hx (entry & s & Hin & Hs & He)]. split; [done |].
  exists entry, s. split; [auto | done].
Qed.

Lemma allowlist_same_listed l l' senderId senderName :
  (forall x, listed E l x <-> listed E l' x) ->
  resolveFeishuAllowlistMatch E l senderId senderName
  = resolveFeishuAllowlistMatch E l' senderId senderName.
Proof.
  intros Hsame.
  destruct (allowlist_cases E l senderId senderName)
    as [[Hw ->] | [(Hw & Hi & ->) | [(Hw & Hi & n & Hname & Hn & ->) | (Hw & Hi & Hn & ->)]]];
    destruct (allowlist_cases E l' senderId senderName)
      as [[Hw' ->] | [(Hw' & Hi' & ->) | [(Hw' & Hi' & n' & Hname' & Hn' & ->)
                                         | (Hw' & Hi' & Hn' & ->)]]];
    try done;
    try (by apply Hsame in Hw); try (by apply Hsame in Hw');
    try (by apply Hsame in Hi); try (by apply Hsame in Hi').
  - rewrite Hname in Hname'. by injection Hname' as <-.
  - apply Hsame in Hn. by destruct (Hn' n).
  - destruct (Hn n' Hname'). by apply Hsame.
Qed.

Lemma allowed_listed l senderId senderName :
  allowed (resolveFeishuAllowlistMatch E l senderId senderName) = true
  <-> sender_listed E l senderId senderName.
Proof. apply (isFeishuGroupAllowed_accepts E GroupAllowlist). Qed.

End AllowlistSets.

(** X2. The answer of [resolveFeishuAllowlistMatch] depends on the entries as a
    set: two lists with the same entries, in any order and any number of
    times, give the same match for every sender. *)
Theorem allowlist_is_a_set
    (E : Engine) (l l' : list AllowEntry) (senderId : string) (senderName : option string)
    (Hsame : forall entry, entry ∈ l <-> entry ∈ l') :
  resolveFeishuAllowlistMatch E l senderId senderName
  = resolveFeishuAllowlistMatch E l' senderId senderName.
Proof.
  apply allowlist_same_listed. intros x.
  split; apply listed_mono; intros entry; by apply Hsame.
Qed.

Lemma allowlist_is_a_set_witness :
  resolveFeishuAllowlistMatch Sample.engine
    [EntryStr "ou_a"; EntryNum 7; EntryStr "ou_a"] "OU_A" None
  = resolveFeishuAllowlistMatch Sample.engine [EntryNum 7; EntryStr "ou_a"] "OU_A" None.
Proof.
  apply (allowlist_is_a_set Sample.engine [EntryStr "ou_a"; EntryNum 7; EntryStr "ou_a"]
           [EntryNum 7; EntryStr "ou_a"] "OU_A" None).
  intros entry. rewrite !elem_of_cons, !elem_of_nil. tauto.
Defined.

(** X3. Entries added to an allow-list, before or after the ones it has, never
    lock out a sender it allowed. *)
Theorem allowlist_grows
    (E : Engine) (l before after : list AllowEntry) (senderId : string) (senderName : option string)
    (Hallowed : allowed (resolveFeishuAllowlistMatch E l senderId senderName) = true) :
  allowed (resolveFeishuAllowlistMatch E (before ++ l ++ after) senderId senderName) = true.
Proof.
  apply allowed_listed. apply allowed_listed in Hallowed.
  assert (Hsub : forall x, listed E l x -> listed E (before ++ l ++ after) x).
  { intros x. apply listed_mono. intros entry Hin.
    apply elem_of_app. right. apply elem_of_app. by left. }
  destruct Hallowed as [Hw | [Hi | (n & Hn & Hl)]].
  - left. auto.
  - right; left. auto.
  - right; right. exists n. auto.
Qed.

Lemma allowlist_grows_witness :
  allowed (resolveFeishuAllowlistMatch Sample.engine
             ([EntryStr "ou_bob"] ++ [EntryStr " OU_Alice "] ++ [EntryNum 42])
             "ou_alice" None) = true.
Proof.
  apply (allowlist_grows Sample.engine [EntryStr " OU_Alice "] [EntryStr "ou_bob"] [EntryNum 42]
           "ou_alice" None).
  reflexivity.
Defined.

(** ** Direct messages *)

Section DirectMessages.

Context (E : Engine) (H : Host).

Lemma dm_accepts_allowed cfg senderId :
  bool_decide (dm_policy_of cfg = DmAllowlist)
  && negb (allowed (resolveFeishuAllowlistMatch E (dm_allow_list cfg) senderId None)) = false
  <-> dm_accepts E cfg senderId.
Proof.
  unfold dm_accepts.
  destruct (dm_policy_of cfg); simpl; [done | done |].
  rewrite negb_false_iff, allowed_listed. unfold sender_listed. split.
  - intros [? | [? | (n & ? & _)]]; [by left | by right | done].
  - intros [? | ?]; [by left | right; by left].
Qed.

(** The handler, for a direct message, up to the gate. *)
Lemma handleFeishuMessage_dm cfg event botOpenId ctx st :
  parseFeishuMessageEvent E event botOpenId = Normal ctx ->
  chatType ctx = P2p ->
  let st1 := logged st [LogReceived (senderOpenId ctx) (chatId ctx) P2p] in
  handleFeishuMessage E H cfg event botOpenId st
  = if bool_decide (dm_policy_of cfg = DmAllowlist)
       && negb (allowed (resolveFeishuAllowlistMatch E (dm_allow_list cfg)
                           (senderOpenId ctx) None))
    then log (LogNotInDmAllowlist (senderOpenId ctx)) st1
    else try_catch (handleFeishuMessage_try E H cfg event ctx (resolve_historyLimit H cfg))
           (fun err => emit (LogFailedToDispatch err)) st1.
Proof.
  intros Hparse Hp2p st1.
  unfold handleFeishuMessage. unfold bind at 1. unfold lift at 1. rewrite Hparse.
  unfold bind at 1. unfold log at 1, emit at 1. rewrite Hp2p. simpl.
  fold st1.
  replace (default DmPairing (channels_feishu cfg ≫= dmPolicy)) with (dm_policy_of cfg)
    by (unfold dm_policy_of; by destruct (channels_feishu cfg ≫= dmPolicy)).
  replace (default [] (channels_feishu cfg ≫= allowFrom)) with (dm_allow_list cfg)
    by (unfold dm_allow_list; by destruct (channels_feishu cfg ≫= allowFrom)).
  by destruct (bool_decide _ && negb _).
Qed.

(** The [try] block of a direct message: no call on the history map. *)
Lemma dispatch_run_dm cfg event ctx st :
  chatType ctx = P2p ->
  let run := try_catch (handleFeishuMessage_try E H cfg event ctx (resolve_historyLimit H cfg))
               (fun err => emit (LogFailedToDispatch err)) st in
  exists before tail,
    run = (Normal tt, {| chatHistories := chatHistories st;
                         trace := trace st ++ before ++ tail |})
    /\ forallb prepare_event before = true
    /\ ((exists payload result,
           tail = [Called (DispatchReply payload) true;
                   Called MarkDispatchIdle true;
                   Log (LogDispatchComplete (queuedFinal result) (counts_final result))])
        \/ (exists failed err,
              failed_tail failed /\ tail = failed ++ [LogFailedToDispatch err])).
Proof.
  intros Hp2p run. subst run.
  destruct (dispatch_run E H cfg event ctx st)
    as (before & Hbefore & [(payload & result & Hrun) | (failed & err & Hfailed & Hrun)]);
    rewrite Hrun, ?Hp2p; simpl.
  - exists before. eexists. split; [done |]. split; [done |]. left. by exists payload, result.
  - exists before. eexists. split; [done |]. split; [done |]. right. by exists failed, err.
Qed.

End DirectMessages.

(** X4. The gate of direct messages.  Under [allowlist] a direct message goes
    past the gate exactly when [allowFrom] holds the wildcard or the
    sender's [open_id], entries read trimmed and in lower case; the sender's
    name is not looked at.  Under [open] and under [pairing], which is also
    the policy when none is set, every direct message goes past the gate.
    A rejected message leaves two log lines and nothing else. *)
Theorem dm_gate
    (E : Engine) (H : Host) (cfg : ClawdbotConfig) (event : FeishuMessageEvent)
    (botOpenId : option string) (ctx : FeishuMessageContext) (st : State)
    (Hparse : parseFeishuMessageEvent E event botOpenId = Normal ctx)
    (Hp2p : chatType ctx = P2p) :
  let run := handleFeishuMessage E H cfg event botOpenId st in
  let accepts := dm_accepts E cfg (senderOpenId ctx) in
  (accepts <-> past_dm_gate ctx st run.2)
  /\ (~ accepts ->
      run = (Normal tt,
             logged st [LogReceived (senderOpenId ctx) (chatId ctx) P2p;
                        LogNotInDmAllowlist (senderOpenId ctx)]))
  /\ (dm_policy_of cfg <> DmAllowlist -> accepts).
Proof.
  intros run accepts.
  assert (Hdropped : ~ accepts ->
            run = (Normal tt,
                   logged st [LogReceived (senderOpenId ctx) (chatId ctx) P2p;
                              LogNotInDmAllowlist (senderOpenId ctx)])).
  { intros Hno. subst run accepts.
    rewrite (handleFeishuMessage_dm E H cfg event botOpenId ctx st Hparse Hp2p).
    rewrite <- dm_accepts_allowed in Hno. apply not_false_is_true in Hno. rewrite Hno.
    unfold log, emit, logged. simpl. by rewrite <- app_assoc. }
  assert (Hpast : accepts -> past_dm_gate ctx st run.2).
  { intros Hyes. subst run accepts. unfold past_dm_gate.
    rewrite (handleFeishuMessage_dm E H cfg event botOpenId ctx st Hparse Hp2p).
    apply dm_accepts_allowed in Hyes. rewrite Hyes.
    destruct (dispatch_run_dm E H cfg event ctx
                (logged st [LogReceived (senderOpenId ctx) (chatId ctx) P2p]) Hp2p)
      as (before & tail & -> & Hbefore & Htail).
    simpl. rewrite <- app_assoc, added_app. intros Hin.
    apply elem_of_app in Hin as [Hin | Hin].
    { apply list_elem_of_singleton in Hin. done. }
    apply elem_of_app in Hin as [Hin | Hin].
    { assert (Hev : prepare_event (Log (LogNotInDmAllowlist (senderOpenId ctx))) = false)
        by reflexivity.
      by apply (rejected_by _ _ _ Hbefore Hev) in Hin. }
    destruct Htail as [(payload & result & ->) | (failed & err & Hfailed & ->)].
    - repeat (apply elem_of_cons in Hin as [Hin | Hin]; [done |]).
      by apply elem_of_nil in Hin.
    - apply elem_of_app in Hin as [Hin | Hin].
      + destruct Hfailed as [-> | [(payload & ->) | (payload & ->)]];
          repeat (apply elem_of_cons in Hin as [Hin | Hin]; [done |]);
          by apply elem_of_nil in Hin.
      + by apply list_elem_of_singleton in Hin. }
  split; [| split; [exact Hdropped |]].
  - split; [exact Hpast |]. intros Hgate.
    destruct (bool_decide (dm_policy_of cfg = DmAllowlist)
              && negb (allowed (resolveFeishuAllowlistMatch E (dm_allow_list cfg)
                                  (senderOpenId ctx) None))) eqn:Hgo.
    2:{ by apply dm_accepts_allowed. }
    exfalso. apply Hgate. rewrite Hdropped.
    + unfold logged. simpl. rewrite added_app. simpl.
      apply elem_of_cons. right. apply elem_of_cons. by left.
    + subst accepts. rewrite <- dm_accepts_allowed, Hgo. done.
  - intros Hpolicy. subst accepts. unfold dm_accepts.
    by destruct (dm_policy_of cfg).
Qed.

Lemma dm_gate_witness :
  let event :=
    {| sender := {| sender_id := Sample.user "ou_alice"; sender_type := None;
                    tenant_key := None |};
       message := {| message_id := "om_2"; root_id := None; parent_id := None;
                     chat_id := "oc_dm"; chat_type := P2p; message_type := "text";
                     content := Sample.stringify Sample.text_hello; mentions := None |} |} in
  let cfg :=
    {| channels_feishu :=
         Some {| dmPolicy := Some DmAllowlist; allowFrom := Some [EntryStr "OU_Alice "];
                 groupPolicy := None; groupAllowFrom := None; groups := None;
                 requireMention := None; historyLimit := None; mediaMaxMb := None;
                 renderMode := None |};
       messages_groupChat_historyLimit := None |} in
  Log (LogNotInDmAllowlist "ou_alice")
  ∉ added (Sample.initial None)
      (handleFeishuMessage Sample.engine Sample.host cfg event None (Sample.initial None)).2.
Proof.
  intros event cfg.
  refine (proj1 (proj1 (dm_gate Sample.engine Sample.host cfg event None
                          {| chatId := "oc_dm"; messageId := "om_2"; senderId := "ou_alice";
                             senderOpenId := "ou_alice"; senderName := None; chatType := P2p;
                             mentionedBot := false; rootId := None; parentId := None;
                             ctx_content := JStr "hello team"; ctx_contentType := "text" |}
                          (Sample.initial None) eq_refl eq_refl)) _).
  right. split; [done |]. exists (EntryStr "OU_Alice "), "OU_Alice". split; [by left |].
  split; [apply trim_stripped; reflexivity | reflexivity].
Defined.

(** X5. A direct message never touches the history: whatever the policy and
    whatever the outcome of the dispatch, the handler returns with the
    history map it was given and its run holds no call that records or
    clears a history. *)
Theorem dm_leaves_history_alone
    (E : Engine) (H : Host) (cfg : ClawdbotConfig) (event : FeishuMessageEvent)
    (botOpenId : option string) (ctx : FeishuMessageContext) (st : State)
    (Hparse : parseFeishuMessageEvent E event botOpenId = Normal ctx)
    (Hp2p : chatType ctx = P2p) :
  let run := handleFeishuMessage E H cfg event botOpenId st in
  run.1 = Normal tt
  /\ chatHistories run.2 = chatHistories st
  /\ forallb (fun e => negb (history_event e)) (added st run.2) = true.
Proof.
  intros run. subst run.
  rewrite (handleFeishuMessage_dm E H cfg event botOpenId ctx st Hparse Hp2p).
  destruct (bool_decide _ && negb _).
  - unfold log, emit, logged. simpl. rewrite <- app_assoc, added_app. done.
  - destruct (dispatch_run_dm E H cfg event ctx
                (logged st [LogReceived (senderOpenId ctx) (chatId ctx) P2p]) Hp2p)
      as (before & tail & -> & Hbefore & Htail).
    simpl. rewrite <- app_assoc, added_app.
    split; [done |]. split; [done |].
    change (?a :: before ++ tail) with ([a] ++ before ++ tail).
    rewrite !forallb_app. simpl.
    apply andb_true_intro. split.
    + apply forallb_forall. intros e He.
      pose proof (proj1 (forallb_forall _ _) Hbefore e He) as Hp.
      by destruct e as [[]| |[]].
    + destruct Htail as [(payload & result & ->) | (failed & err & Hfailed & ->)]; [done |].
      by destruct Hfailed as [-> | [(payload & ->) | (payload & ->)]].
Qed.

Lemma dm_leaves_history_alone_witness :
  let event :=
    {| sender := {| sender_id := Sample.user "ou_alice"; sender_type := None;
                    tenant_key := None |};
       message := {| message_id := "om_2"; root_id := None; parent_id := None;
                     chat_id := "oc_dm"; chat_type := P2p; message_type := "text";
                     content := Sample.stringify Sample.text_hello; mentions := None |} |} in
  let history := Some {["oc_dm" := [history_entry Sample.host Sample.hello_ctx]]} in
  chatHistories
    (handleFeishuMessage Sample.engine Sample.host (Sample.config GroupOpen [] None) event None
       (Sample.initial history)).2
  = history.
Proof.
  intros event history.
  exact (proj1 (proj2 (dm_leaves_history_alone Sample.engine Sample.host
                         (Sample.config GroupOpen [] None) event None
                         {| chatId := "oc_dm"; messageId := "om_2"; senderId := "ou_alice";
                            senderOpenId := "ou_alice"; senderName := None; chatType := P2p;
                            mentionedBot := false; rootId := None; parentId := None;
                            ctx_content := JStr "hello team"; ctx_contentType := "text" |}
                         (Sample.initial history) eq_refl eq_refl))).
Defined.

(** The parsed content is never [null]: a [text] field that is falsy gives
    way to the empty string. *)
Lemma parseMessageContent_not_null (E : Engine) (content messageType : string) :
  parseMessageContent E content messageType <> JNull.
Proof.
  unfold parseMessageContent.
  destruct (JSON_parse E content) as [parsed|err]; simpl; [| done].
  destruct (String.eqb messageType "text"); simpl.
  - destruct (get "text" parsed) as [[text|]|err]; simpl; [| done | done].
    by destruct text as [| | | | |]; simpl; try destruct (_ : bool).
  - by destruct (String.eqb messageType "post").
Qed.

(** X6. The handler throws exactly when [parseFeishuMessageEvent] does, and
    then before its first log line; once the event is parsed every failure
    is caught and the handler returns.  Parsing throws exactly when
    [stripBotMention] does; an event without mentions is always parsed, so
    for such an event the handler returns; an event with a mention whose
    parsed content is not a string - a [text] message whose [text] field is
    a number, say - makes the handler throw: what the pattern of the name
    of the first mention throws when that name makes no pattern, and a
    [TypeError] otherwise. *)
Theorem handler_throws_only_while_parsing
    (E : Engine) (H : Host) (cfg : ClawdbotConfig) (event : FeishuMessageEvent)
    (botOpenId : option string) (st : State) :
  match parseFeishuMessageEvent E event botOpenId with
  | Normal ctx => (handleFeishuMessage E H cfg event botOpenId st).1 = Normal tt
  | Throw err => handleFeishuMessage E H cfg event botOpenId st = (Throw err, st)
  end
  /\ (default [] (mentions (message event)) = [] ->
      (handleFeishuMessage E H cfg event botOpenId st).1 = Normal tt)
  /\ (forall err,
        parseFeishuMessageEvent E event botOpenId = Throw err
        <-> stripBotMention E
              (parseMessageContent E (content (message event))
                 (message_type (message event)))
              (mentions (message event))
            = Throw err)
  /\ (forall mention others,
        mentions (message event) = Some (mention :: others) ->
        (forall text,
           parseMessageContent E (content (message event)) (message_type (message event))
           <> JStr text) ->
        handleFeishuMessage E H cfg event botOpenId st
        = (match RegExp_g E ("@" +:+ mention_name mention +:+ "\s*") with
           | Normal _ => Throw TypeError
           | Throw err => Throw err
           end, st)).
Proof.
  assert (Hreturns : forall ctx,
            parseFeishuMessageEvent E event botOpenId = Normal ctx ->
            (handleFeishuMessage E H cfg event botOpenId st).1 = Normal tt).
  { intros ctx Hparse. destruct (chatType ctx) eqn:Htype.
    - rewrite (handleFeishuMessage_dm E H cfg event botOpenId ctx st Hparse Htype).
      destruct (bool_decide _ && negb _); [done |].
      by destruct (dispatch_run_dm E H cfg event ctx
                     (logged st [LogReceived (senderOpenId ctx) (chatId ctx) P2p]) Htype)
        as (before & tail & -> & _).
    - rewrite (handleFeishuMessage_group E H cfg event botOpenId ctx st Hparse Htype).
      destruct (negb _); [done |].
      destruct (mention_required E cfg (chatId ctx) && negb (mentionedBot ctx)).
      + unfold bind, log, emit, history_call. simpl. by destruct (chatHistories st).
      + by destruct (dispatch_run E H cfg event ctx
                       (logged st [LogReceived (senderOpenId ctx) (chatId ctx) Group]))
          as (before & _ & [(payload & result & ->) | (tail & err & _ & ->)]). }
  split; [| split; [| split]].
  4:{ intros mention others Hmentions Htext.
      unfold handleFeishuMessage, bind, lift, parseFeishuMessageEvent, stripBotMention.
      rewrite Hmentions.
      pose proof (parseMessageContent_not_null E (content (message event))
                    (message_type (message event))) as Hnull.
      destruct (parseMessageContent E _ _) as [| | |text| |];
        try (by destruct (RegExp_g E _)).
      by destruct (Htext text). }
  - destruct (parseFeishuMessageEvent E event botOpenId) as [ctx|err] eqn:Hparse.
    + by apply (Hreturns ctx).
    + unfold handleFeishuMessage, bind, lift. by rewrite Hparse.
  - intros Hnone.
    assert (Hparsed : exists ctx, parseFeishuMessageEvent E event botOpenId = Normal ctx).
    { unfold parseFeishuMessageEvent, stripBotMention.
      destruct (mentions (message event)) as [[|m rest]|]; simpl in *; [| done |].
      - by eexists.
      - by eexists. }
    destruct Hparsed as [ctx Hparse]. by apply (Hreturns ctx).
  - intros err. unfold parseFeishuMessageEvent.
    destruct (stripBotMention E _ _); simpl; split; intros Herr; congruence.
Qed.

(** ** Parsing the content of a message *)

Section Posts.

Context (E : Engine).


Lemma concat_cons x rest : String.concat "" (x :: rest) = x +:+ String.concat "" rest.
Proof. destruct rest; simpl; [by rewrite app_empty_r | done]. Qed.

Lemma post_element_null acc : post_element E acc JNull = Throw TypeError.
Proof. by destruct acc. Qed.

Lemma post_element_run t ks element :
  is_null element = false ->
  post_element E (t, ks) element
  = Normal (t +:+ element_text E element, ks ++ option_list (image_key_of element)).
Proof.
  intros Hnull.
  destruct element as [| b | z | s | items | fields]; simpl;
    try solve [ discriminate | rewrite ?app_empty_r, ?app_nil_r; reflexivity ].
  destruct (assoc "tag" fields) as [[| b | z | s | items | fs]|]; simpl;
    try solve [ rewrite ?app_empty_r, ?app_nil_r; reflexivity ].
  do 5 (try (destruct s as [|c s];
             [| destruct c as [[] [] [] [] [] [] [] []]];
             simpl;
             try solve [ rewrite ?app_empty_r, ?app_nil_r; reflexivity ])).
  destruct (assoc "image_key" fields) as [key|]; simpl;
    [destruct (truthy key) |]; rewrite ?app_empty_r, ?app_nil_r; reflexivity.
Qed.

Lemma post_elements_run elements : forall t ks,
  if existsb is_null elements then post_elements E (t, ks) elements = Throw TypeError
  else post_elements E (t, ks) elements
       = Normal (t +:+ String.concat "" (map (element_text E) elements),
                 ks ++ omap image_key_of elements).
Proof.
  induction elements as [|element rest IH]; intros t ks.
  - simpl. by rewrite app_nil_r, app_empty_r.
  - change (post_elements E (t, ks) (element :: rest))
      with (let! acc' := post_element E (t, ks) element in post_elements E acc' rest).
    change (existsb is_null (element :: rest))
      with (is_null element || existsb is_null rest).
    replace (omap image_key_of (element :: rest))
      with (option_list (image_key_of element) ++ omap image_key_of rest)
      by (csimpl; by destruct (image_key_of element)).
    rewrite map_cons, concat_cons.
    destruct (is_null element) eqn:Hnull; cbn [orb].
    + destruct element; try discriminate. done.
    + rewrite (post_element_run t ks element Hnull). cbn [bindC].
      specialize (IH (t +:+ element_text E element)
                    (ks ++ option_list (image_key_of element))).
      destruct (existsb is_null rest); [exact IH |].
      rewrite IH. by rewrite <- app_assoc, app_assoc'.
Qed.

Lemma post_paragraphs_run blocks : forall t ks,
  if has_null blocks then post_paragraphs E (t, ks) blocks = Throw TypeError
  else post_paragraphs E (t, ks) blocks
       = Normal (t +:+ blocks_text E blocks, ks ++ embedded_keys blocks).
Proof.
  unfold blocks_text.
  induction blocks as [|paragraph rest IH]; intros t ks.
  - simpl. by rewrite app_nil_r, app_empty_r.
  - rewrite map_cons, concat_cons.
    destruct paragraph as [| b | z | s | elements | fields]; simpl;
      try (specialize (IH t ks); unfold has_null in *;
           destruct (existsb _ rest); [exact IH | exact IH]).
    pose proof (post_elements_run elements t ks) as Hels.
    destruct (existsb is_null elements); simpl.
    + by rewrite Hels.
    + rewrite Hels. simpl.
      specialize (IH ((t +:+ String.concat "" (map (element_text E) elements)) +:+ LF)
                    (ks ++ omap image_key_of elements)).
      unfold has_null in *. destruct (existsb _ rest); [exact IH |].
      rewrite IH. by rewrite <- app_assoc, !app_assoc'.
Qed.



(** The two shapes of what [parsePostContent] answers. *)
Lemma parsePostContent_cases content :
  parsePostContent E content = post_fallback
  \/ exists text blocks,
       has_null blocks = false
       /\ parsePostContent E content
          = {| textContent := or_str (trim text) rich_text_fallback;
               imageKeys := embedded_keys blocks |}.
Proof.
  unfold parsePostContent.
  destruct (JSON_parse E content) as [parsed|err]; simpl; [| by left].
  destruct (get "title" parsed) as [title|err]; simpl; [| by left].
  destruct (get "content" parsed) as [blocks_field|err]; simpl; [| by left].
  destruct (iterate (or_val blocks_field (JArr []))) as [blocks|err]; simpl; [| by left].
  match goal with
  | |- context [post_paragraphs E (?t, []) blocks] =>
      pose proof (post_paragraphs_run blocks t []) as Hrun
  end.
  destruct (has_null blocks) eqn:Hnull.
  - rewrite Hrun. by left.
  - rewrite Hrun. right. eexists _, blocks. by split.
Qed.


Lemma trim_fallback : trim rich_text_fallback = rich_text_fallback.
Proof. reflexivity. Qed.

Lemma or_str_trim_fallback text :
  let s := or_str (trim text) rich_text_fallback in
  s <> "" /\ trim s = s.
Proof.
  unfold or_str. destruct (truthy_str (trim text)) eqn:Ht.
  - split; [by apply truthy_str_true | apply trim_idem].
  - split; [done | apply trim_fallback].
Qed.

Lemma parsePostContent_text content :
  let text := textContent (parsePostContent E content) in
  text <> "" /\ trim text = text.
Proof.
  destruct (parsePostContent_cases content) as [-> | (text & blocks & _ & ->)]; simpl.
  - split; [done | apply trim_fallback].
  - apply or_str_trim_fallback.
Qed.

End Posts.




(** X9. What [parseMessageContent] makes of a content.  Content that is no
    JSON comes back as it is, whatever the type.  For a [text] message the
    answer is the [text] field when it is truthy, the empty string when the
    parsed value has none, and the raw content when the parsed value is
    [null].  For a [post] the answer is the text of the post, never empty.
    For every other type the content comes back as it is.  Only a [text]
    message can give something that is not a string. *)
Theorem message_content_edges (E : Engine) (content messageType : string) :
  let answer := parseMessageContent E content messageType in
  (forall err, JSON_parse E content = Throw err -> answer = JStr content)
  /\ (forall parsed,
        JSON_parse E content = Normal parsed ->
        (messageType = "text" ->
         answer = match parsed with
                  | JNull => JStr content
                  | JObj fields => or_val (assoc "text" fields) (JStr "")
                  | _ => JStr ""
                  end)
        /\ (messageType = "post" ->
            exists text, answer = JStr text /\ text <> "" /\ trim text = text)
        /\ (messageType <> "text" -> messageType <> "post" -> answer = JStr content))
  /\ (messageType <> "text" -> exists text, answer = JStr text).
Proof.
  intros answer. subst answer. unfold parseMessageContent.
  split; [| split].
  - intros err ->. done.
  - intros parsed ->. simpl. split; [| split].
    + intros ->. simpl. by destruct parsed.
    + intros ->. simpl. eexists. split; [done |]. apply parsePostContent_text.
    + intros Htext Hpost.
      apply String.eqb_neq in Htext, Hpost. by rewrite Htext, Hpost.
  - intros Htext. apply String.eqb_neq in Htext.
    destruct (JSON_parse E content) as [parsed|err]; simpl; [| by eexists].
    rewrite Htext. destruct (String.eqb messageType "post"); by eexists.
Qed.

(** ** The media of a message *)

Section MediaPayloads.

Lemma omap_length_all {A B} (f : A -> option B) (l : list A) :
  length (omap f l) = length l <-> Forall (fun x => is_Some (f x)) l.
Proof.
  induction l as [|x rest IH]; csimpl.
  - split; [constructor | done].
  - pose proof (omap_length_le f rest) as Hle.
    destruct (f x) as [y|] eqn:Hx; simpl.
    + split.
      * intros [= Hlen]. constructor; [by rewrite Hx | by apply IH].
      * intros Hall. inversion Hall as [|? ? _ Hrest]. f_equal. by apply IH.
    + split; [lia |]. intros Hall. inversion Hall as [|? ? Hsome _].
      rewrite Hx in Hsome. by destruct Hsome.
Qed.

End MediaPayloads.

(** X10. The payload [buildFeishuMediaPayload] builds.  [MediaUrl] repeats
    [MediaPath] and [MediaUrls] repeats [MediaPaths]; [MediaPath] and
    [MediaType] are read off the first media; without media every field is
    undefined; with media [MediaPaths] holds one path per media, in order.
    [MediaTypes] holds the content types that are set, in order, and is
    undefined when there is none: it is never empty, never longer than
    [MediaPaths], and as long as [MediaPaths] exactly when every media has a
    content type. *)
Theorem media_payload_shape (mediaList : list FeishuMediaInfo) :
  let payload := buildFeishuMediaPayload mediaList in
  MediaUrl payload = MediaPath payload
  /\ MediaUrls payload = MediaPaths payload
  /\ MediaPath payload = head (map path mediaList)
  /\ MediaType payload = head mediaList ≫= contentType
  /\ (mediaList = [] -> payload = no_media)
  /\ (mediaList <> [] -> MediaPaths payload = Some (map path mediaList))
  /\ (forall types,
        MediaTypes payload = Some types ->
        types = omap media_type mediaList
        /\ types <> []
        /\ (length types <= length mediaList)%nat
        /\ (length types = length mediaList
            <-> Forall (fun media => is_Some (media_type media)) mediaList))
  /\ (MediaTypes payload = None <-> omap media_type mediaList = []).
Proof.
  intros payload. subst payload. unfold buildFeishuMediaPayload. simpl.
  fold media_type.
  change (omap (fun media => match contentType media with
                           | Some t => if truthy_str t then Some t else None
                           | None => None
                           end) mediaList) with (omap media_type mediaList).
  split; [done |]. split; [done |].
  split; [by destruct mediaList |].
  split; [done |].
  split; [by intros -> |].
  split; [by destruct mediaList |].
  split.
  - intros types Htypes.
    destruct (omap media_type mediaList) as [|t rest] eqn:Hall; [done |].
    simpl in Htypes. injection Htypes as <-.
    split; [done |]. split; [done |]. rewrite <- Hall.
    split; [apply omap_length_le | apply omap_length_all].
  - destruct (omap media_type mediaList); simpl; split; intros; done.
Qed.

(** Closes the run of a branch of the resolver. *)
Ltac media_branch :=
  eexists _, _;
  split; [ rewrite <- ?app_assoc; reflexivity |];
  simpl;
  split; [ lia |];
  split; [ lia |];
  split; [ intros ? ? ? Hin; apply list_elem_of_singleton in Hin; by injection Hin as -> -> -> |];
  split; [ intros ? Hin;
           first [ by apply elem_of_nil in Hin
                 | apply list_elem_of_singleton in Hin; by subst ] |];
  let Hfalse := fresh in intros Hfalse; discriminate.


(** X11. A message that is no post resolves to at most one media, through at
    most one download.  The download is asked for the message itself, with a
    truthy key and with resource type [image] for an [image] message and
    [file] for every other type; a media that is returned was downloaded and
    carries the placeholder of the message type.  A message whose type is
    not a media type asks for nothing and logs nothing.  The histories are
    not touched. *)
Theorem one_media_per_message
    (E : Engine) (H : Host) (messageId messageType content : string) (maxBytes : Z)
    (st : State) (Hpost : messageType <> "post") :
  exists out new,
    resolveFeishuMediaList E H messageId messageType content maxBytes st
    = (Normal out, {| chatHistories := chatHistories st; trace := trace st ++ new |})
    /\ (length out <= 1)%nat
    /\ (length (downloads new) <= 1)%nat
    /\ (forall id key type,
          (id, key, type) ∈ downloads new ->
          id = messageId /\ truthy key = true /\ type = resource_type messageType)
    /\ (forall info,
          info ∈ out ->
          placeholder info = inferPlaceholder messageType
          /\ length (downloads new) = 1%nat)
    /\ (includes mediaTypes messageType = false -> out = [] /\ new = []).
Proof.
  apply String.eqb_neq in Hpost.
  assert (Hnothing : exists out new,
            (Normal [], st)
            = (Normal out, {| chatHistories := chatHistories st; trace := trace st ++ new |})
            /\ (length out <= 1)%nat
            /\ (length (downloads new) <= 1)%nat
            /\ (forall id key type,
                  (id, key, type) ∈ downloads new ->
                  id = messageId /\ truthy key = true /\ type = resource_type messageType)
            /\ (forall info,
                  info ∈ out ->
                  placeholder info = inferPlaceholder messageType
                  /\ length (downloads new) = 1%nat)
            /\ (out = [] /\ new = [])).
  { exists [], []. rewrite app_nil_r. split; [by destruct st |]. simpl.
    split; [lia |]. split; [lia |].
    split; [intros ? ? ? Hin; by apply elem_of_nil in Hin |].
    split; [intros ? Hin; by apply elem_of_nil in Hin | done]. }
  unfold resolveFeishuMediaList. rewrite Hpost.
  destruct (includes mediaTypes messageType) eqn:Htypes; simpl.
  2:{ destruct Hnothing as (out & new & Hrun & H1 & H2 & H3 & H4 & H5).
      exists out, new. unfold ret. by rewrite Hrun. }
  assert (Hquiet : exists out new,
            (Normal [], st)
            = (Normal out, {| chatHistories := chatHistories st; trace := trace st ++ new |})
            /\ (length out <= 1)%nat
            /\ (length (downloads new) <= 1)%nat
            /\ (forall id key type,
                  (id, key, type) ∈ downloads new ->
                  id = messageId /\ truthy key = true /\ type = resource_type messageType)
            /\ (forall info,
                  info ∈ out ->
                  placeholder info = inferPlaceholder messageType
                  /\ length (downloads new) = 1%nat)
            /\ (true = false -> out = [] /\ new = [])).
  { destruct Hnothing as (out & new & Hrun & H1 & H2 & H3 & H4 & H5).
    exists out, new. by rewrite Hrun. }
  destruct (negb (truthy_opt (imageKey (parseMediaKeys E content messageType)))
            && negb (truthy_opt (fileKey (parseMediaKeys E content messageType)))).
  { exact Hquiet. }
  unfold try_catch.
  destruct (if truthy_opt (imageKey (parseMediaKeys E content messageType))
            then imageKey (parseMediaKeys E content messageType)
            else fileKey (parseMediaKeys E content messageType)) as [key|].
  2:{ exact Hquiet. }
  destruct (truthy key) eqn:Hkey; simpl.
  2:{ exact Hquiet. }
  fold (resource_type messageType).
  destruct (downloadMessageResourceFeishu H messageId key (resource_type messageType))
    as [result|err]; run_steps.
  2:{ media_branch. }
  destruct (truthy_str (default "" (dl_contentType result))); run_steps.
  - destruct (saveMediaBuffer H _ _ _ _ _) as [saved|err]; run_steps; media_branch.
  - destruct (detectMime H (dl_buffer result)) as [detected|err]; run_steps.
    2:{ media_branch. }
    destruct (saveMediaBuffer H _ _ _ _ _) as [saved|err]; run_steps; media_branch.
Qed.

Lemma one_media_per_message_witness :
  exists out new,
    resolveFeishuMediaList Sample.engine Sample.host "om_1" "video"
      (Sample.stringify Sample.video_with_thumbnail) 100 (Sample.initial None)
    = (Normal out, {| chatHistories := None; trace := [] ++ new |})
    /\ (length out <= 1)%nat
    /\ (length (downloads new) <= 1)%nat
    /\ (forall id key type,
          (id, key, type) ∈ downloads new ->
          id = "om_1" /\ truthy key = true /\ type = resource_type "video")
    /\ (forall info,
          info ∈ out ->
          placeholder info = inferPlaceholder "video" /\ length (downloads new) = 1%nat)
    /\ (includes mediaTypes "video" = false -> out = [] /\ new = []).
Proof.
  apply (one_media_per_message Sample.engine Sample.host "om_1" "video"
           (Sample.stringify Sample.video_with_thumbnail) 100 (Sample.initial None)).
  discriminate.
Defined.

(** X12. Content that is no JSON resolves to no media, whatever the message
    type: nothing is downloaded and nothing is logged. *)
Theorem unparsable_content_has_no_media
    (E : Engine) (H : Host) (messageId messageType content : string) (maxBytes : Z)
    (st : State) (err : JsError)
    (Hparse : JSON_parse E content = Throw err) :
  resolveFeishuMediaList E H messageId messageType content maxBytes st = (Normal [], st)
  /\ parseMediaKeys E content messageType
     = {| imageKey := None; fileKey := None; fileName := None |}
  /\ imageKeys (parsePostContent E content) = [].
Proof.
  assert (Hkeys : parseMediaKeys E content messageType
                  = {| imageKey := None; fileKey := None; fileName := None |}).
  { unfold parseMediaKeys. by rewrite Hparse. }
  assert (Hpost : imageKeys (parsePostContent E content) = []).
  { unfold parsePostContent. by rewrite Hparse. }
  split; [| by split].
  unfold resolveFeishuMediaList. rewrite Hkeys, Hpost. simpl.
  destruct (negb (includes mediaTypes messageType)); [done |].
  by destruct (String.eqb messageType "post").
Qed.

Lemma unparsable_content_has_no_media_witness :
  resolveFeishuMediaList Sample.engine Sample.host "om_1" "image" "{not json" 100
    (Sample.initial None)
  = (Normal [], Sample.initial None).
Proof.
  exact (proj1 (unparsable_content_has_no_media Sample.engine Sample.host "om_1" "image"
                  "{not json" 100 (Sample.initial None) SyntaxError eq_refl)).
Defined.

(** ** What a run tells its collaborators *)

Section Traces.

Context (P : Effect -> bool).

Lemma quiet_traces {A} (m : M A) : quiet P m -> traces P m.
Proof. intros Hm st. by destruct (Hm st) as [_ Hnew]. Qed.

Lemma traces_ret {A} (a : A) : traces P (ret a).
Proof. apply quiet_traces, quiet_ret. Qed.

Lemma traces_emit e : P e = true -> traces P (emit e).
Proof. intros He. by apply quiet_traces, quiet_emit. Qed.

Lemma traces_call {A} c (r : Completion A) :
  (forall ok, P (Called c ok) = true) -> traces P (call c r).
Proof. intros Hc. by apply quiet_traces, quiet_call. Qed.

Lemma traces_history_call c f :
  P (Called c true) = true -> traces P (history_call c f).
Proof.
  intros Hc st. unfold history_call. destruct (chatHistories st); simpl.
  - exists [Called c true]. simpl. by rewrite Hc.
  - exists []. by rewrite app_nil_r.
Qed.

Lemma traces_bind {A B} (m : M A) (k : A -> M B) :
  traces P m -> (forall a, traces P (k a)) -> traces P (bind m k).
Proof.
  intros Hm Hk st. unfold bind. destruct (Hm st) as (n1 & Ht1 & Hp1).
  destruct (m st) as [[a|e] st1]; simpl in *; [| by exists n1].
  destruct (Hk a st1) as (n2 & Ht2 & Hp2).
  exists (n1 ++ n2). split.
  - by rewrite Ht2, Ht1, <- app_assoc.
  - by rewrite forallb_app, Hp1, Hp2.
Qed.

Lemma traces_bind_lift {A B} (c : Completion A) (k : A -> M B) :
  (forall a, c = Normal a -> traces P (k a)) -> traces P (bind (lift c) k).
Proof.
  intros Hk st. unfold bind, lift. destruct c as [a|e]; simpl.
  - by apply Hk.
  - exists []. by rewrite app_nil_r.
Qed.

Lemma traces_try_catch {A} (m : M A) (h : JsError -> M A) :
  traces P m -> (forall e, traces P (h e)) -> traces P (try_catch m h).
Proof.
  intros Hm Hh st. unfold try_catch. destruct (Hm st) as (n1 & Ht1 & Hp1).
  destruct (m st) as [[a|e] st1]; simpl in *; [by exists n1 |].
  destruct (Hh e st1) as (n2 & Ht2 & Hp2).
  exists (n1 ++ n2). split.
  - by rewrite Ht2, Ht1, <- app_assoc.
  - by rewrite forallb_app, Hp1, Hp2.
Qed.

Lemma traces_added {A} (m : M A) st e :
  traces P m -> e ∈ added st (m st).2 -> P e = true.
Proof.
  intros Hm Hin. destruct (Hm st) as (new & Htrace & Hnew).
  unfold added in Hin. rewrite Htrace, drop_app_length in Hin.
  apply (proj1 (forallb_forall P new) Hnew). by apply list_elem_of_In.
Qed.

Context (E : Engine) (H : Host).

(** The whole handler only tells what its preparation tells and what the
    handler itself tells. *)
Lemma handleFeishuMessage_traces cfg event botOpenId :
  (forall e, handler_event e = true -> P e = true) ->
  (forall ctx,
     parseFeishuMessageEvent E event botOpenId = Normal ctx ->
     quiet P (handleFeishuMessage_prepare E H cfg event ctx (resolve_historyLimit H cfg))) ->
  traces P (handleFeishuMessage E H cfg event botOpenId).
Proof.
  intros Hown Hprepare. unfold handleFeishuMessage. cbv zeta.
  apply traces_bind_lift. intros ctx Hparse.
  apply traces_bind; [by apply traces_emit, Hown |]. intros _.
  assert (Hdispatch :
    traces P (try_catch (handleFeishuMessage_try E H cfg event ctx (resolve_historyLimit H cfg))
                (fun err => emit (LogFailedToDispatch err)))).
  { apply traces_try_catch; [| intros err; by apply traces_emit, Hown].
    unfold handleFeishuMessage_try. cbv zeta.
    apply traces_bind; [by apply quiet_traces, Hprepare |].
    intros [ctxPayload dispatcher].
    apply traces_bind; [apply traces_call; intros; by apply Hown |]. intros result.
    apply traces_bind; [apply traces_call; intros; by apply Hown |]. intros _.
    apply traces_bind; [| intros _; by apply traces_emit, Hown].
    destruct (_ && _); [by apply traces_history_call, Hown | apply traces_ret]. }
  destruct (bool_decide (chatType ctx = Group)).
  - destruct (negb _); [by apply traces_emit, Hown |].
    destruct (_ && negb _); [| exact Hdispatch].
    apply traces_bind; [by apply traces_emit, Hown |]. intros _.
    by apply traces_history_call, Hown.
  - destruct (_ && negb _); [by apply traces_emit, Hown | exact Hdispatch].
Qed.

Lemma quiet_bind_lift {A B} (c : Completion A) (k : A -> M B) :
  (forall a, c = Normal a -> quiet P (k a)) -> quiet P (bind (lift c) k).
Proof.
  intros Hk st. unfold bind, lift. destruct c as [a|e]; simpl.
  - by apply Hk.
  - apply extends_refl.
Qed.

(** The preparation of the dispatch, statement by statement. *)
Lemma handleFeishuMessage_prepare_tells cfg event ctx historyLimit :
  (forall body sessionKey ok,
     ctx_content ctx = JStr body ->
     P (Called (EnqueueSystemEvent
                  (inbound_label ctx +:+ ": " +:+ slice0 160 (collapse_ws body))
                  sessionKey (context_key ctx)) ok) = true) ->
  quiet P (resolveFeishuMediaList E H (messageId ctx) (message_type (message event))
             (content (message event)) (media_limit cfg)) ->
  (forall parent ok, parentId ctx = Some parent -> P (Called (GetMessage parent) ok) = true) ->
  (forall e, quoted_event e = true -> P e = true) ->
  quiet P (handleFeishuMessage_prepare E H cfg event ctx historyLimit).
Proof.
  intros Henqueue Hmedia Hget Hquoted.
  unfold handleFeishuMessage_prepare. cbv zeta.
  apply quiet_bind; [apply quiet_lift | intros route].
  apply quiet_bind_lift. intros text Htext.
  assert (Hbody : ctx_content ctx = JStr text).
  { destruct (ctx_content ctx); try discriminate. by injection Htext as ->. }
  apply quiet_bind; [apply quiet_call; intros ok; by apply (Henqueue text) | intros _].
  apply quiet_bind; [exact Hmedia | intros mediaList].
  apply quiet_bind.
  { destruct (parentId ctx) as [parent|]; [| apply quiet_ret].
    apply quiet_try_catch.
    - apply quiet_bind; [apply quiet_call; intros ok; by apply Hget |].
      intros [quoted|]; [| apply quiet_ret].
      apply quiet_bind; [by apply quiet_log, Hquoted | intros _; apply quiet_ret].
    - intros err.
      apply quiet_bind; [by apply quiet_log, Hquoted | intros _; apply quiet_ret]. }
  intros quotedContent.
  apply quiet_bind; [apply quiet_lift | intros envelopeOptions].
  apply quiet_bind; [apply quiet_lift | intros body].
  apply quiet_bind; [apply quiet_read | intros histories].
  apply quiet_bind.
  { destruct histories; [| apply quiet_ret].
    destruct (_ && _); [apply quiet_lift | apply quiet_ret]. }
  intros combinedBody.
  apply quiet_bind; [apply quiet_lift | intros ctxPayload].
  apply quiet_bind; [apply createFeishuReplyDispatcher_quiet | intros dispatcher].
  apply quiet_bind; [by apply quiet_log, Hquoted | intros _].
  apply quiet_ret.
Qed.

End Traces.

Section Previews.

Implicit Types (s r out t : string).

Lemma token_of_space t rest : t ∈ white_space -> t = String " " rest -> rest = "".
Proof.
  unfold white_space. intros Hin.
  repeat (apply elem_of_cons in Hin as [-> | Hin]; [by intros [= <-] |]).
  by apply elem_of_nil in Hin.
Qed.

(** Collapsing keeps the bytes that continue a character where they are. *)
Lemma collapsed_continued r out :
  collapsed r out ->
  forall p x, every is_continuation p = true -> out = p +:+ x -> exists r2, r = p +:+ r2.
Proof.
  intros Hc p. revert r out Hc. induction p as [|a p IH]; intros r out Hc x Hp Hout.
  - by exists r.
  - simpl in Hp. apply andb_prop in Hp as [Ha Hp].
    destruct Hc as [| w r1 out1 Hw Hne Hr1 Hc | c r1 out1 Hr1 Hc].
    + done.
    + injection Hout as <- _. done.
    + injection Hout as -> ->.
      destruct (IH r1 _ Hc x Hp eq_refl) as (r2 & ->). by exists r2.
Qed.

(** The collapsed text holds no white space but spaces. *)
Lemma collapsed_one_line r out :
  collapsed r out -> forall t, t ∈ white_space -> occurs t out -> t = " ".
Proof.
  induction 1 as [| w r out Hw Hne Hr Hc IH | c r out Hr Hc IH];
    intros t Ht (a & b & Heq).
  - symmetry in Heq. apply append_empty_inv in Heq as [_ Heq].
    apply append_empty_inv in Heq as [Heq _]. by destruct (token_not_empty t Ht).
  - destruct a as [|c a].
    + destruct (white_space_shape t Ht) as (c0 & rest & -> & _ & _).
      injection Heq as <- _. by rewrite (token_of_space _ rest Ht eq_refl).
    + injection Heq as _ Heq. apply (IH t Ht). by exists a, b.
  - destruct a as [|c' a].
    + destruct (white_space_shape t Ht) as (c0 & rest & -> & _ & Hrest).
      injection Heq as -> Heq.
      destruct (collapsed_continued r out Hc rest b Hrest Heq) as (r2 & ->).
      by destruct (Hr (String c0 rest) r2 Ht).
    + injection Heq as _ Heq. apply (IH t Ht). by exists a, b.
Qed.

End Previews.

Section HandlerTells.

Context (E : Engine) (H : Host).

Lemma handler_event_announces ctx e : handler_event e = true -> announces ctx e = true.
Proof. by destruct e as [[]| |[]]. Qed.

Lemma handleFeishuMessage_announces cfg event botOpenId ctx :
  parseFeishuMessageEvent E event botOpenId = Normal ctx ->
  traces (announces ctx) (handleFeishuMessage E H cfg event botOpenId).
Proof.
  intros Hparse. apply handleFeishuMessage_traces; [apply handler_event_announces |].
  intros ctx' Hparse'. rewrite Hparse in Hparse'. injection Hparse' as <-.
  apply handleFeishuMessage_prepare_tells.
  - intros body sessionKey ok Hbody. unfold announces. rewrite Hbody.
    by rewrite !String.eqb_refl.
  - apply (quiet_weaken media_event); [| apply resolveFeishuMediaList_quiet].
    intros e He. by destruct e as [[]| |[]].
  - done.
  - intros e He. by destruct e as [[]| |[]].
Qed.

Lemma resolveFeishuMediaList_within messageId messageType content maxBytes :
  quiet (within_limits messageId maxBytes)
    (resolveFeishuMediaList E H messageId messageType content maxBytes).
Proof.
  assert (Hdownload : forall key type ok,
            within_limits messageId maxBytes
              (Called (DownloadMessageResource messageId key type) ok) = true).
  { intros. apply String.eqb_refl. }
  assert (Hsave : forall buffer ct name ok,
            within_limits messageId maxBytes
              (Called (SaveMediaBuffer buffer ct maxBytes name) ok) = true).
  { intros. apply Z.eqb_refl. }
  assert (Hloop : forall keys out,
            quiet (within_limits messageId maxBytes)
              (resolve_embedded_images H messageId maxBytes out keys)).
  { induction keys as [|key rest IH]; intros out; simpl; [apply quiet_ret |].
    apply quiet_bind; [| intros; apply IH].
    unfold resolve_embedded_image. apply quiet_try_catch.
    - apply quiet_bind; [by apply quiet_call | intros result].
      apply quiet_bind; [destruct (truthy_str _); [apply quiet_ret | apply quiet_lift] |].
      intros detected.
      apply quiet_bind; [by apply quiet_call | intros saved].
      apply quiet_bind; [by apply quiet_log | intros _; apply quiet_ret].
    - intros err. apply quiet_bind; [by apply quiet_log | intros _; apply quiet_ret]. }
  unfold resolveFeishuMediaList.
  destruct (negb (includes mediaTypes messageType)); [apply quiet_ret |].
  destruct (String.eqb messageType "post").
  - destruct (length _ =? 0)%nat; [apply quiet_ret |].
    apply quiet_bind; [by apply quiet_log | intros _; apply Hloop].
  - destruct (negb _ && negb _); [apply quiet_ret |].
    cbv zeta. apply quiet_try_catch.
    + destruct (if truthy_opt _ then _ else _) as [key|]; [| apply quiet_ret].
      destruct (negb (truthy key)); [apply quiet_ret |].
      apply quiet_bind; [by apply quiet_call | intros result].
      apply quiet_bind; [destruct (truthy_str _); [apply quiet_ret | apply quiet_lift] |].
      intros detected.
      apply quiet_bind; [by apply quiet_call | intros saved].
      apply quiet_bind; [by apply quiet_log | intros _; apply quiet_ret].
    + intros err. apply quiet_bind; [by apply quiet_log | intros _; apply quiet_ret].
Qed.

Lemma handleFeishuMessage_within cfg event botOpenId :
  traces (within_limits (message_id (message event)) (media_limit cfg))
    (handleFeishuMessage E H cfg event botOpenId).
Proof.
  apply handleFeishuMessage_traces.
  - intros e He. by destruct e as [[]| |[]].
  - intros ctx Hparse.
    destruct (parsed_fields E event botOpenId ctx Hparse) as (_ & _ & Hid).
    apply handleFeishuMessage_prepare_tells.
    + done.
    + rewrite Hid. apply resolveFeishuMediaList_within.
    + done.
    + intros e He. by destruct e as [[]| |[]].
Qed.

Lemma parsed_parent event botOpenId ctx parent :
  parseFeishuMessageEvent E event botOpenId = Normal ctx ->
  parentId ctx = Some parent ->
  parent_id (message event) = Some parent /\ parent <> "".
Proof.
  unfold parseFeishuMessageEvent.
  destruct (stripBotMention E _ _) as [stripped|err]; simpl; [| done].
  intros [= <-]. simpl.
  destruct (parent_id (message event)) as [p|]; [| done].
  destruct (truthy_str p) eqn:Hp; [| done].
  intros [= <-]. split; [done | by apply truthy_str_true].
Qed.

Lemma handleFeishuMessage_fetches_parent cfg event botOpenId :
  traces (fetches_parent event) (handleFeishuMessage E H cfg event botOpenId).
Proof.
  apply handleFeishuMessage_traces.
  - intros e He. by destruct e as [[]| |[]].
  - intros ctx Hparse. apply handleFeishuMessage_prepare_tells.
    + done.
    + apply (quiet_weaken media_event); [| apply resolveFeishuMediaList_quiet].
      intros e He. by destruct e as [[]| |[]].
    + intros parent ok Hparent.
      destruct (parsed_parent event botOpenId ctx parent Hparse Hparent) as [Hid Hne].
      unfold fetches_parent. apply andb_true_intro.
      split; [by apply bool_decide_eq_true | by apply truthy_str_true].
    + intros e He. by destruct e as [[]| |[]].
Qed.

End HandlerTells.

(** X13. The system event that announces an inbound message.  Whenever the
    handler enqueues a system event, its text is the label of the message -
    the group for a group message, the sender for a direct message -, a
    colon, and a preview of the stripped text: every run of white space,
    of Unicode too, collapsed to one space, which leaves the text on one
    line, and of that the first 160 code units; its context key names the
    conversation and the message. *)
Theorem inbound_message_is_announced_briefly
    (E : Engine) (H : Host) (cfg : ClawdbotConfig) (event : FeishuMessageEvent)
    (botOpenId : option string) (ctx : FeishuMessageContext) (st : State)
    (text sessionKey contextKey : string) (ok : bool)
    (Hparse : parseFeishuMessageEvent E event botOpenId = Normal ctx)
    (Hevent : Called (EnqueueSystemEvent text sessionKey contextKey) ok
              ∈ added st (handleFeishuMessage E H cfg event botOpenId st).2) :
  exists body flat preview,
    ctx_content ctx = JStr body
    /\ collapsed body flat
    /\ (forall t, t ∈ white_space -> occurs t flat -> t = " ")
    /\ code_units preview = take 160 (code_units flat)
    /\ (length_utf16 preview <= 160)%nat
    /\ text = inbound_label ctx +:+ ": " +:+ preview
    /\ contextKey = "feishu:message:" +:+ chatId ctx +:+ ":" +:+ messageId ctx.
Proof.
  pose proof (traces_added _ _ st _
                (handleFeishuMessage_announces E H cfg event botOpenId ctx Hparse) Hevent)
    as Hannounced.
  unfold announces in Hannounced.
  destruct (ctx_content ctx) as [| | |body| |]; try discriminate.
  apply andb_prop in Hannounced as [Htext Hkey].
  apply String.eqb_eq in Htext, Hkey.
  exists body, (collapse_ws body), (slice0 160 (collapse_ws body)).
  split; [done |]. split; [apply collapse_ws_collapsed |].
  split; [apply (collapsed_one_line body), collapse_ws_collapsed |].
  split; [apply code_units_slice0 |].
  split; [apply length_slice0 | done].
Qed.

Lemma inbound_message_is_announced_briefly_witness :
  exists body flat preview,
    ctx_content Sample.mentioned_ctx = JStr body
    /\ collapsed body flat
    /\ (forall t, t ∈ white_space -> occurs t flat -> t = " ")
    /\ code_units preview = take 160 (code_units flat)
    /\ (length_utf16 preview <= 160)%nat
    /\ "Feishu message in group oc_team: hello team"
       = inbound_label Sample.mentioned_ctx +:+ ": " +:+ preview
    /\ "feishu:message:oc_team:om_1"
       = "feishu:message:" +:+ chatId Sample.mentioned_ctx +:+ ":"
         +:+ messageId Sample.mentioned_ctx.
Proof.
  apply (inbound_message_is_announced_briefly Sample.engine Sample.host
           (Sample.config GroupOpen [] None)
           (Sample.group_event "text" Sample.text_hello
              (Some [Sample.mention "@_user_1" "ou_bot" "bot"])) (Some "ou_bot")
           Sample.mentioned_ctx (Sample.initial None)
           "Feishu message in group oc_team: hello team" "session:oc_team"
           "feishu:message:oc_team:om_1" true eq_refl).
  apply list_elem_of_In. vm_compute. right. left. reflexivity.
Defined.

(** X14. The media requests of a run.  Every download the handler asks for is
    a download for the message of the event, and every save it asks for is
    bounded by the configured size: [mediaMaxMb] megabytes, 30 when it is
    not set. *)
Theorem media_requests_are_bounded
    (E : Engine) (H : Host) (cfg : ClawdbotConfig) (event : FeishuMessageEvent)
    (botOpenId : option string) (st : State) :
  let events := added st (handleFeishuMessage E H cfg event botOpenId st).2 in
  (forall id key type ok,
     Called (DownloadMessageResource id key type) ok ∈ events ->
     id = message_id (message event))
  /\ (forall buffer detected maxBytes name ok,
        Called (SaveMediaBuffer buffer detected maxBytes name) ok ∈ events ->
        maxBytes = media_limit cfg)
  /\ ((channels_feishu cfg ≫= mediaMaxMb) = None -> media_limit cfg = 31457280)
  /\ (forall feishuCfg mb,
        channels_feishu cfg = Some feishuCfg -> mediaMaxMb feishuCfg = Some mb ->
        media_limit cfg = mb * 1048576).
Proof.
  intros events. subst events.
  pose proof (handleFeishuMessage_within E H cfg event botOpenId) as Htraces.
  split; [| split; [| split]].
  - intros id key type ok Hin.
    pose proof (traces_added _ _ st _ Htraces Hin) as Hok. by apply String.eqb_eq in Hok.
  - intros buffer detected maxBytes name ok Hin.
    pose proof (traces_added _ _ st _ Htraces Hin) as Hok. by apply Z.eqb_eq in Hok.
  - intros Hnone. unfold media_limit. by rewrite Hnone.
  - intros feishuCfg mb Hcfg Hmb. unfold media_limit. rewrite Hcfg. simpl. rewrite Hmb.
    simpl. lia.
Qed.

(** ** The outcome of a delivery *)

Section DeliveryOutcome.

Lemma for_each_send_outcome (label : string -> HostCall) (send : string -> Completion unit)
    chunks st :
  (for_each chunks (fun chunk => call (label chunk) (send chunk)) st).1
  = first_failure send chunks.
Proof.
  revert st. induction chunks as [|chunk rest IH]; intros st; simpl; [done |].
  rewrite bind_run, call_run. destruct (send chunk) as [[]|err]; simpl; [apply IH | done].
Qed.

Lemma first_failure_normal {A} (send : A -> Completion unit) chunks :
  first_failure send chunks = Normal tt
  <-> Forall (fun chunk => is_normal (send chunk) = true) chunks.
Proof.
  induction chunks as [|chunk rest IH]; simpl.
  - split; [constructor | done].
  - destruct (send chunk) as [[]|err] eqn:Hsend; simpl.
    + rewrite IH. split.
      * intros Hrest. constructor; [by rewrite Hsend | done].
      * intros Hall. by inversion Hall.
    + split; [done |]. intros Hall. inversion Hall as [|? ? Hhead _].
      rewrite Hsend in Hhead. discriminate.
Qed.

End DeliveryOutcome.

(** X15. [deliver] swallows no failure.  For a fragment that is missing,
    empty or made of white space only, of Unicode too, it returns.
    Otherwise its outcome is the first failure among the conversion of the
    tables (on the plain-text path), the chunking and the sends, in that
    order, and it returns when none fails: in particular every chunk was
    then sent successfully. *)
Theorem deliver_reports_the_first_failure
    (H : Host) (cfg : ClawdbotConfig) (d : ReplyDispatcher) (payload : ReplyPayload)
    (st : State) :
  let text := default "" (payload_text payload) in
  let useCard :=
    match default RenderAuto (channels_feishu cfg ≫= renderMode) with
    | RenderCard => true
    | RenderAuto => shouldUseCard text
    | RenderRaw => false
    end in
  let chunked := fun body => chunkTextWithMode H body (textChunkLimit d) (chunkMode d) in
  let send_card := fun chunk =>
    sendMarkdownCardFeishu H (disp_chatId d) chunk (disp_replyToMessageId d) in
  let send_text := fun chunk =>
    sendMessageFeishu H (disp_chatId d) chunk (disp_replyToMessageId d) in
  let outcome := (deliver H cfg d payload st).1 in
  (blank text -> outcome = Normal tt)
  /\ (~ blank text -> useCard = true ->
      outcome = let! chunks := chunked text in first_failure send_card chunks)
  /\ (~ blank text -> useCard = false ->
      outcome = let! converted := convertMarkdownTables H text (tableMode d) in
                let! chunks := chunked converted in
                first_failure send_text chunks)
  /\ (forall chunks,
        ~ blank text -> useCard = true -> chunked text = Normal chunks ->
        (outcome = Normal tt
         <-> Forall (fun chunk => is_normal (send_card chunk) = true) chunks))
  /\ (deliver H cfg d {| payload_text := Some (LINE_SEPARATOR +:+ IDEOGRAPHIC_SPACE) |} st).1
     = Normal tt.
Proof.
  intros text useCard chunked send_card send_text outcome.
  assert (Hcard : ~ blank text -> useCard = true ->
                  outcome = let! chunks := chunked text in first_failure send_card chunks).
  { intros Htext Huse. rewrite <- trim_blank in Htext.
    subst outcome. unfold deliver. fold text. run_logs.
    apply truthy_str_true in Htext. rewrite Htext. simpl. fold useCard. rewrite Huse.
    run_logs. fold (chunked text).
    destruct (chunked text) as [chunks|err]; run_logs; [| done].
    apply (for_each_send_outcome
             (fun chunk => SendMarkdownCard (disp_chatId d) chunk (disp_replyToMessageId d))
             send_card). }
  split; [| split; [exact Hcard | split; [| split; [| reflexivity]]]].
  - intros Htext%trim_blank. subst outcome. unfold deliver. fold text. run_logs.
    apply truthy_str_false in Htext. by rewrite Htext.
  - intros Htext Huse. rewrite <- trim_blank in Htext.
    subst outcome. unfold deliver. fold text. run_logs.
    apply truthy_str_true in Htext. rewrite Htext. simpl. fold useCard. rewrite Huse.
    run_logs.
    destruct (convertMarkdownTables H text (tableMode d)) as [converted|err]; run_logs;
      [| done].
    fold (chunked converted).
    destruct (chunked converted) as [chunks|err]; run_logs; [| done].
    apply (for_each_send_outcome
             (fun chunk => SendMessage (disp_chatId d) chunk (disp_replyToMessageId d))
             send_text).
  - intros chunks Htext Huse Hchunks. rewrite (Hcard Htext Huse), Hchunks. simpl.
    apply first_failure_normal.
Qed.

(** ** The typing indicator *)

(** X16. The typing indicator is best effort.  [addTypingIndicator] throws only
    when the client cannot be created, and then before any call; without a
    configuration it calls nothing and answers with no reaction; otherwise
    it makes one call, for the message and with the emoji [Typing], and its
    answer carries the message id and the reaction id of the response,
    [null] when the call failed or the response has none.
    [removeTypingIndicator] calls nothing when the state has no reaction id
    or there is no configuration; otherwise, once the client is created, it
    makes one call, for the message and the reaction of the state, and
    returns whether or not that call failed. *)
Theorem typing_indicator_is_best_effort
    (C : Typing.Client) (cfg : ClawdbotConfig) (messageId : string)
    (state : Typing.TypingIndicatorState) :
  let added := Typing.addTypingIndicator C cfg messageId in
  let removed := Typing.removeTypingIndicator C cfg state in
  let unset := {| Typing.typing_messageId := messageId; Typing.reactionId := None |} in
  (channels_feishu cfg = None -> added = (Normal unset, []))
  /\ (forall err,
        added.1 = Throw err ->
        added.2 = []
        /\ exists feishuCfg,
             channels_feishu cfg = Some feishuCfg
             /\ Typing.createFeishuClient C feishuCfg = Throw err)
  /\ (forall feishuCfg,
        channels_feishu cfg = Some feishuCfg ->
        Typing.createFeishuClient C feishuCfg = Normal tt ->
        match Typing.messageReaction_create C messageId "Typing" with
        | Normal response =>
            added
            = (Normal {| Typing.typing_messageId := messageId;
                         Typing.reactionId :=
                           Typing.or_null
                             (Typing.optional_get "reaction_id"
                                (Typing.optional_get "data" response)) |},
               [Typing.ReactionCreate messageId "Typing" true])
        | Throw err =>
            added
            = (Normal unset,
               [Typing.ReactionCreate messageId "Typing" false; Typing.ConsoleFailedToAdd err])
        end)
  /\ (forall answer, added.1 = Normal answer -> Typing.typing_messageId answer = messageId)
  /\ (truthy_opt (Typing.reactionId state) = false \/ channels_feishu cfg = None ->
      removed = (Normal tt, []))
  /\ (forall reaction feishuCfg,
        Typing.reactionId state = Some reaction -> truthy reaction = true ->
        channels_feishu cfg = Some feishuCfg ->
        Typing.createFeishuClient C feishuCfg = Normal tt ->
        removed.1 = Normal tt
        /\ exists ok rest,
             removed.2
             = Typing.ReactionDelete (Typing.typing_messageId state) reaction ok :: rest
             /\ ok = is_normal (Typing.messageReaction_delete C
                                  (Typing.typing_messageId state) reaction)
             /\ forall e, e ∈ rest -> exists err, e = Typing.ConsoleFailedToRemove err).
Proof.
  intros added removed unset. subst added removed unset.
  unfold Typing.addTypingIndicator, Typing.removeTypingIndicator, Typing.TYPING_EMOJI.
  split; [by intros -> |].
  split.
  { intros err. destruct (channels_feishu cfg) as [feishuCfg|]; [| done].
    destruct (Typing.createFeishuClient C feishuCfg) as [[]|err'] eqn:Hclient; simpl.
    - by destruct (Typing.messageReaction_create C messageId "Typing").
    - intros [= <-]. split; [done |]. by exists feishuCfg. }
  split.
  { intros feishuCfg -> ->. by destruct (Typing.messageReaction_create C messageId "Typing"). }
  split.
  { intros answer. destruct (channels_feishu cfg) as [feishuCfg|]; simpl.
    - destruct (Typing.createFeishuClient C feishuCfg) as [[]|err']; simpl; [| done].
      destruct (Typing.messageReaction_create C messageId "Typing"); simpl;
        by intros [= <-].
    - by intros [= <-]. }
  split.
  { intros [Hnone | Hcfg].
    - destruct (Typing.reactionId state) as [reaction|]; [| done].
      simpl in Hnone. by rewrite Hnone.
    - rewrite Hcfg. destruct (Typing.reactionId state) as [reaction|]; [| done].
      by destruct (negb (truthy reaction)). }
  intros reaction feishuCfg -> Htruthy -> ->. rewrite Htruthy. simpl.
  destruct (Typing.messageReaction_delete C (Typing.typing_messageId state) reaction)
    as [[]|err]; simpl.
  - split; [done |]. exists true, []. split; [done |]. split; [done |].
    intros e He. by apply elem_of_nil in He.
  - split; [done |]. exists false, [Typing.ConsoleFailedToRemove err].
    split; [done |]. split; [done |].
    intros e He. apply list_elem_of_singleton in He. by exists err.
Qed.

Section TypingCallbacks.

Context (C : Typing.Client).

Lemma stop_returns_cleared cfg state outcome state' told :
  Typing.stop C cfg state = (outcome, state', told) ->
  outcome = Normal tt -> state' = None.
Proof.
  unfold Typing.stop. destruct state as [s|]; [| by intros [= <- <- <-]].
  destruct (Typing.removeTypingIndicator C cfg s) as [[[]|err] t].
  - by intros [= <- <- <-].
  - intros [= <- <- <-]. done.
Qed.

End TypingCallbacks.

(** X17. The two typing callbacks of the dispatcher.  [start] does nothing
    without a message to reply to.  [stop] does nothing when no indicator
    is held, and a [stop] that returns holds none afterwards, so a second
    [stop] does nothing.  When [stop] follows a [start] that returned, a
    deletion it asks for names the message [start] was given and the
    reaction id that the creation answered, which is truthy; when the
    creation failed, [stop] asks for no deletion, and still reports the
    reaction as removed. *)
Theorem typing_callbacks_pair_up
    (C : Typing.Client) (cfg : ClawdbotConfig) :
  (forall state, Typing.start C cfg None state = (Normal tt, state, [])
                 /\ Typing.start C cfg (Some "") state = (Normal tt, state, []))
  /\ Typing.stop C cfg None = (Normal tt, None, [])
  /\ (forall state state' told,
        Typing.stop C cfg state = (Normal tt, state', told) ->
        state' = None /\ Typing.stop C cfg state' = (Normal tt, None, []))
  /\ (forall messageId held held' told outcome after told',
        messageId <> "" ->
        Typing.start C cfg (Some messageId) held = (Normal tt, held', told) ->
        Typing.stop C cfg held' = (outcome, after, told') ->
        (forall target reaction ok,
           Typing.ReactionDelete target reaction ok ∈ told' ->
           target = messageId
           /\ truthy reaction = true
           /\ exists response,
                Typing.messageReaction_create C messageId "Typing" = Normal response
                /\ Typing.optional_get "reaction_id" (Typing.optional_get "data" response)
                   = Some reaction)
        /\ (forall err,
              Typing.messageReaction_create C messageId "Typing" = Throw err ->
              outcome = Normal tt /\ after = None
              /\ told' = [Typing.RuntimeRemovedReaction])).
Proof.
  split; [done |]. split; [done |]. split.
  { intros state state' told Hstop.
    assert (state' = None) as -> by (by apply (stop_returns_cleared C cfg state _ _ _ Hstop)).
    done. }
  intros messageId held held' told outcome after told' Hid Hstart Hstop.
  unfold Typing.start in Hstart.
  apply truthy_str_true in Hid. rewrite Hid in Hstart. simpl in Hstart.
  unfold Typing.addTypingIndicator, Typing.TYPING_EMOJI in Hstart.
  unfold Typing.stop, Typing.removeTypingIndicator in Hstop.
  destruct (channels_feishu cfg) as [feishuCfg|].
  2:{ injection Hstart as <- <-. simpl in Hstop. injection Hstop as <- <- <-.
      split; [| done]. intros target reaction ok Hin.
      apply list_elem_of_singleton in Hin. done. }
  destruct (Typing.createFeishuClient C feishuCfg) as [[]|err']; [| done].
  destruct (Typing.messageReaction_create C messageId "Typing") as [response|err] eqn:Hcreate.
  2:{ injection Hstart as <- <-. simpl in Hstop. injection Hstop as <- <- <-.
      split; [| done]. intros target reaction ok Hin.
      apply list_elem_of_singleton in Hin. done. }
  injection Hstart as <- <-. simpl in Hstop.
  split; [| intros err; done].
  destruct (Typing.or_null _) as [reaction|] eqn:Hreaction.
  2:{ injection Hstop as <- <- <-. intros target reaction ok Hin.
      apply list_elem_of_singleton in Hin. done. }
  assert (Hfield : Typing.optional_get "reaction_id" (Typing.optional_get "data" response)
                   = Some reaction).
  { destruct (Typing.optional_get "reaction_id" _) as [[]|]; simpl in Hreaction; congruence. }
  destruct (truthy reaction) eqn:Htruthy; simpl in Hstop.
  2:{ injection Hstop as <- <- <-. intros target reaction' ok Hin.
      apply list_elem_of_singleton in Hin. done. }
  assert (Hdelete : forall target reaction' ok rest,
            Typing.ReactionDelete target reaction' ok
            ∈ Typing.ReactionDelete messageId reaction
                (is_normal (Typing.messageReaction_delete C messageId reaction)) :: rest ->
            Forall (fun e => forall t r o, e <> Typing.ReactionDelete t r o) rest ->
            target = messageId /\ truthy reaction' = true
            /\ exists response',
                 Normal response = Normal response'
                 /\ Typing.optional_get "reaction_id" (Typing.optional_get "data" response')
                    = Some reaction').
  { intros target reaction' ok rest Hin Hrest.
    apply elem_of_cons in Hin as [Heq | Hin].
    - injection Heq as -> -> ->. split; [done |]. split; [done |]. by exists response.
    - pose proof (proj1 (Forall_forall _ _) Hrest _ Hin) as Hno. by destruct (Hno target reaction' ok). }
  destruct (Typing.messageReaction_delete C messageId reaction) as [[]|err]; simpl in *;
    injection Hstop as <- <- <-; intros target reaction' ok Hin;
    apply (Hdelete target reaction' ok _ Hin); repeat constructor; done.
Qed.

(** ** The directory of groups *)

Section DirectoryFacts.

Implicit Types (ids candidates : list string) (x q s : string).

Lemma kept_trim candidates x :
  kept candidates x
  <-> x <> "" /\ x <> "*" /\ exists candidate, candidate ∈ candidates /\ trim candidate = x.
Proof.
  unfold kept. split; intros (Hx & Hs & c & Hc & Ht); (split; [done |]; split; [done |]);
    exists c; (split; [done |]); by apply trim_stripped.
Qed.

Lemma elem_of_add ids x y : y ∈ Directory.add ids x <-> y ∈ ids \/ y = x.
Proof.
  unfold Directory.add. destruct (bool_decide (x ∈ ids)) eqn:Hin.
  - apply bool_decide_eq_true in Hin. split; [by left |]. by intros [? | ->].
  - rewrite elem_of_app, list_elem_of_singleton. done.
Qed.

Lemma NoDup_add ids x : NoDup ids -> NoDup (Directory.add ids x).
Proof.
  intros Hids. unfold Directory.add. destruct (bool_decide (x ∈ ids)) eqn:Hin; [done |].
  apply bool_decide_eq_false in Hin. apply NoDup_app. split; [done |].
  split; [| apply NoDup_singleton].
  intros y Hy Hx. apply list_elem_of_singleton in Hx. by subst.
Qed.

Lemma collect_spec candidates : forall ids,
  NoDup ids ->
  NoDup (Directory.collect ids candidates)
  /\ forall x, x ∈ Directory.collect ids candidates <-> x ∈ ids \/ kept candidates x.
Proof.
  setoid_rewrite kept_trim.
  induction candidates as [|candidate rest IH]; intros ids Hids; simpl.
  - split; [done |]. intros x. split; [by left |].
    intros [? | (_ & _ & c & Hc & _)]; [done | by apply elem_of_nil in Hc].
  - set (next := if truthy_str (trim candidate) && negb (String.eqb (trim candidate) "*")
                 then Directory.add ids (trim candidate) else ids).
    assert (Hnext : NoDup next).
    { subst next. destruct (_ && _); [by apply NoDup_add | done]. }
    destruct (IH next Hnext) as [Hnodup Hmem]. split; [exact Hnodup |].
    intros x. rewrite Hmem. subst next.
    destruct (truthy_str (trim candidate)) eqn:Hne; simpl.
    + destruct (String.eqb (trim candidate) "*") eqn:Hstar; simpl.
      * apply String.eqb_eq in Hstar. split.
        -- intros [? | (Hx & Hs & c & Hc & Ht)]; [by left |].
           right. split; [done |]. split; [done |]. exists c. split; [by right | done].
        -- intros [? | (Hx & Hs & c & Hc & Ht)]; [by left |].
           apply elem_of_cons in Hc as [-> | Hc]; [congruence |].
           right. split; [done |]. split; [done |]. by exists c.
      * apply String.eqb_neq in Hstar. apply truthy_str_true in Hne.
        rewrite elem_of_add. split.
        -- intros [[? | ->] | (Hx & Hs & c & Hc & Ht)].
           ++ by left.
           ++ right. split; [done |]. split; [done |]. exists candidate. split; [by left | done].
           ++ right. split; [done |]. split; [done |]. exists c. split; [by right | done].
        -- intros [? | (Hx & Hs & c & Hc & Ht)]; [by left; left |].
           apply elem_of_cons in Hc as [-> | Hc]; [left; by right |].
           right. split; [done |]. split; [done |]. by exists c.
    + apply truthy_str_false in Hne. split.
      * intros [? | (Hx & Hs & c & Hc & Ht)]; [by left |].
        right. split; [done |]. split; [done |]. exists c. split; [by right | done].
      * intros [? | (Hx & Hs & c & Hc & Ht)]; [by left |].
        apply elem_of_cons in Hc as [-> | Hc]; [congruence |].
        right. split; [done |]. split; [done |]. by exists c.
Qed.

Lemma map_trim_clean ids :
  Forall (fun x => x <> "" /\ trim x = x) ids ->
  List.filter truthy_str (map trim ids) = ids.
Proof.
  induction 1 as [|x rest [Hx Ht] _ IH]; simpl; [done |].
  rewrite Ht. apply truthy_str_true in Hx. rewrite Hx. by rewrite IH.
Qed.

Lemma NoDup_list_filter {A} (f : A -> bool) (l : list A) : NoDup l -> NoDup (List.filter f l).
Proof.
  induction 1 as [|a rest Ha _ IH]; simpl; [constructor |].
  destruct (f a); [| done]. constructor; [| done].
  intros Hin. apply list_elem_of_In, filter_In in Hin as [Hin _].
  by apply list_elem_of_In in Hin.
Qed.

Lemma elem_of_filtered {A} (f : A -> bool) (l : list A) (a : A) :
  a ∈ List.filter f l <-> a ∈ l /\ f a = true.
Proof. by rewrite !list_elem_of_In, filter_In. Qed.

End DirectoryFacts.

Section DirectoryListing.

Context (E : Engine) (cfg : ClawdbotConfig).

Lemma gathered_spec :
  NoDup (gathered E cfg)
  /\ forall x, x ∈ gathered E cfg <-> x <> "" /\ x <> "*" /\ configured_group E cfg x.
Proof.
  unfold gathered.
  destruct (collect_spec (map fst (default [] (channels_feishu cfg ≫= groups))) [])
    as [Hn1 Hm1]; [constructor |].
  destruct (collect_spec (map (String_ E) (default [] (channels_feishu cfg ≫= groupAllowFrom)))
              _ Hn1) as [Hn2 Hm2].
  split; [exact Hn2 |]. intros x. rewrite Hm2, Hm1. unfold kept, configured_group. split.
  - intros [[Hnil | (Hx & Hs & c & Hc & Ht)] | (Hx & Hs & c & Hc & Ht)].
    + by apply elem_of_nil in Hnil.
    + split; [done |]. split; [done |]. left. by exists c.
    + split; [done |]. split; [done |]. right.
      apply list_elem_of_fmap in Hc as (entry & -> & Hentry). by exists entry.
  - intros (Hx & Hs & [(key & Hkey & Ht) | (entry & Hentry & Ht)]).
    + left; right. split; [done |]. split; [done |]. by exists key.
    + right. split; [done |]. split; [done |]. exists (String_ E entry).
      split; [| done]. apply list_elem_of_fmap. by exists entry.
Qed.

Lemma gathered_clean : Forall (fun x => x <> "" /\ trim x = x) (gathered E cfg).
Proof.
  apply Forall_forall. intros x Hx.
  apply gathered_spec in Hx
      as (Hne & _ & [(key & _ & <-%trim_stripped) | (entry & _ & <-%trim_stripped)]);
    (split; [done | apply trim_idem]).
Qed.

Lemma matching_answers query id : matching E query id = true <-> answers E query id.
Proof.
  unfold matching, answers, str_includes. destruct query as [q|]; [| done].
  cbn [query_of]. destruct (truthy_str (toLowerCase E (trim q))) eqn:Hq.
  - apply truthy_str_true in Hq. rewrite occurs_in_spec. split.
    + intros Hin core <-%trim_stripped. by right.
    + intros Hin. by destruct (Hin (trim q) (stripped_trim q)).
  - apply truthy_str_false in Hq. split; [| done].
    intros _ core <-%trim_stripped. by left.
Qed.

(** The listing, as the composition of its four steps. *)
Lemma listFeishuDirectoryGroups_steps query limit :
  map Directory.id (Directory.listFeishuDirectoryGroups E cfg query limit)
  = (match limit with
     | Some n => if 0 <? n then take (Z.to_nat n) else fun ids => ids
     | None => fun ids => ids
     end) (List.filter (matching E query) (gathered E cfg)).
Proof.
  unfold Directory.listFeishuDirectoryGroups. cbv zeta. fold (gathered E cfg).
  rewrite map_map. simpl. rewrite map_id.
  rewrite (map_trim_clean (gathered E cfg) gathered_clean).
  assert (Hq : or_undef (toLowerCase E <$> (trim <$> query)) "" = query_of E query).
  { destruct query as [q|]; simpl; [| done]. unfold or_str.
    by destruct (toLowerCase E (trim q)). }
  rewrite Hq. fold (matching E query).
  change (fun id => if truthy_str (query_of E query)
                    then str_includes (query_of E query) (toLowerCase E id)
                    else true) with (matching E query).
  destruct limit as [n|]; [| done].
  destruct (n =? 0) eqn:Hz; simpl; [| by destruct (0 <? n)].
  apply Z.eqb_eq in Hz. by subst.
Qed.

End DirectoryListing.

(** X18. The listing of the configured groups.  No id is listed twice; every id
    listed has no white space around it, of Unicode too, is not empty and
    not the wildcard, is a key of [groups] or an entry of [groupAllowFrom]
    without the white space around it, and answers the query: the query,
    without the white space around it and in lower case, is empty or its
    code units occur in those of the id in lower case; a positive limit
    bounds the length of the listing; every entry is of kind [group] and
    has no name. *)
Theorem directory_groups_are_clean
    (E : Engine) (cfg : ClawdbotConfig) (query : option string) (limit : option Z) :
  let listing := Directory.listFeishuDirectoryGroups E cfg query limit in
  let ids := map Directory.id listing in
  NoDup ids
  /\ Forall (fun id => id <> "" /\ id <> "*" /\ clean id
                       /\ configured_group E cfg id /\ answers E query id) ids
  /\ Forall (fun group => Directory.kind group = "group" /\ Directory.name group = None)
       listing
  /\ (forall n, limit = Some n -> 0 < n -> (length listing <= Z.to_nat n)%nat).
Proof.
  intros listing ids.
  assert (Hids : ids = (match limit with
                        | Some n => if 0 <? n then take (Z.to_nat n) else fun ids => ids
                        | None => fun ids => ids
                        end) (List.filter (matching E query) (gathered E cfg))).
  { apply listFeishuDirectoryGroups_steps. }
  destruct (gathered_spec E cfg) as [Hnodup Hmem].
  pose proof (NoDup_list_filter (matching E query) _ Hnodup) as Hfiltered.
  assert (Hall : Forall (fun id => id <> "" /\ id <> "*" /\ clean id
                                   /\ configured_group E cfg id /\ answers E query id)
                   (List.filter (matching E query) (gathered E cfg))).
  { apply Forall_forall. intros id Hin.
    apply elem_of_filtered in Hin as [Hin Hmatch].
    pose proof (proj1 (Forall_forall _ _) (gathered_clean E cfg) id Hin) as [_ Htrim].
    apply Hmem in Hin as (Hne & Hstar & Hcfg).
    apply matching_answers in Hmatch.
    split; [done |]. split; [done |]. split; [| by split].
    rewrite <- Htrim. apply clean_trim. }
  split; [| split; [| split]].
  - rewrite Hids. destruct limit as [n|]; [| done].
    destruct (0 <? n); [| done]. apply (sublist_NoDup _ _ Hfiltered), sublist_take.
  - rewrite Hids. destruct limit as [n|]; [| done].
    destruct (0 <? n); [| done]. by apply Forall_take.
  - subst listing. unfold Directory.listFeishuDirectoryGroups. cbv zeta.
    apply Forall_forall. intros group Hin.
    apply list_elem_of_fmap in Hin as (id & -> & _). done.
  - intros n -> Hn. subst ids.
    rewrite <- (length_map Directory.id listing), Hids.
    apply Z.ltb_lt in Hn. rewrite Hn. rewrite length_take. lia.
Qed.

(** X19. The listing is complete, and the query and the limit compose.  Without
    query and limit, an id is listed exactly when it is configured as a
    group, not empty and not the wildcard.  A query keeps, in order, the ids
    of the full listing that answer it; a positive limit keeps the first
    ids of the listing without limit; a limit that is zero or negative is
    no limit. *)
Theorem directory_groups_query_then_limit
    (E : Engine) (cfg : ClawdbotConfig) (query : option string) (limit : option Z) :
  let ids := fun query limit =>
    map Directory.id (Directory.listFeishuDirectoryGroups E cfg query limit) in
  (forall id,
     id ∈ ids None None <-> id <> "" /\ id <> "*" /\ configured_group E cfg id)
  /\ (forall id, id ∈ ids query None <-> id ∈ ids None None /\ answers E query id)
  /\ (exists dropped, sublist (ids query None) (ids None None)
                      /\ Permutation (ids None None) (ids query None ++ dropped))
  /\ (forall n, 0 < n -> ids query (Some n) = take (Z.to_nat n) (ids query None))
  /\ (forall n, n <= 0 -> ids query (Some n) = ids query None).
Proof.
  intros ids.
  assert (Hsteps : forall query limit,
            ids query limit
            = (match limit with
               | Some n => if 0 <? n then take (Z.to_nat n) else fun ids => ids
               | None => fun ids => ids
               end) (List.filter (matching E query) (gathered E cfg))).
  { intros q l. apply listFeishuDirectoryGroups_steps. }
  assert (Hall : ids None None = gathered E cfg).
  { rewrite Hsteps. generalize (gathered E cfg). intros l.
    induction l as [|x rest IH]; simpl; [done |].
    change (matching E None x) with true. by rewrite IH. }
  destruct (gathered_spec E cfg) as [Hnodup Hmem].
  split; [| split; [| split; [| split]]].
  - intros id. rewrite Hall. apply Hmem.
  - intros id. rewrite Hall, Hsteps, elem_of_filtered, matching_answers. done.
  - rewrite Hall, Hsteps.
    exists (List.filter (fun id => negb (matching E query id)) (gathered E cfg)).
    split.
    + generalize (gathered E cfg). intros l.
      induction l as [|x rest IH]; simpl; [constructor |].
      destruct (matching E query x); [by apply sublist_skip | by apply sublist_cons].
    + generalize (gathered E cfg). intros l.
      induction l as [|x rest IH]; simpl; [constructor |].
      destruct (matching E query x); simpl.
      * by constructor.
      * rewrite <- Permutation_middle. by constructor.
  - intros n Hn. rewrite !Hsteps. apply Z.ltb_lt in Hn. by rewrite Hn.
  - intros n Hn. rewrite !Hsteps.
    destruct (0 <? n) eqn:Hpos; [| done]. apply Z.ltb_lt in Hpos. lia.
Qed.

(** ** Allow-list entries of the channel *)

Section EntryPrefixes.

Implicit Types (p q s rest : string).

Lemma strip_prefix_ci_app q : forall p rest,
  lower_letters p = lower_letters q -> Channel.strip_prefix_ci q (p +:+ rest) = Some rest.
Proof.
  induction q as [|a q IH]; intros p rest Hp; destruct p as [|b p]; try done.
  simpl in Hp. injection Hp as Hb Hp. simpl. rewrite Hb, Ascii.eqb_refl. by apply IH.
Qed.

Lemma strip_prefix_ci_Some q : forall s rest,
  Channel.strip_prefix_ci q s = Some rest ->
  exists p, s = p +:+ rest /\ lower_letters p = lower_letters q.
Proof.
  induction q as [|a q IH]; intros s rest; simpl.
  - intros [= ->]. by exists "".
  - destruct s as [|b s]; [done |].
    destruct (Ascii.eqb (lower_ascii a) (lower_ascii b)) eqn:Hab; [| done].
    apply Ascii.eqb_eq in Hab. intros Hrest.
    destruct (IH s rest Hrest) as (p & -> & Hp).
    exists (String b p). split; [done |]. simpl. by rewrite Hp, Hab.
Qed.

Lemma strip_prefix_ci_None q s p rest :
  Channel.strip_prefix_ci q s = None -> lower_letters p = lower_letters q -> s <> p +:+ rest.
Proof.
  intros Hnone Hp ->. by rewrite (strip_prefix_ci_app q p rest Hp) in Hnone.
Qed.

End EntryPrefixes.

(** X20. [normalizeAllowEntry] strips one prefix, once.  The entry is the
    result behind a prefix that is [feishu:], [user:] or [open_id:] up to
    the case of its letters, or it is the result itself, and then it begins
    with none of the three; an entry made of a prefix and a rest gives the
    rest as it is, also when the rest begins with a prefix, so the function
    is not idempotent. *)
Theorem allow_entry_loses_one_prefix (entry : string) :
  (exists p,
     entry = p +:+ Channel.normalizeAllowEntry entry
     /\ (lower_letters p ∈ entry_prefixes
         \/ (p = "" /\ forall p' rest, lower_letters p' ∈ entry_prefixes -> entry <> p' +:+ rest)))
  /\ (forall p rest,
        lower_letters p ∈ entry_prefixes -> Channel.normalizeAllowEntry (p +:+ rest) = rest)
  /\ Channel.normalizeAllowEntry "User:user:ou_1" = "user:ou_1"
  /\ Channel.normalizeAllowEntry (Channel.normalizeAllowEntry "User:user:ou_1") = "ou_1".
Proof.
  split; [| split; [| by split]].
  - unfold Channel.normalizeAllowEntry.
    destruct (Channel.strip_prefix_ci "feishu:" entry) as [rest|] eqn:Hf.
    { apply strip_prefix_ci_Some in Hf as (p & -> & Hp). exists p. split; [done |].
      left. rewrite Hp. by left. }
    destruct (Channel.strip_prefix_ci "user:" entry) as [rest|] eqn:Hu.
    { apply strip_prefix_ci_Some in Hu as (p & -> & Hp). exists p. split; [done |].
      left. rewrite Hp. right. by left. }
    destruct (Channel.strip_prefix_ci "open_id:" entry) as [rest|] eqn:Ho.
    { apply strip_prefix_ci_Some in Ho as (p & -> & Hp). exists p. split; [done |].
      left. rewrite Hp. right. right. by left. }
    exists "". split; [done |]. right. split; [done |].
    intros p' rest Hp'. unfold entry_prefixes in Hp'.
    rewrite !elem_of_cons, elem_of_nil in Hp'.
    destruct Hp' as [Hp' | [Hp' | [Hp' | []]]].
    + by apply (strip_prefix_ci_None "feishu:").
    + by apply (strip_prefix_ci_None "user:").
    + by apply (strip_prefix_ci_None "open_id:").
  - intros p rest Hp. unfold entry_prefixes in Hp.
    rewrite !elem_of_cons, elem_of_nil in Hp.
    unfold Channel.normalizeAllowEntry.
    destruct Hp as [Hp | [Hp | [Hp | []]]].
    + by rewrite (strip_prefix_ci_app "feishu:" p rest Hp).
    + assert (Hf : Channel.strip_prefix_ci "feishu:" (p +:+ rest) = None).
      { destruct p as [|c p]; [done |]. simpl in Hp. injection Hp as Hc _.
        simpl. by rewrite Hc. }
      by rewrite Hf, (strip_prefix_ci_app "user:" p rest Hp).
    + assert (Hf : Channel.strip_prefix_ci "feishu:" (p +:+ rest) = None).
      { destruct p as [|c p]; [done |]. simpl in Hp. injection Hp as Hc _.
        simpl. by rewrite Hc. }
      assert (Hu : Channel.strip_prefix_ci "user:" (p +:+ rest) = None).
      { destruct p as [|c p]; [done |]. simpl in Hp. injection Hp as Hc _.
        simpl. by rewrite Hc. }
      by rewrite Hf, Hu, (strip_prefix_ci_app "open_id:" p rest Hp).
Qed.

Section FormattedEntries.

Context (E : Engine) (Hcase : faithful_case E).

Lemma toLowerCase_empty : toLowerCase E "" = "".
Proof. reflexivity. Qed.

Lemma truthy_str_lower_trim s :
  truthy_str (toLowerCase E (trim s)) = truthy_str (trim s).
Proof using Hcase.
  destruct (truthy_str (trim s)) eqn:Hs.
  - apply truthy_str_true in Hs. apply truthy_str_true.
    by destruct (Hcase (trim s) (clean_trim s) Hs) as (_ & Hne & _).
  - apply truthy_str_false in Hs. by rewrite Hs.
Qed.

Lemma formatAllowFrom_normalized allowFrom :
  Channel.formatAllowFrom E allowFrom
  = List.filter truthy_str (map (normalizeEntry E) allowFrom).
Proof using Hcase.
  unfold Channel.formatAllowFrom, normalizeEntry.
  induction allowFrom as [|entry rest IH]; simpl; [done |].
  rewrite truthy_str_lower_trim.
  destruct (truthy_str (trim (String_ E entry))); simpl; by rewrite IH.
Qed.

Lemma normalizeEntry_normal_form entry :
  normalizeEntry E entry <> "" -> normal_form E (normalizeEntry E entry).
Proof using Hcase.
  intros Hne. split; [done |]. unfold normalizeEntry in *.
  assert (Hs : trim (String_ E entry) <> "").
  { intros Hs. by rewrite Hs in Hne. }
  destruct (Hcase (trim (String_ E entry)) (clean_trim _) Hs) as (Hclean & _ & Hidem).
  by split.
Qed.

Lemma formatted_normal_form allowFrom :
  Forall (normal_form E) (Channel.formatAllowFrom E allowFrom).
Proof using Hcase.
  rewrite formatAllowFrom_normalized. apply Forall_forall. intros x Hx.
  apply elem_of_filtered in Hx as [Hx Hne]. apply truthy_str_true in Hne.
  apply list_elem_of_fmap in Hx as (entry & -> & _).
  by apply normalizeEntry_normal_form.
Qed.

Lemma normal_forms_fixed (entries : list string) :
  Forall (normal_form E) entries ->
  List.filter truthy_str (map (normalizeEntry E) (map EntryStr entries)) = entries.
Proof.
  induction 1 as [|x rest (Hne & Hclean & Hlower) _ IH]; simpl; [done |].
  assert (Hx : normalizeEntry E (EntryStr x) = x).
  { unfold normalizeEntry. simpl. by rewrite (trim_fixed x Hclean), Hlower. }
  rewrite Hx. apply truthy_str_true in Hne. by rewrite Hne, IH.
Qed.

End FormattedEntries.

(** The engine of the examples folds a string as it folds ASCII: clean
    strings stay clean, and a folded string is left as it is. *)
Lemma sample_engine_faithful : faithful_case Sample.engine.
Proof.
  intros s Hclean Hne.
  assert (Hlower : toLowerCase Sample.engine s = lower_letters s).
  { unfold toLowerCase. by destruct (every is_ascii s). }
  assert (Hlower' : toLowerCase Sample.engine (lower_letters s) = lower_letters s).
  { unfold toLowerCase. simpl. rewrite lower_letters_idem.
    by destruct (every is_ascii (lower_letters s)). }
  rewrite Hlower, Hlower'. split; [| split; [| done]].
  - rewrite <- (trim_fixed s Hclean), <- lower_letters_trim. apply clean_trim.
  - by rewrite lower_letters_empty.
Qed.

(** X21. [formatAllowFrom] shows an allow-list as the matcher reads it, on an
    engine whose case folding keeps a clean string clean and not empty and
    leaves a folded string as it is.  Its entries are the entries of the
    list that are not blank, without the white space around them and in
    lower case, in order; formatting what it returns changes nothing; and
    [resolveFeishuAllowlistMatch] gives the same match on the formatted
    list as on the list itself, for every sender. *)
Theorem formatted_allowlist_matches_alike
    (E : Engine) (allowFrom : list AllowEntry) (senderId : string)
    (senderName : option string)
    (Hcase : faithful_case E) :
  let formatted := Channel.formatAllowFrom E allowFrom in
  Forall (normal_form E) formatted
  /\ (forall x, x ∈ formatted <-> listed E allowFrom x)
  /\ Channel.formatAllowFrom E (map EntryStr formatted) = formatted
  /\ resolveFeishuAllowlistMatch E (map EntryStr formatted) senderId senderName
     = resolveFeishuAllowlistMatch E allowFrom senderId senderName
  /\ Channel.formatAllowFrom E
       [EntryStr (IDEOGRAPHIC_SPACE +:+ "Ou_A" +:+ NBSP); EntryStr LINE_SEPARATOR; EntryNum 7]
     = ["ou_a"; "7"].
Proof.
  intros formatted.
  pose proof (formatted_normal_form E Hcase allowFrom) as Hnormal. fold formatted in Hnormal.
  pose proof (normal_forms_fixed E formatted Hnormal) as Hfixed.
  split; [done |]. split; [| split; [| split; [| reflexivity]]].
  - intros x. subst formatted. rewrite formatAllowFrom_normalized by done.
    rewrite <- includes_listed. symmetry. apply includes_true.
  - by rewrite formatAllowFrom_normalized.
  - unfold resolveFeishuAllowlistMatch. rewrite Hfixed.
    subst formatted. by rewrite formatAllowFrom_normalized.
Qed.

Lemma formatted_allowlist_matches_alike_witness :
  resolveFeishuAllowlistMatch Sample.engine
    (map EntryStr (Channel.formatAllowFrom Sample.engine
                     [EntryStr (IDEOGRAPHIC_SPACE +:+ "Ou_A "); EntryStr " "]))
    "OU_A" None
  = resolveFeishuAllowlistMatch Sample.engine
      [EntryStr (IDEOGRAPHIC_SPACE +:+ "Ou_A "); EntryStr " "] "OU_A" None.
Proof.
  exact (proj1 (proj2 (proj2 (proj2
           (formatted_allowlist_matches_alike Sample.engine
              [EntryStr (IDEOGRAPHIC_SPACE +:+ "Ou_A "); EntryStr " "] "OU_A" None
              sample_engine_faithful))))).
Defined.

(** X22. The warning about open groups and the gate of the handler read the
    group policy with different defaults.  [collectWarnings] warns exactly
    when the policy it reads is [open]: the configured one, else the default
    of the channels, else [allowlist].  The handler reads the configured
    one, else [open].  So with no group policy configured and no default,
    no warning is given, and the handler lets every sender of every group
    past its gate. *)
Theorem open_groups_by_default_go_unwarned
    (E : Engine) (cfg : ClawdbotConfig) (defaultGroupPolicy : option string) :
  (Channel.collectWarnings cfg defaultGroupPolicy = [Channel.open_groups_warning]
   <-> warned_policy cfg defaultGroupPolicy = "open")
  /\ (Channel.collectWarnings cfg defaultGroupPolicy = []
      <-> warned_policy cfg defaultGroupPolicy <> "open")
  /\ ((channels_feishu cfg ≫= groupPolicy) = None ->
      Channel.collectWarnings cfg None = []
      /\ group_policy_of cfg = GroupOpen
      /\ forall allowFrom senderId senderName,
           isFeishuGroupAllowed E (group_policy_of cfg) allowFrom senderId senderName = true)
  /\ (forall policy,
        (channels_feishu cfg ≫= groupPolicy) = Some policy ->
        (Channel.collectWarnings cfg defaultGroupPolicy <> [] <-> group_policy_of cfg = GroupOpen)).
Proof.
  unfold Channel.collectWarnings, warned_policy, group_policy_of.
  split; [| split; [| split]].
  - destruct (String.eqb _ "open") eqn:Hopen; simpl.
    + apply String.eqb_eq in Hopen. done.
    + apply String.eqb_neq in Hopen. done.
  - destruct (String.eqb _ "open") eqn:Hopen; simpl.
    + apply String.eqb_eq in Hopen. done.
    + apply String.eqb_neq in Hopen. done.
  - intros ->. done.
  - intros policy ->. by destruct policy.
Qed.

(** ** Accounts *)

Section Credentials.

Lemma trimmed_Some s x :
  Accounts.trimmed s = Some x <-> x <> "" /\ exists raw, s = Some raw /\ stripped raw x.
Proof.
  unfold Accounts.trimmed. destruct s as [raw|].
  - destruct (truthy_str (trim raw)) eqn:Hraw.
    + apply truthy_str_true in Hraw. split.
      * intros [= <-]. split; [done |]. exists raw. split; [done | apply stripped_trim].
      * intros (Hx & raw' & [= <-] & <-%trim_stripped). done.
    + apply truthy_str_false in Hraw. split; [done |].
      intros (Hx & raw' & [= <-] & Hs%trim_stripped). congruence.
  - split; [done |]. by intros (_ & raw & ? & _).
Qed.

Lemma trimmed_None s :
  Accounts.trimmed s = None <-> s = None \/ exists raw, s = Some raw /\ blank raw.
Proof.
  unfold Accounts.trimmed. destruct s as [raw|].
  - destruct (truthy_str (trim raw)) eqn:Hraw.
    + apply truthy_str_true in Hraw. split; [done |].
      intros [? | (raw' & [= <-] & Hb%trim_blank)]; done.
    + apply truthy_str_false, trim_blank in Hraw. split; [| done].
      intros _. right. by exists raw.
  - split; [by left | done].
Qed.

End Credentials.

(** X23. Credentials need an application id and an application secret that are
    not blank, the white space of Unicode counted: [resolveFeishuCredentials]
    answers exactly when both are set, and then with both without the
    white space around them; an encryption key or a verification token
    that is blank is left out, one that is set comes without the white
    space around it; the domain is the configured one, else [feishu]. *)
Theorem credentials_need_id_and_secret (cfg : option Accounts.FeishuConfig) :
  let creds := Accounts.resolveFeishuCredentials cfg in
  (is_Some creds
   <-> credential_set (cfg ≫= Accounts.appId) /\ credential_set (cfg ≫= Accounts.appSecret))
  /\ (forall found,
        creds = Some found ->
        (exists raw, cfg ≫= Accounts.appId = Some raw
                     /\ stripped raw (Accounts.cred_appId found))
        /\ (exists raw, cfg ≫= Accounts.appSecret = Some raw
                        /\ stripped raw (Accounts.cred_appSecret found))
        /\ Accounts.cred_appId found <> "" /\ Accounts.cred_appSecret found <> ""
        /\ Accounts.cred_encryptKey found = Accounts.trimmed (cfg ≫= Accounts.encryptKey)
        /\ Accounts.cred_verificationToken found
           = Accounts.trimmed (cfg ≫= Accounts.verificationToken)
        /\ Accounts.cred_domain found = default "feishu" (cfg ≫= Accounts.domain))
  /\ (forall s x,
        Accounts.trimmed s = Some x
        <-> x <> "" /\ exists raw, s = Some raw /\ stripped raw x)
  /\ (forall s,
        Accounts.trimmed s = None <-> s = None \/ exists raw, s = Some raw /\ blank raw)
  /\ Accounts.resolveFeishuCredentials None = None
  /\ Accounts.resolveFeishuCredentials
       (Some {| Accounts.enabled := None;
                Accounts.appId := Some (IDEOGRAPHIC_SPACE +:+ "cli_1" +:+ NBSP);
                Accounts.appSecret := Some ("s3" +:+ LINE_SEPARATOR);
                Accounts.encryptKey := Some IDEOGRAPHIC_SPACE;
                Accounts.verificationToken := Some (NBSP +:+ "t");
                Accounts.domain := None |})
     = Some {| Accounts.cred_appId := "cli_1"; Accounts.cred_appSecret := "s3";
               Accounts.cred_encryptKey := None;
               Accounts.cred_verificationToken := Some "t";
               Accounts.cred_domain := "feishu" |}
  /\ Accounts.resolveFeishuCredentials
       (Some {| Accounts.enabled := None;
                Accounts.appId := Some (IDEOGRAPHIC_SPACE +:+ NBSP);
                Accounts.appSecret := Some "s3";
                Accounts.encryptKey := None;
                Accounts.verificationToken := None;
                Accounts.domain := None |})
     = None.
Proof.
  intros creds. subst creds. unfold Accounts.resolveFeishuCredentials, credential_set.
  split; [| split; [| split; [apply trimmed_Some | split; [apply trimmed_None | done]]]].
  - destruct (cfg ≫= Accounts.appId) as [id|]; simpl.
    2:{ split; [by intros [? ?] |]. by intros [(x & ? & _) _]. }
    destruct (cfg ≫= Accounts.appSecret) as [secret|]; simpl.
    2:{ split; [by intros [? ?] |]. by intros [_ (x & ? & _)]. }
    destruct (truthy_str (trim id)) eqn:Hid; simpl.
    2:{ apply truthy_str_false, trim_blank in Hid. split; [by intros [? ?] |].
        intros [(x & [= <-] & Hx) _]. done. }
    destruct (truthy_str (trim secret)) eqn:Hsecret; simpl.
    2:{ apply truthy_str_false, trim_blank in Hsecret. split; [by intros [? ?] |].
        intros [_ (x & [= <-] & Hx)]. done. }
    apply truthy_str_true in Hid, Hsecret. rewrite trim_blank in Hid, Hsecret.
    split; [| by eexists]. intros _. split; [by exists id | by exists secret].
  - intros found.
    destruct (cfg ≫= Accounts.appId) as [id|]; simpl; [| done].
    destruct (cfg ≫= Accounts.appSecret) as [secret|]; simpl; [| done].
    destruct (truthy_str (trim id)) eqn:Hid; simpl; [| done].
    destruct (truthy_str (trim secret)) eqn:Hsecret; simpl; [| done].
    apply truthy_str_true in Hid, Hsecret.
    intros [= <-]. simpl.
    split; [exists id; split; [done | apply stripped_trim] |].
    split; [exists secret; split; [done | apply stripped_trim] |]. done.
Qed.

(** X24. An account is configured exactly when its credentials resolve, and
    enabled unless [enabled] is set to false; its id is the id it was asked
    for without the white space around it, else, when none was asked for or
    a blank one, the default id; without credentials it has no application
    id and the domain [feishu].  At most one account is listed as enabled:
    the default one, and only when it is enabled and configured. *)
Theorem account_is_configured_by_its_credentials
    (DEFAULT_ACCOUNT_ID : string) (cfg : Accounts.OpenclawConfig) (accountId : option string) :
  let account := Accounts.resolveFeishuAccount DEFAULT_ACCOUNT_ID cfg accountId in
  let creds := Accounts.resolveFeishuCredentials (Accounts.channels_feishu cfg) in
  let listing := Accounts.listEnabledFeishuAccounts DEFAULT_ACCOUNT_ID cfg in
  (Accounts.configured account = true <-> is_Some creds)
  /\ (Accounts.account_enabled account = false
      <-> Accounts.channels_feishu cfg ≫= Accounts.enabled = Some false)
  /\ (forall asked id,
        accountId = Some asked -> stripped asked id -> id <> "" ->
        Accounts.accountId account = id)
  /\ (forall asked,
        accountId = Some asked -> blank asked ->
        Accounts.accountId account = DEFAULT_ACCOUNT_ID)
  /\ (accountId = None -> Accounts.accountId account = DEFAULT_ACCOUNT_ID)
  /\ Accounts.accountId
       (Accounts.resolveFeishuAccount DEFAULT_ACCOUNT_ID cfg
          (Some (IDEOGRAPHIC_SPACE +:+ "main" +:+ LINE_SEPARATOR))) = "main"
  /\ Accounts.accountId
       (Accounts.resolveFeishuAccount DEFAULT_ACCOUNT_ID cfg (Some (NBSP +:+ IDEOGRAPHIC_SPACE)))
     = DEFAULT_ACCOUNT_ID
  /\ (creds = None ->
      Accounts.account_appId account = None /\ Accounts.account_domain account = "feishu")
  /\ (length listing <= 1)%nat
  /\ (forall listed,
        listed ∈ listing <->
        listed = Accounts.resolveFeishuAccount DEFAULT_ACCOUNT_ID cfg (Some DEFAULT_ACCOUNT_ID)
        /\ is_Some creds
        /\ Accounts.channels_feishu cfg ≫= Accounts.enabled <> Some false).
Proof.
  intros account creds listing. subst account listing.
  unfold Accounts.listEnabledFeishuAccounts, Accounts.listFeishuAccountIds,
    Accounts.resolveFeishuAccount.
  fold creds. simpl.
  split; [apply bool_decide_eq_true |].
  split.
  { rewrite negb_false_iff. apply bool_decide_eq_true. }
  split.
  { intros asked id -> Hid%trim_stripped Hne. simpl. rewrite Hid.
    apply truthy_str_true in Hne. by rewrite Hne. }
  split.
  { intros asked -> Hb%trim_blank. simpl. by rewrite Hb. }
  split; [by intros -> |].
  split; [reflexivity |]. split; [reflexivity |].
  split; [by intros -> |].
  destruct (bool_decide (Accounts.channels_feishu cfg ≫= Accounts.enabled = Some false))
    eqn:Henabled; simpl.
  - apply bool_decide_eq_true in Henabled. split; [lia |].
    intros listed. split; [intros Hin; by apply elem_of_nil in Hin |].
    by intros (_ & _ & Hno).
  - apply bool_decide_eq_false in Henabled.
    destruct (bool_decide (is_Some creds)) eqn:Hcreds; simpl.
    + apply bool_decide_eq_true in Hcreds. split; [lia |].
      intros listed. rewrite list_elem_of_singleton. split; [by intros -> | by intros [-> _]].
    + apply bool_decide_eq_false in Hcreds. split; [lia |].
      intros listed. split; [intros Hin; by apply elem_of_nil in Hin |].
      by intros (_ & Hyes & _).
Qed.

(** ** The monitor *)

Section MonitorFacts.

Context (E : Engine) (H : Host).

Lemma handleFeishuMessage_keeps_map cfg event botOpenId st :
  is_Some (chatHistories st) ->
  is_Some (chatHistories (handleFeishuMessage E H cfg event botOpenId st).2).
Proof.
  intros Hmap.
  destruct (parseFeishuMessageEvent E event botOpenId) as [ctx|err] eqn:Hparse.
  2:{ unfold handleFeishuMessage, bind, lift. by rewrite Hparse. }
  destruct (chatType ctx) eqn:Htype.
  - rewrite (handleFeishuMessage_dm E H cfg event botOpenId ctx st Hparse Htype).
    destruct (bool_decide _ && negb _); [done |].
    by destruct (dispatch_run_dm E H cfg event ctx
                   (logged st [LogReceived (senderOpenId ctx) (chatId ctx) P2p]) Htype)
      as (before & tail & -> & _).
  - rewrite (handleFeishuMessage_group E H cfg event botOpenId ctx st Hparse Htype).
    destruct (negb _); [done |].
    destruct (mention_required E cfg (chatId ctx) && negb (mentionedBot ctx)).
    + unfold bind, log, emit, history_call. simpl. by destruct (chatHistories st).
    + destruct (dispatch_run E H cfg event ctx
                  (logged st [LogReceived (senderOpenId ctx) (chatId ctx) Group]))
        as (before & _ & [(payload & result & ->) | (tail & err & _ & ->)]); simpl; [| done].
      destruct (_ && _); [| done]. destruct Hmap as [m ->]. by eexists.
Qed.

Lemma receive_all_keeps_map cfg botOpenId events : forall ms,
  is_Some (chatHistories (Monitor.handler_state ms)) ->
  is_Some (chatHistories
             (Monitor.handler_state (Monitor.receive_all E H cfg botOpenId events ms))).
Proof.
  induction events as [|event rest IH]; intros ms Hmap; simpl; [done |].
  apply IH. unfold Monitor.receive_v1.
  pose proof (handleFeishuMessage_keeps_map cfg event botOpenId _ Hmap) as Hnext.
  by destruct (handleFeishuMessage E H cfg event botOpenId (Monitor.handler_state ms))
    as [[[]|err] st].
Qed.

End MonitorFacts.

(** X25. Through the monitor the handler always has a history map.  The
    monitor creates the map before the first event and hands it to every
    call, and no run of the handler loses it.  So a group message that
    passes the gate, needs a mention and has none is recorded whatever
    events came before it: the run logs twice and calls
    [recordPendingHistoryEntryIfEnabled] once, for the conversation and with
    the entry of the message. *)
Theorem monitor_always_buffers
    (E : Engine) (H : Host) (cfg : ClawdbotConfig) (botOpenId : option string)
    (earlier : list FeishuMessageEvent) (event : FeishuMessageEvent)
    (ctx : FeishuMessageContext)
    (Hparse : parseFeishuMessageEvent E event botOpenId = Normal ctx)
    (Hgroup : chatType ctx = Group)
    (Haccept : group_accepts E (group_policy_of cfg) (effective_allow_list E cfg (chatId ctx))
                 (senderOpenId ctx) (senderName ctx))
    (Hrequire : mention_required E cfg (chatId ctx) = true)
    (Hunmentioned : mentionedBot ctx = false) :
  let before := Monitor.receive_all E H cfg botOpenId earlier Monitor.started in
  let after := Monitor.receive_v1 E H cfg botOpenId event before in
  is_Some (chatHistories (Monitor.handler_state before))
  /\ is_Some (chatHistories (Monitor.handler_state after))
  /\ Monitor.reported after = Monitor.reported before
  /\ trace (Monitor.handler_state after)
     = trace (Monitor.handler_state before)
       ++ [Log (LogReceived (senderOpenId ctx) (chatId ctx) Group);
           Log (LogNoMentionRecording (chatId ctx));
           Called (RecordPendingHistoryEntry (chatId ctx) (resolve_historyLimit H cfg)
                     (history_entry H ctx)) true].
Proof.
  intros before after.
  assert (Hmap : is_Some (chatHistories (Monitor.handler_state before))).
  { subst before. apply receive_all_keeps_map. by eexists. }
  split; [exact Hmap |].
  subst after. unfold Monitor.receive_v1.
  rewrite (handleFeishuMessage_buffers E H cfg event botOpenId ctx _
             Hparse Hgroup Haccept Hrequire Hunmentioned).
  unfold history_calls. destruct Hmap as [m Hm]. rewrite Hm. simpl.
  split; [by eexists |]. by split.
Qed.

Lemma monitor_always_buffers_witness :
  let before :=
    Monitor.receive_all Sample.engine Sample.host (Sample.config GroupOpen [] None) None
      [Sample.group_event "text" Sample.text_hello None] Monitor.started in
  is_Some (chatHistories (Monitor.handler_state before)).
Proof.
  exact (proj1 (monitor_always_buffers Sample.engine Sample.host
                  (Sample.config GroupOpen [] None) None
                  [Sample.group_event "text" Sample.text_hello None]
                  (Sample.group_event "text" Sample.text_hello None)
                  Sample.hello_ctx eq_refl eq_refl I eq_refl eq_refl)).
Defined.

(** ** The quoted message *)

(** X26. The handler fetches a quoted message only for a reply: every fetch it
    asks for names the [parent_id] of the event, and that id is not empty.
    So an event without [parent_id], or with an empty one, causes no
    fetch. *)
Theorem quoted_message_is_the_parent
    (E : Engine) (H : Host) (cfg : ClawdbotConfig) (event : FeishuMessageEvent)
    (botOpenId : option string) (st : State) :
  let events := added st (handleFeishuMessage E H cfg event botOpenId st).2 in
  (forall id ok,
     Called (GetMessage id) ok ∈ events -> parent_id (message event) = Some id /\ id <> "")
  /\ (default "" (parent_id (message event)) = "" ->
      forall id ok, Called (GetMessage id) ok ∉ events).
Proof.
  intros events. subst events.
  pose proof (handleFeishuMessage_fetches_parent E H cfg event botOpenId) as Htraces.
  assert (Hfetch : forall id ok,
            Called (GetMessage id) ok
            ∈ added st (handleFeishuMessage E H cfg event botOpenId st).2 ->
            parent_id (message event) = Some id /\ id <> "").
  { intros id ok Hin.
    pose proof (traces_added _ _ st _ Htraces Hin) as Hok.
    apply andb_prop in Hok as [Hparent Hid].
    split; [by apply bool_decide_eq_true in Hparent | by apply truthy_str_true]. }
  split; [exact Hfetch |].
  intros Hnone id ok Hin. destruct (Hfetch id ok Hin) as [Hparent Hid].
  rewrite Hparent in Hnone. simpl in Hnone. done.
Qed.

(** ** Where the replies go *)

Section Replies.

Context (E : Engine) (H : Host).

Lemma returns_any {A} (m : M A) : returns (fun _ => True) m.
Proof. by intros st a st' _. Qed.

Lemma returns_ret {A} (Q : A -> Prop) (a : A) : Q a -> returns Q (ret a).
Proof. intros Ha st a' st' [= <- _]. exact Ha. Qed.

Lemma returns_bind {A B} (R : A -> Prop) (Q : B -> Prop) (m : M A) (k : A -> M B) :
  returns R m -> (forall a, R a -> returns Q (k a)) -> returns Q (bind m k).
Proof.
  intros Hm Hk st b st'. unfold bind.
  destruct (m st) as [[a|err] st1] eqn:Hrun; [| done].
  intros Hb. apply (Hk a (Hm st a st1 Hrun) st1 b st' Hb).
Qed.

Lemma returns_skip {A B} (Q : B -> Prop) (m : M A) (k : A -> M B) :
  (forall a, returns Q (k a)) -> returns Q (bind m k).
Proof. intros Hk. apply (returns_bind (fun _ => True)); [apply returns_any | auto]. Qed.

Lemma createFeishuReplyDispatcher_returns agentId chat replyTo :
  returns (fun d => disp_chatId d = chat /\ disp_replyToMessageId d = replyTo)
    (createFeishuReplyDispatcher H agentId chat replyTo).
Proof.
  unfold createFeishuReplyDispatcher.
  do 4 (apply returns_skip; intros ?). by apply returns_ret.
Qed.

Lemma handleFeishuMessage_prepare_returns cfg event ctx historyLimit :
  returns (fun prepared => disp_chatId prepared.2 = chatId ctx
                           /\ disp_replyToMessageId prepared.2 = Some (messageId ctx))
    (handleFeishuMessage_prepare E H cfg event ctx historyLimit).
Proof.
  unfold handleFeishuMessage_prepare. cbv zeta.
  do 10 (apply returns_skip; intros ?).
  apply (returns_bind _ _ _ _ (createFeishuReplyDispatcher_returns _ _ _)).
  intros dispatcher Hd. apply returns_skip. intros _. by apply returns_ret.
Qed.

Lemma deliver_replies cfg d payload :
  quiet (replies_to (disp_chatId d) (disp_replyToMessageId d)) (deliver H cfg d payload).
Proof.
  assert (Hsend : forall (label : string -> HostCall) (send : string -> Completion unit) chunks,
            (forall chunk ok,
               replies_to (disp_chatId d) (disp_replyToMessageId d)
                 (Called (label chunk) ok) = true) ->
            quiet (replies_to (disp_chatId d) (disp_replyToMessageId d))
              (for_each chunks (fun chunk => call (label chunk) (send chunk)))).
  { intros label send chunks Hlabel. apply quiet_for_each. intros chunk.
    apply quiet_call. intros ok. apply Hlabel. }
  unfold deliver. cbv zeta.
  apply quiet_bind; [by apply quiet_log | intros _].
  destruct (negb _); [by apply quiet_log |].
  destruct (match default RenderAuto _ with
            | RenderAuto => _ | RenderRaw => _ | RenderCard => _
            end).
  - apply quiet_bind; [apply quiet_lift | intros chunks].
    apply quiet_bind; [by apply quiet_log | intros _].
    apply (Hsend (fun chunk => SendMarkdownCard (disp_chatId d) chunk (disp_replyToMessageId d))).
    intros chunk ok. simpl. rewrite String.eqb_refl. by apply bool_decide_eq_true.
  - apply quiet_bind; [apply quiet_lift | intros converted].
    apply quiet_bind; [apply quiet_lift | intros chunks].
    apply quiet_bind; [by apply quiet_log | intros _].
    apply (Hsend (fun chunk => SendMessage (disp_chatId d) chunk (disp_replyToMessageId d))).
    intros chunk ok. simpl. rewrite String.eqb_refl. by apply bool_decide_eq_true.
Qed.

End Replies.

(** X27. Replies go back to the message.  The dispatcher the handler prepares
    holds the conversation of the inbound message and the id of that
    message; whatever it is asked to deliver, every call [deliver] makes is
    a card or a text sent to that conversation, as a reply to that message,
    and [deliver] leaves the histories alone. *)
Theorem replies_go_back_to_the_message
    (E : Engine) (H : Host) (cfg : ClawdbotConfig) (event : FeishuMessageEvent)
    (ctx : FeishuMessageContext) (historyLimit : Z) (st st' : State)
    (payload : InboundContext) (d : ReplyDispatcher)
    (Hprepared : handleFeishuMessage_prepare E H cfg event ctx historyLimit st
                 = (Normal (payload, d), st')) :
  disp_chatId d = chatId ctx
  /\ disp_replyToMessageId d = Some (messageId ctx)
  /\ forall reply st0,
       chatHistories (deliver H cfg d reply st0).2 = chatHistories st0
       /\ forall c ok,
            Called c ok ∈ added st0 (deliver H cfg d reply st0).2 ->
            exists chunk,
              c = SendMarkdownCard (chatId ctx) chunk (Some (messageId ctx))
              \/ c = SendMessage (chatId ctx) chunk (Some (messageId ctx)).
Proof.
  destruct (handleFeishuMessage_prepare_returns E H cfg event ctx historyLimit
              st (payload, d) st' Hprepared) as [Hchat Hreply].
  simpl in Hchat, Hreply.
  split; [done |]. split; [done |].
  intros reply st0.
  pose proof (deliver_replies H cfg d reply) as Hquiet.
  split; [by destruct (Hquiet st0) |].
  intros c ok Hin.
  pose proof (traces_added _ _ st0 _ (quiet_traces _ _ Hquiet) Hin) as Hok.
  rewrite Hchat, Hreply in Hok.
  destruct c; try discriminate; simpl in Hok;
    apply andb_prop in Hok as [Hto Hre];
    apply String.eqb_eq in Hto; apply bool_decide_eq_true in Hre; subst;
    eexists; [by left | by right].
Qed.

Lemma replies_go_back_to_the_message_witness :
  exists d,
    (handleFeishuMessage_prepare Sample.engine Sample.host (Sample.config GroupOpen [] None)
       (Sample.group_event "text" Sample.text_hello None) Sample.hello_ctx 50
       (Sample.initial None)).1
    = Normal (d.1, d.2)
    /\ disp_chatId d.2 = "oc_team"
    /\ disp_replyToMessageId d.2 = Some "om_1".
Proof.
  eexists (_, _). split; [vm_compute; reflexivity |].
  split.
  - refine (proj1 (replies_go_back_to_the_message Sample.engine Sample.host
                     (Sample.config GroupOpen [] None)
                     (Sample.group_event "text" Sample.text_hello None) Sample.hello_ctx 50
                     (Sample.initial None) _ _ _ _)).
    vm_compute. reflexivity.
  - reflexivity.
Defined.

(** ** Rendering, again *)

(** X28. What makes a fragment a card keeps making it one: a fragment that
    [shouldUseCard] accepts is accepted with any text before it and any
    text after it. *)
Theorem card_rendering_is_monotone (before fragment after : string)
    (Hcard : shouldUseCard fragment = true) :
  shouldUseCard (before +:+ fragment +:+ after) = true.
Proof.
  apply shouldUseCard_spec. apply shouldUseCard_spec in Hcard.
  destruct Hcard as [(a & body & z & ->) | (a & header & breaks & rule & z & -> & Hrest)].
  - left. exists (before +:+ a), body, (z +:+ after).
    by rewrite !app_assoc'.
  - right. exists (before +:+ a), header, breaks, rule, (z +:+ after).
    split; [| done]. by rewrite !app_assoc'.
Qed.

Lemma card_rendering_is_monotone_witness :
  shouldUseCard ("see: " +:+ (FENCE +:+ "code" +:+ FENCE) +:+ " - thanks") = true.
Proof.
  apply (card_rendering_is_monotone "see: " (FENCE +:+ "code" +:+ FENCE) " - thanks").
  vm_compute. reflexivity.
Defined.

(** ** The context of an event *)

(** X29. The context [parseFeishuMessageEvent] builds, and the first thing the
    handler says.  The conversation, the message id, the chat type and the
    message type are those of the event; [senderOpenId] is the [open_id] of
    the sender, empty when there is none; [senderId] is the [user_id] when it
    is set and not empty, and [senderOpenId] otherwise; [rootId] and
    [parentId] are the ids of the event when these are not empty, and are
    never the empty string; no sender name is set.  Every run of the
    handler on a parsed event starts with the log line of the reception,
    which names [senderOpenId], the conversation and the chat type. *)
Theorem context_names_the_sender
    (E : Engine) (event : FeishuMessageEvent) (botOpenId : option string)
    (ctx : FeishuMessageContext)
    (Hparse : parseFeishuMessageEvent E event botOpenId = Normal ctx) :
  let ids := sender_id (sender event) in
  (chatId ctx = chat_id (message event)
   /\ messageId ctx = message_id (message event)
   /\ chatType ctx = chat_type (message event)
   /\ ctx_contentType ctx = message_type (message event)
   /\ mentionedBot ctx = checkBotMentioned event botOpenId
   /\ senderName ctx = None)
  /\ senderOpenId ctx = default "" (open_id ids)
  /\ senderId ctx = (if truthy_str (default "" (user_id ids))
                     then default "" (user_id ids) else senderOpenId ctx)
  /\ (forall id, rootId ctx = Some id <-> root_id (message event) = Some id /\ id <> "")
  /\ (forall id, parentId ctx = Some id <-> parent_id (message event) = Some id /\ id <> "")
  /\ forall H cfg st,
       exists later,
         added st (handleFeishuMessage E H cfg event botOpenId st).2
         = Log (LogReceived (senderOpenId ctx) (chatId ctx) (chatType ctx)) :: later.
Proof.
  intros ids.
  assert (Hnonempty : forall (field : option string) id,
            match field with
            | Some x => if truthy_str x then Some x else None
            | None => None
            end = Some id <-> field = Some id /\ id <> "").
  { intros [x|] id; [| by split; [| intros [? _]]].
    destruct (truthy_str x) eqn:Hx.
    - apply truthy_str_true in Hx. split; [by intros [= <-] | by intros [[= <-] _]].
    - apply truthy_str_false in Hx. split; [done |]. intros [[= <-] Hne]. done. }
  assert (Hfields :
    (chatId ctx = chat_id (message event)
     /\ messageId ctx = message_id (message event)
     /\ chatType ctx = chat_type (message event)
     /\ ctx_contentType ctx = message_type (message event)
     /\ mentionedBot ctx = checkBotMentioned event botOpenId
     /\ senderName ctx = None)
    /\ senderOpenId ctx = default "" (open_id ids)
    /\ senderId ctx = (if truthy_str (default "" (user_id ids))
                       then default "" (user_id ids) else senderOpenId ctx)
    /\ (forall id, rootId ctx = Some id <-> root_id (message event) = Some id /\ id <> "")
    /\ (forall id, parentId ctx = Some id <-> parent_id (message event) = Some id /\ id <> "")).
  { revert Hparse. unfold parseFeishuMessageEvent.
    destruct (stripBotMention E _ _) as [stripped|err]; simpl; [| done].
    intros [= <-]. simpl. fold ids.
    split; [done |].
    split; [destruct (open_id ids) as [[|c r]|]; done |].
    split.
    { destruct (user_id ids) as [[|c r]|]; simpl; try done;
        destruct (open_id ids) as [[|c' r']|]; done. }
    split; intros id; apply Hnonempty. }
  destruct Hfields as (H1 & H2 & H3 & H4 & H5).
  split; [done |]. split; [done |]. split; [done |]. split; [done |]. split; [done |].
  intros H cfg st.
  destruct (chatType ctx) eqn:Htype.
  - rewrite (handleFeishuMessage_dm E H cfg event botOpenId ctx st Hparse Htype).
    destruct (bool_decide _ && negb _).
    + unfold log, emit, logged. simpl. rewrite <- app_assoc, added_app. by eexists.
    + destruct (dispatch_run_dm E H cfg event ctx
                  (logged st [LogReceived (senderOpenId ctx) (chatId ctx) P2p]) Htype)
        as (before & tail & -> & _).
      simpl. rewrite <- app_assoc, added_app. by eexists.
  - rewrite (handleFeishuMessage_group E H cfg event botOpenId ctx st Hparse Htype).
    destruct (negb _).
    + unfold log, emit, logged. simpl. rewrite <- app_assoc, added_app. by eexists.
    + destruct (mention_required E cfg (chatId ctx) && negb (mentionedBot ctx)).
      * unfold bind, log, emit, history_call. simpl.
        destruct (chatHistories st); simpl; rewrite <- ?app_assoc, added_app; by eexists.
      * destruct (dispatch_run E H cfg event ctx
                    (logged st [LogReceived (senderOpenId ctx) (chatId ctx) Group]))
          as (before & _ & [(payload & result & ->) | (tail & err & _ & ->)]);
          simpl; rewrite <- app_assoc, added_app; by eexists.
Qed.

Lemma context_names_the_sender_witness :
  senderOpenId Sample.hello_ctx = "ou_alice" /\ senderId Sample.hello_ctx = "ou_alice".
Proof.
  pose proof (context_names_the_sender Sample.engine
                (Sample.group_event "text" Sample.text_hello None) None Sample.hello_ctx
                eq_refl) as (_ & Hopen & Hid & _).
  split; [exact Hopen | exact Hid].
Defined.
